(** * fastbc: border-distance profiles and the multilevel clustering driver

    A shallow embedding of

    - [fastbc::brandes::VertexInfo<V, W>]
      (src/libfastbc/include/brandes/VertexInfo.h), the per-vertex profile of
      shortest-path lengths and counts towards the border vertices of a
      cluster, and
    - [fastbc::louvain::LouvainEvaluator<V, W>]
      (src/libfastbc/include/louvain/LouvainEvaluator.h), the driver of the
      parallel multilevel Louvain clustering,

    followed by the properties of both.

    Conventions of the embedding.

    - The C++ [int] used for indices, sizes and community ids is [Z]; a
      [std::vector<T>] is a [list T].  [operator[]] of a vector performs no
      bounds check; an access outside the storage is undefined behaviour and
      is recorded as the outcome [Undefined].  An index of type [int] is
      converted to [size_t] by [operator[]], so that every negative index
      lands outside the storage.
    - A member function that can throw returns an [outcome]: [Ok] with the
      result (and, for mutators, the updated object), [OutOfRange] for
      [throw std::out_of_range], [Undefined] as above, and [NoQuotient]
      for a division whose quotient the numeric type has no value for
      (the division by zero of the integer types, which is undefined).
    - The template parameters [V] (count type) and [W] (distance type) are
      types that come with a record of their arithmetic, [numeric].  The
      properties are stated for every such type, where needed under the
      laws of arithmetic they rest on.  The record is instantiated with
      [double] as the binary64 floating-point numbers, with their
      infinities, NaN and rounding; with [unsigned] as the integers modulo
      2^32; with [int] as the 32-bit two's complement integers; and with
      the unbounded integers, which agree with [int] as long as every
      result is within the range of [int].
    - The loops of [VertexInfo] carry [omp simd] directives.  On the
      loops that work element by element the directive does not change
      what is computed, and it is left out.  On the loop of
      [squaredDistance] it comes with a reduction over [sqDistance], which
      lets the additions be made in another order than that of the loop;
      the embedding adds in the order of the loop, which gives the same
      sum wherever the additions are exact. *)

From Stdlib Require Import ZArith Floats List Lia Bool.
From stdpp Require Import base list.

Local Open Scope Z_scope.

(* ===================================================================== *)
(** * Part I: definitions *)
(* ===================================================================== *)

(** ** Outcomes of member functions *)

Inductive outcome (A : Type) : Type :=
| Ok (a : A)
| OutOfRange
| Undefined
| NoQuotient.

Arguments Ok {A} a.
Arguments OutOfRange {A}.
Arguments Undefined {A}.
Arguments NoQuotient {A}.

#[global] Instance outcome_ret : MRet outcome := fun A a => Ok a.

#[global] Instance outcome_bind : MBind outcome := fun A B f m =>
  match m with
  | Ok a => f a
  | OutOfRange => OutOfRange
  | Undefined => Undefined
  | NoQuotient => NoQuotient
  end.

(** [v[i]] for reading, with [i] an [int]. *)
Definition vec_get {A : Type} (v : list A) (i : Z) : outcome A :=
  if i <? 0 then Undefined
  else match v !! Z.to_nat i with
       | Some x => Ok x
       | None => Undefined
       end.

(** [v[i] = x]. *)
Definition vec_set {A : Type} (v : list A) (i : Z) (x : A) : outcome (list A) :=
  if i <? 0 then Undefined
  else if (Z.to_nat i <? length v)%nat then Ok (<[Z.to_nat i := x]> v)
  else Undefined.

(** [for (int i = lo; ...; ++i) body] run for [n] iterations, threading the
    state the body updates. *)
Fixpoint for_loop {S : Type} (n : nat) (i : Z)
    (body : Z -> S -> outcome S) (s : S) : outcome S :=
  match n with
  | O => Ok s
  | Datatypes.S n' => s' ← body i s; for_loop n' (i + 1) body s'
  end.

(** [for (int i = 0; i < hi; ++i) body]. *)
Definition for_range {S : Type} (hi : Z)
    (body : Z -> S -> outcome S) (s : S) : outcome S :=
  for_loop (Z.to_nat hi) 0 body s.

(** ** Arithmetic of a template parameter *)

(** What the profile uses of a numeric type [T]: the constant [(T)0], the
    binary operators on two operands of type [T], unary minus, [==] and
    [<].  Types of rank below [int] are promoted before every operation and
    are not covered.  [n_div] is [None] where the type has no value for the
    quotient. *)
Record numeric (T : Type) : Type := mkNumeric {
  n_zero : T;
  n_add : T -> T -> T;
  n_sub : T -> T -> T;
  n_mul : T -> T -> T;
  n_div : T -> T -> option T;
  n_opp : T -> T;
  n_eqb : T -> T -> bool;
  n_ltb : T -> T -> bool
}.

Arguments n_zero {T} _.
Arguments n_add {T} _ _ _.
Arguments n_sub {T} _ _ _.
Arguments n_mul {T} _ _ _.
Arguments n_div {T} _ _ _.
Arguments n_opp {T} _ _.
Arguments n_eqb {T} _ _ _.
Arguments n_ltb {T} _ _ _.

(** The unbounded integers: [int] as long as every result is within the
    range of [int].  Where a result is outside it, [int_numeric] below
    gives what the code computes. *)
Definition Z_numeric : numeric Z := {|
  n_zero := 0;
  n_add := Z.add;
  n_sub := Z.sub;
  n_mul := Z.mul;
  n_div := fun a b => if b =? 0 then None else Some (Z.quot a b);
  n_opp := Z.opp;
  n_eqb := Z.eqb;
  n_ltb := Z.ltb
|}.

(** [int] of 32 bits.  A result outside the range is the two's complement
    one, which is what the targets of the build compute; the standard
    leaves it undefined.  The quotient of the least value by -1 has no
    value. *)
Definition int_wrap (z : Z) : Z := (z + 2 ^ 31) mod 2 ^ 32 - 2 ^ 31.

Definition int_numeric : numeric Z := {|
  n_zero := 0;
  n_add := fun a b => int_wrap (a + b);
  n_sub := fun a b => int_wrap (a - b);
  n_mul := fun a b => int_wrap (a * b);
  n_div := fun a b =>
    if b =? 0 then None
    else if (a =? - 2 ^ 31) && (b =? -1) then None
    else Some (Z.quot a b);
  n_opp := fun a => int_wrap (- a);
  n_eqb := Z.eqb;
  n_ltb := Z.ltb
|}.

(** [unsigned] of 32 bits: the integers modulo 2^32. *)
Definition unsigned_wrap (z : Z) : Z := z mod 2 ^ 32.

Definition unsigned_numeric : numeric Z := {|
  n_zero := 0;
  n_add := fun a b => unsigned_wrap (a + b);
  n_sub := fun a b => unsigned_wrap (a - b);
  n_mul := fun a b => unsigned_wrap (a * b);
  n_div := fun a b => if b =? 0 then None else Some (a / b);
  n_opp := fun a => unsigned_wrap (- a);
  n_eqb := Z.eqb;
  n_ltb := Z.ltb
|}.

(** [double]: the binary64 floating-point numbers, with the operations of
    IEEE 754.  Every quotient has a value, an infinity or NaN where the
    divisor is zero. *)
Definition double_numeric : numeric float := {|
  n_zero := 0%float;
  n_add := PrimFloat.add;
  n_sub := PrimFloat.sub;
  n_mul := PrimFloat.mul;
  n_div := fun a b => Some (PrimFloat.div a b);
  n_opp := PrimFloat.opp;
  n_eqb := PrimFloat.eqb;
  n_ltb := PrimFloat.ltb
|}.

(** The conversions between the integer types and [double]: [(double)] of
    an integer below 2^63 in magnitude, and [(int)] of a floating-point
    value, which drops the fractional part.  An infinity, NaN or a value
    outside the range of the integer type has no conversion (undefined
    behaviour); [double_to_int] is used on values within the range
    only. *)
Definition int_to_double (z : Z) : float :=
  if z <? 0 then PrimFloat.opp (PrimFloat.of_uint63 (Uint63.of_Z (- z)))
  else PrimFloat.of_uint63 (Uint63.of_Z z).

Definition double_to_int (x : float) : Z :=
  match Prim2SF x with
  | S754_finite s m e =>
      let q := if 0 <=? e then Z.shiftl (Zpos m) e
               else Z.shiftr (Zpos m) (- e) in
      if s then - q else q
  | _ => 0
  end.

(** What [squaredDistance] uses of the type [double]: [std::pow(x, 2)]
    converts [x] to [double] and returns a [double], for every arithmetic
    type of [x] other than [long double], which is not covered; and
    [sqDistance += d] with [d] a [double] converts [sqDistance] to
    [double], adds there and converts the sum back to [W]. *)
Record promotion (V W : Type) : Type := mkPromotion {
  p_double : Type;
  d_add : p_double -> p_double -> p_double;
  d_mul : p_double -> p_double -> p_double;
  W_to_double : W -> p_double;
  V_to_double : V -> p_double;
  double_to_W : p_double -> W
}.

Arguments p_double {V W} _.
Arguments d_add {V W} _ _ _.
Arguments d_mul {V W} _ _ _.
Arguments W_to_double {V W} _ _.
Arguments V_to_double {V W} _ _.
Arguments double_to_W {V W} _ _.

(** The promotion to binary64, given the conversions of [V] and [W]. *)
Definition to_binary64 {V W : Type}
    (W_to : W -> float) (V_to : V -> float) (to_W : float -> W)
    : promotion V W :=
  mkPromotion V W float PrimFloat.add PrimFloat.mul W_to V_to to_W.

(** The promotions of [VertexInfo<int, double>], [VertexInfo<double, int>]
    and [VertexInfo<int, int>]. *)
Definition int_double : promotion Z float :=
  to_binary64 id int_to_double id.

Definition double_int : promotion float Z :=
  to_binary64 int_to_double id double_to_int.

Definition int_int : promotion Z Z :=
  to_binary64 int_to_double int_to_double double_to_int.

(** ** VertexInfo *)

Record VertexInfo (V W : Type) : Type := mkVertexInfo {
  _borderCount : Z;
  _borderSPLength : list W;
  _borderSPCount : list V
}.

Arguments mkVertexInfo {V W} _ _ _.
Arguments _borderCount {V W} _.
Arguments _borderSPLength {V W} _.
Arguments _borderSPCount {V W} _.

(** The class invariant: both vectors hold [_borderCount] elements. *)
Definition wf {V W : Type} (p : VertexInfo V W) : Prop :=
  Z.of_nat (length (_borderSPLength p)) = _borderCount p /\
  Z.of_nat (length (_borderSPCount p)) = _borderCount p.

Section VertexInfoDefs.

Context {V W : Type}.
Variable NV : numeric V.
Variable NW : numeric W.

(** The conversion of a difference of counts to the distance type:
    [W cmp = <V expression>]. *)
Variable castVW : V -> W.

Variable PD : promotion V W.

Abbreviation profile := (VertexInfo V W).

Definition with_length (p : profile) (l : list W) : profile :=
  mkVertexInfo (_borderCount p) l (_borderSPCount p).

Definition with_count (p : profile) (c : list V) : profile :=
  mkVertexInfo (_borderCount p) (_borderSPLength p) c.

(** [VertexInfo(int borderCount)]: two value-initialised vectors. *)
Definition VertexInfo_new (borderCount : Z) : profile :=
  mkVertexInfo borderCount
    (replicate (Z.to_nat borderCount) (n_zero NW))
    (replicate (Z.to_nat borderCount) (n_zero NV)).

Definition setBorderSPLength (p : profile) (storeIndex : Z) (length : W)
    : outcome profile :=
  if storeIndex <? _borderCount p then
    l ← vec_set (_borderSPLength p) storeIndex length;
    Ok (with_length p l)
  else OutOfRange.

Definition getBorderSPLength (p : profile) (storeIndex : Z) : outcome W :=
  if storeIndex <? _borderCount p then
    vec_get (_borderSPLength p) storeIndex
  else OutOfRange.

Definition setBorderSPCount (p : profile) (storeIndex : Z) (count : V)
    : outcome profile :=
  if storeIndex <? _borderCount p then
    c ← vec_set (_borderSPCount p) storeIndex count;
    Ok (with_count p c)
  else OutOfRange.

Definition getBorderSPCount (p : profile) (storeIndex : Z) : outcome V :=
  if storeIndex <? _borderCount p then
    vec_get (_borderSPCount p) storeIndex
  else OutOfRange.

(** [std::min_element] over a non-empty range whose smallest element so
    far is [smallest]: the first of the smallest elements with respect to
    [<]. *)
Fixpoint min_element (smallest : W) (rest : list W) : W :=
  match rest with
  | [] => smallest
  | x :: rest' =>
      min_element (if n_ltb NW x smallest then x else smallest) rest'
  end.

Definition getMinBorderSPLength (p : profile) : outcome W :=
  if _borderCount p =? 0 then Ok (n_zero NW)
  else match _borderSPLength p with
       | [] => Undefined
       | x :: rest => Ok (min_element x rest)
       end.

Definition normalize (p : profile) : outcome profile :=
  min ← getMinBorderSPLength p;
  for_range (_borderCount p)
    (fun i q =>
       x ← vec_get (_borderSPLength q) i;
       l ← vec_set (_borderSPLength q) i (n_sub NW x min);
       Ok (with_length q l))
    p.

Definition reset (p : profile) : profile :=
  mkVertexInfo (_borderCount p)
    (replicate (Z.to_nat (_borderCount p)) (n_zero NW))
    (replicate (Z.to_nat (_borderCount p)) (n_zero NV)).

Definition borders (p : profile) : Z := _borderCount p.

(** [std::pow(x, 2)] on a [double]: the product [x * x], rounded once. *)
Definition pow2 (x : p_double PD) : p_double PD := d_mul PD x x.

(** [sqDistance += d]. *)
Definition accumulate (sqDistance : W) (d : p_double PD) : W :=
  double_to_W PD (d_add PD (W_to_double PD sqDistance) d).

(** The loop shared by the compound assignments [+=], [-=], [*=], [/=]
    with another profile: at every index below [_borderCount] the length
    and then the count of [this] are combined with those of [other].  The
    other profile is taken at the instantiation of [this], [N = V] and
    [E = W], here and in [compare]. *)
Definition elementwise_step
    (opW : W -> W -> option W) (opV : V -> V -> option V)
    (other : profile) (i : Z) (q : profile) : outcome profile :=
  x ← vec_get (_borderSPLength q) i;
  y ← vec_get (_borderSPLength other) i;
  match opW x y with
  | None => NoQuotient
  | Some z =>
      l ← vec_set (_borderSPLength q) i z;
      a ← vec_get (_borderSPCount q) i;
      b ← vec_get (_borderSPCount other) i;
      match opV a b with
      | None => NoQuotient
      | Some d =>
          c ← vec_set (_borderSPCount q) i d;
          Ok (mkVertexInfo (_borderCount q) l c)
      end
  end.

Definition elementwise
    (opW : W -> W -> option W) (opV : V -> V -> option V)
    (p other : profile) : outcome profile :=
  for_range (_borderCount p) (elementwise_step opW opV other) p.

Definition total {T : Type} (f : T -> T -> T) : T -> T -> option T :=
  fun a b => Some (f a b).

Definition add_assign : profile -> profile -> outcome profile :=
  elementwise (total (n_add NW)) (total (n_add NV)).

Definition sub_assign : profile -> profile -> outcome profile :=
  elementwise (total (n_sub NW)) (total (n_sub NV)).

Definition mul_assign : profile -> profile -> outcome profile :=
  elementwise (total (n_mul NW)) (total (n_mul NV)).

Definition div_assign : profile -> profile -> outcome profile :=
  elementwise (n_div NW) (n_div NV).

(** The binary operators copy [*this] and apply the compound assignment
    to the copy. *)
Definition plus (p other : profile) : outcome profile :=
  let sum := p in add_assign sum other.

Definition minus (p other : profile) : outcome profile :=
  let sub := p in sub_assign sub other.

Definition times (p other : profile) : outcome profile :=
  let mul := p in mul_assign mul other.

Definition divide (p other : profile) : outcome profile :=
  let div := p in div_assign div other.

(** [compare]: the remaining [n] iterations of the loop, from index [i]. *)
Fixpoint compare_loop (n : nat) (i : Z) (p other : profile) : outcome W :=
  match n with
  | O => Ok (n_zero NW)
  | S n' =>
      a ← vec_get (_borderSPCount p) i;
      b ← vec_get (_borderSPCount other) i;
      let cmp := castVW (n_sub NV a b) in
      if negb (n_eqb NW cmp (n_zero NW)) then Ok cmp
      else
        x ← vec_get (_borderSPLength p) i;
        y ← vec_get (_borderSPLength other) i;
        let cmp := n_sub NW x y in
        if negb (n_eqb NW cmp (n_zero NW)) then Ok cmp
        else compare_loop n' (i + 1) p other
  end.

Definition compare (p other : profile) : outcome W :=
  compare_loop (Z.to_nat (_borderCount p)) 0 p other.

Definition op_eq (p other : profile) : outcome bool :=
  c ← compare p other; Ok (n_eqb NW c (n_zero NW)).

Definition op_ne (p other : profile) : outcome bool :=
  c ← compare p other; Ok (negb (n_eqb NW c (n_zero NW))).

Definition op_lt (p other : profile) : outcome bool :=
  c ← compare p other; Ok (n_ltb NW c (n_zero NW)).

Definition op_gt (p other : profile) : outcome bool :=
  c ← compare p other; Ok (n_ltb NW (n_zero NW) c).

Definition op_le (p other : profile) : outcome bool :=
  c ← compare p other; Ok (negb (n_ltb NW (n_zero NW) c)).

Definition op_ge (p other : profile) : outcome bool :=
  c ← compare p other; Ok (negb (n_ltb NW c (n_zero NW))).

(** [squaredDistance] against a profile over the numeric types [N], [E];
    [castNV] and [castEW] are the casts [(V)] and [(W)] the loop applies to
    the entries of [other].  The length difference is taken in [W] and the
    count difference in [V]; each is handed to [std::pow] and its square
    added to [sqDistance], in the order of the loop. *)
Definition squaredDistance_step {N E : Type}
    (castNV : N -> V) (castEW : E -> W)
    (p : profile) (other : VertexInfo N E) (i : Z) (sqDistance : W)
    : outcome W :=
  x ← vec_get (_borderSPLength p) i;
  y ← vec_get (_borderSPLength other) i;
  let sqDistance :=
    accumulate sqDistance (pow2 (W_to_double PD (n_sub NW x (castEW y)))) in
  a ← vec_get (_borderSPCount p) i;
  b ← vec_get (_borderSPCount other) i;
  Ok (accumulate sqDistance (pow2 (V_to_double PD (n_sub NV a (castNV b))))).

Definition squaredDistance {N E : Type}
    (castNV : N -> V) (castEW : E -> W)
    (p : profile) (other : VertexInfo N E) : outcome W :=
  for_range (_borderCount p)
    (squaredDistance_step castNV castEW p other) (n_zero NW).

End VertexInfoDefs.

(** ** The two-pass comparison and the distance formula of the specification *)

Section VertexInfoSpec.

Context {V W : Type}.
Variable NV : numeric V.
Variable NW : numeric W.
Variable castVW : V -> W.

(** The first element of a list of differences that is not zero, or zero. *)
Fixpoint first_nonzero (ds : list W) : W :=
  match ds with
  | [] => n_zero NW
  | d :: ds' => if negb (n_eqb NW d (n_zero NW)) then d else first_nonzero ds'
  end.

Definition count_diffs (p other : VertexInfo V W) : list W :=
  zip_with (fun a b => castVW (n_sub NV a b))
    (_borderSPCount p) (_borderSPCount other).

Definition length_diffs (p other : VertexInfo V W) : list W :=
  zip_with (n_sub NW) (_borderSPLength p) (_borderSPLength other).

(** The comparison as the specification words it: one pass over all the
    count differences and, only when every count ties, one pass over the
    length differences. *)
Definition compare_two_pass (p other : VertexInfo V W) : W :=
  if negb (n_eqb NW (first_nonzero (count_diffs p other)) (n_zero NW))
  then first_nonzero (count_diffs p other)
  else first_nonzero (length_diffs p other).

(** The differences in the order [compare] visits them: count and length
    of index 0, count and length of index 1, and so on. *)
Fixpoint interleave (cs ls : list W) : list W :=
  match cs, ls with
  | c :: cs', l :: ls' => c :: l :: interleave cs' ls'
  | _, _ => []
  end.

(** The squared distance as the specification words it: every entry of
    both profiles is converted to [W] ([castNW], [castEW] for the other
    profile), and the subtractions and squares are those of [W]. *)
Definition squaredDistance_in_W {N E : Type}
    (castNW : N -> W) (castEW : E -> W)
    (p : VertexInfo V W) (other : VertexInfo N E) : W :=
  fold_left (n_add NW)
    (zip_with (fun t u => n_add NW t u)
       (zip_with (fun x y => n_mul NW (n_sub NW x (castEW y)) (n_sub NW x (castEW y)))
          (_borderSPLength p) (_borderSPLength other))
       (zip_with (fun a b => n_mul NW (n_sub NW (castVW a) (castNW b))
                                      (n_sub NW (castVW a) (castNW b)))
          (_borderSPCount p) (_borderSPCount other)))
    (n_zero NW).

End VertexInfoSpec.

(** The terms [squaredDistance] accumulates, in the order of the loop:
    at every index the square, in [double], of the length difference taken
    in [W], then the square, in [double], of the count difference taken in
    [V] against the count of [other] cast to [V]. *)
Definition squaredDistance_terms {V W N E : Type}
    (NV : numeric V) (NW : numeric W) (PD : promotion V W)
    (castNV : N -> V) (castEW : E -> W)
    (p : VertexInfo V W) (other : VertexInfo N E) : list (p_double PD) :=
  interleave
    (zip_with (fun x y => pow2 PD (W_to_double PD (n_sub NW x (castEW y))))
       (_borderSPLength p) (_borderSPLength other))
    (zip_with (fun a b => pow2 PD (V_to_double PD (n_sub NV a (castNV b))))
       (_borderSPCount p) (_borderSPCount other)).

(** The first [n] entries of a profile, as a profile of width [n]. *)
Definition truncate {V W : Type} (n : Z) (q : VertexInfo V W)
    : VertexInfo V W :=
  mkVertexInfo n
    (take (Z.to_nat n) (_borderSPLength q))
    (take (Z.to_nat n) (_borderSPCount q)).

(** ** Laws of the arithmetic *)

(** What the comparison needs of the arithmetic: [==] against zero decides
    equality with zero, a difference is the opposite of the reversed
    difference (for lengths, and for counts once converted to [W]), the
    difference of a value with itself is zero, and only zero has the
    opposite zero. *)
Record difference_laws {V W : Type}
    (NV : numeric V) (NW : numeric W) (castVW : V -> W) : Prop := {
  eqb_zero : forall d, n_eqb NW d (n_zero NW) = true <-> d = n_zero NW;
  opp_zero : forall d, n_opp NW d = n_zero NW <-> d = n_zero NW;
  length_sub_opp : forall x y, n_sub NW x y = n_opp NW (n_sub NW y x);
  count_sub_opp :
    forall a b, castVW (n_sub NV a b) = n_opp NW (castVW (n_sub NV b a));
  length_sub_diag : forall x, n_sub NW x x = n_zero NW;
  count_sub_diag : forall a, castVW (n_sub NV a a) = n_zero NW
}.

(** What normalisation needs of the distance type: [<] is a strict total
    order, subtracting a value from one that is not below it gives a
    result that is not below zero, [x - x] is zero and [x - 0] is [x]. *)
Record order_laws {W : Type} (NW : numeric W) : Prop := {
  ltb_irrefl : forall x, n_ltb NW x x = false;
  ltb_trans :
    forall x y z, n_ltb NW x y = true -> n_ltb NW y z = true ->
                  n_ltb NW x z = true;
  ltb_total :
    forall x y, n_ltb NW x y = false -> n_ltb NW y x = false -> x = y;
  sub_not_below_zero :
    forall x m, n_ltb NW x m = false ->
                n_ltb NW (n_sub NW x m) (n_zero NW) = false;
  sub_diag : forall x, n_sub NW x x = n_zero NW;
  sub_zero_r : forall x, n_sub NW x (n_zero NW) = x
}.

(** ** LouvainEvaluator *)

(** Modelled from the spec: the [Community] class, which is not part of
    the sources at hand; it is constructed from a graph reference and
    exposes [add(vertexId)].  A community object is the list of the vertex
    ids handed to its [add] member, oldest first. *)
Definition Community : Type := list Z.

Definition Community_add (c : Community) (v : Z) : Community := c ++ [v].

(** [int parallelism = 4]. *)
Definition parallelism : Z := 4.

(** [renumber_communities(comms, n2c)]: its three loops.  The first
    counts up the entry [renumber[c]] for every community [c] some node of
    [n2c] is assigned to. *)
Definition renumber_mark_step (n2c : list Z) (node : Z) (renumber : list Z)
    : outcome (list Z) :=
  c ← vec_get n2c node;
  x ← vec_get renumber c;
  vec_set renumber c (x + 1).

Definition renumber_marks (n2c : list Z) : outcome (list Z) :=
  for_range (Z.of_nat (length n2c))
    (renumber_mark_step n2c)
    (replicate (length n2c) (-1)).

(** The second numbers the entries other than -1 from 0 on. *)
Definition renumber_dense_step (i : Z) (st : list Z * Z)
    : outcome (list Z * Z) :=
  let '(renumber, final) := st in
  x ← vec_get renumber i;
  if negb (x =? -1) then
    r ← vec_set renumber i final;
    Ok (r, final + 1)
  else Ok (renumber, final).

Definition renumber_dense (n2c : list Z) (renumber : list Z)
    : outcome (list Z * Z) :=
  for_range (Z.of_nat (length n2c)) renumber_dense_step (renumber, 0).

(** The third sends every entry of [comms] through [n2c] and the new
    numbering. *)
Definition renumber_apply_step (n2c renumber : list Z) (i : Z)
    (comms : list Z) : outcome (list Z) :=
  old_community ← vec_get comms i;
  new_community ← vec_get n2c old_community;
  new_renumbered_community ← vec_get renumber new_community;
  vec_set comms i new_renumbered_community.

(** The updated [comms] is returned. *)
Definition renumber_communities (comms n2c : list Z) : outcome (list Z) :=
  marks ← renumber_marks n2c;
  st ← renumber_dense n2c marks;
  for_range (Z.of_nat (length comms))
    (renumber_apply_step n2c (fst st)) comms.

(** The number of communities below [c] that some node of [n2c] is
    assigned to: the new number of [c], if [c] is one of them. *)
Definition dense_rank (n2c : list Z) (c : Z) : Z :=
  Z.of_nat (length (filter (fun j => j ∈ n2c) (seqZ 0 c))).

(** The ids of a node-to-community vector are dense: they are exactly the
    integers from 0 to [k - 1]. *)
Definition dense_ids (n2c : list Z) (k : Z) : Prop :=
  forall c, c ∈ n2c <-> 0 <= c < k.

(** The entries of a node-to-community vector are indices of the vector. *)
Definition ids_in_range (n2c : list Z) : Prop :=
  forall c, c ∈ n2c -> 0 <= c < Z.of_nat (length n2c).

(** The first loop after [k] nodes: an entry is -1 exactly when none of
    the first [k] nodes is assigned to its index. *)
Definition marks_invariant (n2c : list Z) (k : nat) (renumber : list Z)
    : Prop :=
  length renumber = length n2c /\
  forall c, (c < length n2c)%nat ->
    exists x, renumber !! c = Some x /\ -1 <= x /\
              (x = -1 <-> Z.of_nat c ∉ take k n2c).

(** The new number of community [c], or -1 when no node is assigned to
    it. *)
Definition renumbered (n2c : list Z) (c : Z) : Z :=
  if decide (c ∈ n2c) then dense_rank n2c c else -1.

(** The second loop after [i] entries: the entries below [i] hold their
    new numbers, the others are as the first loop left them, and [final]
    is the next number to hand out. *)
Definition dense_invariant (n2c marks : list Z) (i : nat)
    (st : list Z * Z) : Prop :=
  length st.1 = length n2c /\
  st.2 = dense_rank n2c (Z.of_nat i) /\
  (forall c, (c < i)%nat -> st.1 !! c = Some (renumbered n2c (Z.of_nat c))) /\
  (forall c, (i <= c)%nat -> st.1 !! c = marks !! c).

(** [build_result(n2c, g)]; the graph every community refers to plays no
    part in the membership and is left out.  The first loop finds the
    largest id, starting from 0. *)
Definition max_id_step (n2c : list Z) (i : Z) (max : Z) : outcome Z :=
  x ← vec_get n2c i;
  Ok (if x >? max then x else max).

Definition build_result_step (n2c : list Z) (i : Z) (r : list Community)
    : outcome (list Community) :=
  c ← vec_get n2c i;
  comm ← vec_get r c;
  vec_set r c (Community_add comm i).

Definition build_result (n2c : list Z) : outcome (list Community) :=
  max ← for_range (Z.of_nat (length n2c)) (max_id_step n2c) 0;
  for_range (Z.of_nat (length n2c))
    (build_result_step n2c)
    (replicate (Z.to_nat (max + 1)) ([] : Community)).

(** The largest of 0 and the ids. *)
Definition max_id (n2c : list Z) : Z :=
  fold_left (fun max x => if x >? max then x else max) n2c 0.

(** The vertices below [k] assigned to community [c], in ascending order,
    and all the vertices assigned to it. *)
Definition members_below (n2c : list Z) (k : Z) (c : Z) : list Z :=
  filter (fun v => n2c !! Z.to_nat v = Some c) (seqZ 0 k).

Definition members (n2c : list Z) (c : Z) : list Z :=
  members_below n2c (Z.of_nat (length n2c)) c.

(** The collaborators of the evaluator: the graph of the current level
    ([LouvainGraph]) with its number of nodes, the modularity values
    ([double], with the value [0.0] and [>]), and [Partition] with the
    members the evaluator calls.  [one_level] moves nodes in an order drawn
    from hidden state; the level and the index of the attempt stand for
    that state. *)
Class Collaborators : Type := {
  Graph : Type;
  nb_nodes : Graph -> Z;
  D : Type;
  D_zero : D;
  gtb : D -> D -> bool;
  Partition : Type;
  Partition_new : Graph -> Partition;
  one_level : Z -> Z -> Partition -> bool * Partition;
  modularity : Partition -> D;
  partition2graph : Partition -> Graph;
  Partition_n2c : Partition -> list Z
}.

Section LouvainDefs.

Context `{Env : Collaborators}.

(** The scan for the best attempt. *)
Definition select_best_step (modularities : list D) (i best_i : Z)
    : outcome Z :=
  m ← vec_get modularities i;
  b ← vec_get modularities best_i;
  Ok (if gtb m b then i else best_i).

Definition select_best (modularities : list D) : outcome Z :=
  for_loop (Z.to_nat (parallelism - 1)) 1
    (select_best_step modularities) 0.

(** The parallel loop over the attempts of one level: every attempt writes
    its own slots of [p], [improvements] and [modularities]. *)
Definition run_attempts_step (level : Z) (i : Z)
    (st : list Partition * list bool * list D)
    : outcome (list Partition * list bool * list D) :=
  let '(p, improvements, modularities) := st in
  pi ← vec_get p i;
  let '(improved, pi') := one_level level i pi in
  p' ← vec_set p i pi';
  improvements' ← vec_set improvements i improved;
  modularities' ← vec_set modularities i (modularity pi');
  Ok (p', improvements', modularities').

Definition run_attempts (level : Z)
    (st : list Partition * list bool * list D)
    : outcome (list Partition * list bool * list D) :=
  for_range parallelism (run_attempts_step level) st.

(** The state that lives across the levels of [evaluateGraph]. *)
Record eval_state : Type := mkEvalState {
  st_g : Graph;
  st_p : list Partition;
  st_n2c : list Z;
  st_improvements : list bool;
  st_modularities : list D;
  st_level : Z
}.

(** One pass through the body of the [do ... while] loop; the flag is
    [improvement], the loop condition. *)
Definition level_body (s : eval_state) : outcome (bool * eval_state) :=
  r ← run_attempts (st_level s) (st_p s, st_improvements s, st_modularities s);
  let '(p, improvements, modularities) := r in
  best_i ← select_best modularities;
  improvement ← vec_get improvements best_i;
  winner ← vec_get p best_i;
  let g := partition2graph winner in
  n2c ← renumber_communities (st_n2c s) (Partition_n2c winner);
  let p := replicate (Z.to_nat parallelism) (Partition_new g) in
  Ok (improvement,
      mkEvalState g p n2c improvements modularities (st_level s + 1)).

(** The [do ... while (improvement)] loop.  [None] is returned when the
    loop is still running after [fuel] passes. *)
Fixpoint level_loop (fuel : nat) (s : eval_state)
    : option (outcome eval_state) :=
  match fuel with
  | O => None
  | S fuel' =>
      match level_body s with
      | Ok (improvement, s') =>
          if improvement then level_loop fuel' s' else Some (Ok s')
      | OutOfRange => Some OutOfRange
      | Undefined => Some Undefined
      | NoQuotient => Some NoQuotient
      end
  end.

Definition initial_state (g : Graph) : eval_state :=
  mkEvalState g
    (replicate (Z.to_nat parallelism) (Partition_new g))
    (seqZ 0 (nb_nodes g))
    (replicate (Z.to_nat parallelism) true)
    (replicate (Z.to_nat parallelism) D_zero)
    0.

(** The loop of [evaluateGraph] on the graph [g] built from its argument:
    the state the loop ends in. *)
Definition evaluate_levels (fuel : nat) (g : Graph)
    : option (outcome eval_state) :=
  level_loop fuel (initial_state g).

(** [evaluateGraph]: the communities returned. *)
Definition evaluateGraph (fuel : nat) (g : Graph)
    : option (outcome (list Community)) :=
  match evaluate_levels fuel g with
  | None => None
  | Some r => Some (s ← r; build_result (st_n2c s))
  end.

(** [n] passes of the loop body in a row, each of which reported an
    improvement, lead from the first state to the second. *)
Inductive improving : nat -> eval_state -> eval_state -> Prop :=
| improving_O (s : eval_state) : improving O s s
| improving_S (n : nat) (s s' s'' : eval_state) :
    level_body s = Ok (true, s') ->
    improving n s' s'' ->
    improving (S n) s s''.

(** The states the loop passes through from a given state, whatever the
    flags. *)
Inductive reachable : eval_state -> eval_state -> Prop :=
| reachable_here (s : eval_state) : reachable s s
| reachable_level (s s' s'' : eval_state) (improvement : bool) :
    reachable s s' ->
    level_body s' = Ok (improvement, s'') ->
    reachable s s''.

(** What attempt [i] of the level that starts in state [s] reports, and
    the partition it leaves. *)
Definition attempt (s : eval_state) (i : Z) : bool * Partition :=
  one_level (st_level s) i (Partition_new (st_g s)).

(** The order of the modularity values: [>] is a strict order in which
    two values neither of which is above the other compare alike against
    every third value (the order of the numbers other than NaN). *)
Record modularity_order : Prop := {
  gtb_irrefl : forall x, gtb x x = false;
  gtb_trans :
    forall x y z, gtb x y = true -> gtb y z = true -> gtb x z = true;
  gtb_above_not_below :
    forall x y z, gtb x y = true -> gtb z y = false -> gtb x z = true
}.

(** Modelled from the spec: the contract of the [Partition] class and of
    the graph it aggregates, which are not part of the sources at hand.
    A graph has a number of nodes; after [one_level] on a partition made
    for a graph, the assignment [n2c] has one entry per node of that
    graph, each the id of a node of that graph; and the aggregated graph
    has one node for every community some node is assigned to. *)
Record partition_contract : Prop := {
  nb_nodes_nonneg : forall g, 0 <= nb_nodes g;
  n2c_length :
    forall g level i,
      Z.of_nat (length (Partition_n2c (one_level level i (Partition_new g)).2))
      = nb_nodes g;
  n2c_range :
    forall g level i c,
      c ∈ Partition_n2c (one_level level i (Partition_new g)).2 ->
      0 <= c < nb_nodes g;
  aggregated_nodes :
    forall g level i,
      nb_nodes (partition2graph (one_level level i (Partition_new g)).2) =
      Z.of_nat
        (length
           (remove_dups
              (Partition_n2c (one_level level i (Partition_new g)).2)))
}.

(** What the loop maintains: the partitions of the next level are fresh
    ones for the current graph, the two result vectors have one slot per
    attempt, and the ids in [n2c] are exactly the nodes of the current
    graph. *)
Record level_invariant (s : eval_state) : Prop := {
  inv_p : st_p s = replicate (Z.to_nat parallelism) (Partition_new (st_g s));
  inv_improvements :
    length (st_improvements s) = Z.to_nat parallelism;
  inv_modularities :
    length (st_modularities s) = Z.to_nat parallelism;
  inv_dense : dense_ids (st_n2c s) (nb_nodes (st_g s))
}.

End LouvainDefs.

(** ** Collaborators for complete graphs *)

(** An instance of the collaborators.  A graph is a complete graph, given
    by its number of nodes.  On a complete graph of two or more nodes
    [one_level] gathers all the nodes in community 0, reports an
    improvement and a modularity of 1; on a smaller graph it leaves every
    node in a community of its own and reports no improvement.  A
    partition is the number of nodes of its graph and the flag that says
    whether the nodes have been gathered. *)
Definition complete_graphs : Collaborators := {|
  Graph := nat;
  nb_nodes := Z.of_nat;
  D := Z;
  D_zero := 0;
  gtb := Z.gtb;
  Partition := nat * bool;
  Partition_new := fun g => (g, false);
  one_level := fun _ _ p => ((1 <? p.1)%nat, (p.1, (1 <? p.1)%nat));
  modularity := fun p => if p.2 then 1 else 0;
  partition2graph := fun p => if p.2 then 1%nat else p.1;
  Partition_n2c :=
    fun p => if p.2 then replicate p.1 0 else seqZ 0 (Z.of_nat p.1)
|}.

(** The complete graph on three nodes, and the graph of one node. *)
Definition triangle : @Graph complete_graphs := 3%nat.

Definition single_node : @Graph complete_graphs := 1%nat.

(** The graph without nodes. *)
Definition empty_graph : @Graph complete_graphs := 0%nat.

(** ** Concrete profiles *)

(** The zero profile of width 2 over the integers. *)
Definition profile_0_0 : VertexInfo Z Z :=
  VertexInfo_new Z_numeric Z_numeric 2.

(** Lengths (5, 0) and counts (0, 1): against [profile_0_0] the lengths
    differ at index 0 and the counts at index 1. *)
Definition profile_length_then_count : VertexInfo Z Z :=
  mkVertexInfo 2 [5; 0] [0; 1].

Definition profile_7_4_9 : VertexInfo Z Z :=
  mkVertexInfo 3 [7; 4; 9] [1; 2; 3].

Definition profile_wide : VertexInfo Z Z :=
  mkVertexInfo 3 [10; 20; 30] [1; 1; 1].

(** The profile of width 0. *)
Definition profile_empty : VertexInfo Z Z := mkVertexInfo 0 [] [].

(** Two profiles of width 1 and length 0: a [VertexInfo<int, double>]
    with the count 0 and a [VertexInfo<double, double>] with the count
    one half. *)
Definition int_count_0 : VertexInfo Z float :=
  mkVertexInfo 1 [0%float] [0].

Definition double_count_half : VertexInfo float float :=
  mkVertexInfo 1 [0%float] [0.5%float].

(** Two [VertexInfo<double, int>] of width 1 and length 0, with the
    counts one and a half and zero. *)
Definition double_count_3_2 : VertexInfo float Z :=
  mkVertexInfo 1 [0] [1.5%float].

Definition double_count_0 : VertexInfo float Z :=
  mkVertexInfo 1 [0] [0%float].

(** A [VertexInfo<int, double>] of width 1 whose border is not reachable:
    the length is infinite. *)
Definition length_infinite : VertexInfo Z float :=
  mkVertexInfo 1 [infinity] [0].

(** Two [VertexInfo<unsigned, double>] of width 1 and length 0, with the
    counts 0 and 1. *)
Definition unsigned_count_0 : VertexInfo Z float :=
  mkVertexInfo 1 [0%float] [0].

Definition unsigned_count_1 : VertexInfo Z float :=
  mkVertexInfo 1 [0%float] [1].

(** Two [VertexInfo<int, double>] of width 3 with finite lengths. *)
Definition profile_halves : VertexInfo Z float :=
  mkVertexInfo 3 [1.5%float; 0.5%float; 1%float] [1; 2; 3].

Definition profile_halves_swapped : VertexInfo Z float :=
  mkVertexInfo 3 [1.5%float; 1%float; 0.5%float] [1; 2; 3].

(** A [VertexInfo<int, int>] of width 2 whose lengths are the largest
    [int] and -1. *)
Definition profile_int_extremes : VertexInfo Z Z :=
  mkVertexInfo 2 [2147483647; -1] [0; 0].

(** ** Further members of VertexInfo *)

(** [std::vector<T>::resize(n)]: the first [n] elements, filled up with
    value-initialised ones. *)
Definition vec_resize {A : Type} (zero : A) (v : list A) (n : Z) : list A :=
  take (Z.to_nat n) v ++ replicate (Z.to_nat n - length v) zero.

(** What a compound assignment [x op= num] computes for [x] of type [X]
    and a scalar [num] of type [T]; the quotient is [None] where [X] has no
    value for it. *)
Record mixed (X T : Type) : Type := mkMixed {
  x_add : X -> T -> X;
  x_sub : X -> T -> X;
  x_mul : X -> T -> X;
  x_div : X -> T -> option X
}.

Arguments x_add {X T} _ _ _.
Arguments x_sub {X T} _ _ _.
Arguments x_mul {X T} _ _ _.
Arguments x_div {X T} _ _ _.

(** The scalar arithmetic of a numeric type on itself. *)
Definition self_mixed {T : Type} (NT : numeric T) : mixed T T :=
  mkMixed T T (n_add NT) (n_sub NT) (n_mul NT) (n_div NT).

(** What the loop of the scalar [operator*=] uses of its index, which is
    declared with the count type: [V i = 0], [++i], [i < _borderCount] and
    the conversion of [i] to the index [operator[]] takes. *)
Record index_type (V : Type) : Type := mkIndexType {
  i_zero : V;
  i_succ : V -> V;
  i_ltb : V -> Z -> bool;
  i_index : V -> Z
}.

Arguments i_zero {V} _.
Arguments i_succ {V} _ _.
Arguments i_ltb {V} _ _ _.
Arguments i_index {V} _ _.

(** [int] as the index type. *)
Definition Z_index : index_type Z := mkIndexType Z 0 Z.succ Z.ltb id.

Section VertexInfoMore.

Context {V W : Type}.
Variable NV : numeric V.
Variable NW : numeric W.

(** [VertexInfo(int borderCount)] as a call: the vector constructors throw
    on a negative size, which [None] records. *)
Definition construct (borderCount : Z) : option (VertexInfo V W) :=
  if borderCount <? 0 then None else Some (VertexInfo_new NV NW borderCount).

Section Conversion.

Context {N E : Type}.
Variable castNV : N -> V.
Variable castEW : E -> W.

(** The loop shared by the converting constructor and [operator=]. *)
Definition convert_step (other : VertexInfo N E) (i : Z)
    (q : VertexInfo V W) : outcome (VertexInfo V W) :=
  y ← vec_get (_borderSPLength other) i;
  l ← vec_set (_borderSPLength q) i (castEW y);
  b ← vec_get (_borderSPCount other) i;
  c ← vec_set (_borderSPCount q) i (castNV b);
  Ok (mkVertexInfo (_borderCount q) l c).

(** [VertexInfo(const VertexInfo<N, E>& copy)]. *)
Definition VertexInfo_copy (copy : VertexInfo N E)
    : option (outcome (VertexInfo V W)) :=
  match construct (_borderCount copy) with
  | None => None
  | Some fresh =>
      Some (for_range (_borderCount fresh) (convert_step copy) fresh)
  end.

(** [operator=(const VertexInfo<N, E>& other)]; [None] when [resize]
    throws. *)
Definition assign (p : VertexInfo V W) (other : VertexInfo N E)
    : option (outcome (VertexInfo V W)) :=
  if negb (_borderCount p =? _borderCount other) then
    if _borderCount other <? 0 then None
    else
      let resized :=
        mkVertexInfo (_borderCount other)
          (vec_resize (n_zero NW) (_borderSPLength p) (_borderCount other))
          (vec_resize (n_zero NV) (_borderSPCount p) (_borderCount other)) in
      Some (for_range (_borderCount resized) (convert_step other) resized)
  else Some (for_range (_borderCount p) (convert_step other) p).

(** The profile over [V], [W] with the entries of [other] converted. *)
Definition converted (other : VertexInfo N E) : VertexInfo V W :=
  mkVertexInfo (_borderCount other)
    (castEW <$> _borderSPLength other) (castNV <$> _borderSPCount other).

End Conversion.

Section Scalar.

Context {T : Type}.
Variable MW : mixed W T.
Variable MV : mixed V T.

(** The loop body shared by the compound assignments with a scalar: the
    length and then the count at the index are combined with [num]. *)
Definition scalar_step
    (opW : W -> T -> option W) (opV : V -> T -> option V)
    (num : T) (i : Z) (q : VertexInfo V W) : outcome (VertexInfo V W) :=
  x ← vec_get (_borderSPLength q) i;
  match opW x num with
  | None => NoQuotient
  | Some z =>
      l ← vec_set (_borderSPLength q) i z;
      a ← vec_get (_borderSPCount q) i;
      match opV a num with
      | None => NoQuotient
      | Some d =>
          c ← vec_set (_borderSPCount q) i d;
          Ok (mkVertexInfo (_borderCount q) l c)
      end
  end.

Definition scalar_elementwise
    (opW : W -> T -> option W) (opV : V -> T -> option V)
    (p : VertexInfo V W) (num : T) : outcome (VertexInfo V W) :=
  for_range (_borderCount p) (scalar_step opW opV num) p.

Definition always {X : Type} (f : X -> T -> X) : X -> T -> option X :=
  fun x num => Some (f x num).

(** [operator+=(T num)], [operator-=(T num)], [operator/=(T num)]. *)
Definition add_assign_scalar : VertexInfo V W -> T -> outcome (VertexInfo V W) :=
  scalar_elementwise (always (x_add MW)) (always (x_add MV)).

Definition sub_assign_scalar : VertexInfo V W -> T -> outcome (VertexInfo V W) :=
  scalar_elementwise (always (x_sub MW)) (always (x_sub MV)).

Definition div_assign_scalar : VertexInfo V W -> T -> outcome (VertexInfo V W) :=
  scalar_elementwise (x_div MW) (x_div MV).

(** [operator*=(T num)]: its loop, [for (V i = 0; i < _borderCount; ++i)],
    tests and advances an index of type [V].  [None] is returned when the
    loop is still running after [fuel] iterations.  This is the loop as
    written, for an index type whose values count up to the width
    ([index_laws]); the [omp simd] directive on the loop does not change
    what such a loop computes.  For an index whose values wrap before
    they reach the width the directive fixes another iteration count, and
    the loop as written does not stand for the code. *)
Variable IV : index_type V.

Fixpoint mul_assign_scalar_loop (fuel : nat) (i : V) (num : T)
    (q : VertexInfo V W) : option (outcome (VertexInfo V W)) :=
  match fuel with
  | O => None
  | S fuel' =>
      if i_ltb IV i (_borderCount q) then
        match scalar_step (always (x_mul MW)) (always (x_mul MV)) num
                (i_index IV i) q with
        | Ok q' => mul_assign_scalar_loop fuel' (i_succ IV i) num q'
        | failure => Some failure
        end
      else Some (Ok q)
  end.

Definition mul_assign_scalar (fuel : nat) (p : VertexInfo V W) (num : T)
    : option (outcome (VertexInfo V W)) :=
  mul_assign_scalar_loop fuel (i_zero IV) num p.

(** The binary operators with a scalar copy [*this] and apply the compound
    assignment to the copy. *)
Definition plus_scalar (p : VertexInfo V W) (num : T)
    : outcome (VertexInfo V W) :=
  let sum := p in add_assign_scalar sum num.

Definition minus_scalar (p : VertexInfo V W) (num : T)
    : outcome (VertexInfo V W) :=
  let sub := p in sub_assign_scalar sub num.

Definition times_scalar (fuel : nat) (p : VertexInfo V W) (num : T)
    : option (outcome (VertexInfo V W)) :=
  let mul := p in mul_assign_scalar fuel mul num.

Definition divide_scalar (p : VertexInfo V W) (num : T)
    : outcome (VertexInfo V W) :=
  let div := p in div_assign_scalar div num.

End Scalar.

End VertexInfoMore.

(** ** Further laws of the arithmetic *)

(** A difference is zero exactly when its operands are equal, for the
    lengths and for the counts once the difference is converted to [W]. *)
Record equality_laws {V W : Type}
    (NV : numeric V) (NW : numeric W) (castVW : V -> W) : Prop := {
  eq_eqb_zero : forall d, n_eqb NW d (n_zero NW) = true <-> d = n_zero NW;
  eq_length : forall x y, n_sub NW x y = n_zero NW <-> x = y;
  eq_count : forall a b, castVW (n_sub NV a b) = n_zero NW <-> a = b
}.

(** The opposite of a value is below zero exactly when the value is above
    zero, and above zero exactly when the value is below. *)
Record sign_laws {W : Type} (NW : numeric W) : Prop := {
  opp_below_zero :
    forall c, n_ltb NW (n_opp NW c) (n_zero NW) = n_ltb NW (n_zero NW) c;
  opp_above_zero :
    forall c, n_ltb NW (n_zero NW) (n_opp NW c) = n_ltb NW c (n_zero NW)
}.

(** Subtraction undoes addition. *)
Record cancel_laws {T : Type} (NT : numeric T) : Prop := {
  add_sub : forall x y, n_sub NT (n_add NT x y) y = x
}.

(** What normalisation needs of the lengths of a profile, for a set [S]
    of values of the distance type that holds them: on [S], [<] is a
    strict total order; subtracting from a value of [S] one of [S] that is
    not above it gives a value of [S] that is not below zero; [x - x] is
    zero and [x - 0] is [x]. *)
Record order_laws_on {W : Type} (NW : numeric W) (S : W -> Prop) : Prop := {
  on_ltb_irrefl : forall x, S x -> n_ltb NW x x = false;
  on_ltb_trans :
    forall x y z, S x -> S y -> S z ->
      n_ltb NW x y = true -> n_ltb NW y z = true -> n_ltb NW x z = true;
  on_ltb_total :
    forall x y, S x -> S y ->
      n_ltb NW x y = false -> n_ltb NW y x = false -> x = y;
  on_sub_closed :
    forall x m, S x -> S m -> n_ltb NW x m = false -> S (n_sub NW x m);
  on_sub_not_below_zero :
    forall x m, S x -> S m -> n_ltb NW x m = false ->
      n_ltb NW (n_sub NW x m) (n_zero NW) = false;
  on_sub_diag : forall x, S x -> n_sub NW x x = n_zero NW;
  on_sub_zero_r : forall x, S x -> n_sub NW x (n_zero NW) = x
}.

(** What the antisymmetry of the comparison needs of the counts and the
    lengths of two profiles, for sets [SV] and [SW] of values that hold
    them, with [==] the equality of [W]: zero equals zero and its own
    opposite; the difference of a value with itself equals zero; a
    difference equals zero exactly when the reversed difference does; and
    a difference that is not zero equals the opposite of the reversed
    difference.  For the counts the difference is taken in [V] and then
    converted to [W]. *)
Record difference_laws_on {V W : Type}
    (NV : numeric V) (NW : numeric W) (castVW : V -> W)
    (SV : V -> Prop) (SW : W -> Prop) : Prop := {
  on_zero_eqb : n_eqb NW (n_zero NW) (n_zero NW) = true;
  on_zero_opp : n_eqb NW (n_zero NW) (n_opp NW (n_zero NW)) = true;
  on_count_diag :
    forall a, SV a -> n_eqb NW (castVW (n_sub NV a a)) (n_zero NW) = true;
  on_length_diag :
    forall x, SW x -> n_eqb NW (n_sub NW x x) (n_zero NW) = true;
  on_count_zero :
    forall a b, SV a -> SV b ->
      n_eqb NW (castVW (n_sub NV a b)) (n_zero NW) =
      n_eqb NW (castVW (n_sub NV b a)) (n_zero NW);
  on_length_zero :
    forall x y, SW x -> SW y ->
      n_eqb NW (n_sub NW x y) (n_zero NW) =
      n_eqb NW (n_sub NW y x) (n_zero NW);
  on_count_opp :
    forall a b, SV a -> SV b ->
      n_eqb NW (castVW (n_sub NV b a)) (n_zero NW) = false ->
      n_eqb NW (castVW (n_sub NV a b))
               (n_opp NW (castVW (n_sub NV b a))) = true;
  on_length_opp :
    forall x y, SW x -> SW y ->
      n_eqb NW (n_sub NW y x) (n_zero NW) = false ->
      n_eqb NW (n_sub NW x y) (n_opp NW (n_sub NW y x)) = true
}.

(** What the squared distance of two profiles of one instantiation needs,
    for sets [SV] and [SW] of values that hold their counts and lengths:
    the difference of a value with itself is zero; an accumulator that is
    zero stays zero when the square of zero is added; and a difference
    and the reversed difference have the same square. *)
Record distance_laws_on {V W : Type}
    (NV : numeric V) (NW : numeric W) (PD : promotion V W)
    (SV : V -> Prop) (SW : W -> Prop) : Prop := {
  d_length_diag : forall x, SW x -> n_sub NW x x = n_zero NW;
  d_count_diag : forall a, SV a -> n_sub NV a a = n_zero NV;
  d_length_zero :
    accumulate PD (n_zero NW) (pow2 PD (W_to_double PD (n_zero NW))) =
    n_zero NW;
  d_count_zero :
    accumulate PD (n_zero NW) (pow2 PD (V_to_double PD (n_zero NV))) =
    n_zero NW;
  d_length_square :
    forall x y, SW x -> SW y ->
      pow2 PD (W_to_double PD (n_sub NW x y)) =
      pow2 PD (W_to_double PD (n_sub NW y x));
  d_count_square :
    forall a b, SV a -> SV b ->
      pow2 PD (V_to_double PD (n_sub NV a b)) =
      pow2 PD (V_to_double PD (n_sub NV b a))
}.

(** The index of the scalar [operator*=] counts the iterations faithfully
    up to [n]: after [k <= n] increments from [(V)0] it indexes entry [k],
    and it compares with [n] as [k] does. *)
Record index_laws {V : Type} (IV : index_type V) (n : Z) : Prop := {
  idx_index :
    forall k : nat, Z.of_nat k <= n ->
      i_index IV (Nat.iter k (i_succ IV) (i_zero IV)) = Z.of_nat k;
  idx_ltb :
    forall k : nat, Z.of_nat k <= n ->
      i_ltb IV (Nat.iter k (i_succ IV) (i_zero IV)) n = (Z.of_nat k <? n)
}.

(* ===================================================================== *)
(** * Part II: properties *)
(* ===================================================================== *)

(** ** Vectors and loops *)

Lemma bind_Ok {A B : Type} (a : A) (k : A -> outcome B) :
  (Ok a ≫= k) = k a.
Proof. reflexivity. Qed.

Lemma vec_get_lookup {A : Type} (v : list A) (i : nat) (x : A) :
  v !! i = Some x -> vec_get v (Z.of_nat i) = Ok x.
Proof.
  intros H. unfold vec_get.
  destruct (Z.ltb_spec (Z.of_nat i) 0) as [Hneg|_]; [lia|].
  now rewrite Nat2Z.id, H.
Qed.

Lemma vec_get_Ok {A : Type} (v : list A) (i : Z) (x : A) :
  vec_get v i = Ok x <-> 0 <= i /\ v !! Z.to_nat i = Some x.
Proof.
  unfold vec_get. destruct (Z.ltb_spec i 0) as [Hneg|Hpos].
  - split; [discriminate|lia].
  - destruct (v !! Z.to_nat i) as [y|]; split.
    + intros [= ->]. split; [lia|reflexivity].
    + intros [_ [= ->]]. reflexivity.
    + discriminate.
    + intros [_ H]. discriminate.
Qed.

Lemma vec_get_negative {A : Type} (v : list A) (i : Z) :
  i < 0 -> vec_get v i = Undefined.
Proof.
  intros H. unfold vec_get.
  destruct (Z.ltb_spec i 0); [reflexivity|lia].
Qed.

Lemma vec_set_negative {A : Type} (v : list A) (i : Z) (x : A) :
  i < 0 -> vec_set v i x = Undefined.
Proof.
  intros H. unfold vec_set.
  destruct (Z.ltb_spec i 0); [reflexivity|lia].
Qed.

Lemma vec_set_lt {A : Type} (v : list A) (i : nat) (x : A) :
  (i < length v)%nat -> vec_set v (Z.of_nat i) x = Ok (<[i := x]> v).
Proof.
  intros H. unfold vec_set.
  destruct (Z.ltb_spec (Z.of_nat i) 0) as [Hneg|_]; [lia|].
  rewrite Nat2Z.id.
  destruct (Nat.ltb_spec i (length v)); [reflexivity|lia].
Qed.

Lemma vec_get_Z {A : Type} (v : list A) (i : Z) (x : A) :
  0 <= i -> v !! Z.to_nat i = Some x -> vec_get v i = Ok x.
Proof. intros H0 H. now apply vec_get_Ok. Qed.

Lemma vec_set_Z {A : Type} (v : list A) (i : Z) (x : A) :
  0 <= i -> (Z.to_nat i < length v)%nat ->
  vec_set v i x = Ok (<[Z.to_nat i := x]> v).
Proof.
  intros H0 H. rewrite <- (Z2Nat.id i) at 1 by assumption.
  now apply vec_set_lt.
Qed.

Lemma lookup_unique {A : Type} (l : list A) (i : nat) (x y : A) :
  l !! i = Some x -> l !! i = Some y -> x = y.
Proof. congruence. Qed.

Lemma for_loop_S {S : Type} (n : nat) (i : nat)
    (body : Z -> S -> outcome S) (s : S) :
  for_loop (Datatypes.S n) (Z.of_nat i) body s =
  (body (Z.of_nat i) s ≫= for_loop n (Z.of_nat (Datatypes.S i)) body).
Proof.
  replace (Z.of_nat (Datatypes.S i)) with (Z.of_nat i + 1) by lia.
  reflexivity.
Qed.

(** ** Bounds-checked accessors *)

Section Accessors.

Context {V W : Type}.
Variable NV : numeric V.
Variable NW : numeric W.

(** An index at or above the width is answered by [std::out_of_range], and
    the profile is not touched (no updated profile is produced). *)
Lemma accessors_index_at_or_above_width
    (p : VertexInfo V W) (storeIndex : Z) (length : W) (count : V) :
  _borderCount p <= storeIndex ->
  setBorderSPLength p storeIndex length = OutOfRange /\
  getBorderSPLength p storeIndex = OutOfRange /\
  setBorderSPCount p storeIndex count = OutOfRange /\
  getBorderSPCount p storeIndex = OutOfRange.
Proof.
  intros H.
  unfold setBorderSPLength, getBorderSPLength, setBorderSPCount,
    getBorderSPCount.
  destruct (Z.ltb_spec storeIndex (_borderCount p)); [lia|]. auto.
Qed.

(** A negative index passes the only test the accessors make,
    [storeIndex < _borderCount], and reaches the unchecked [operator[]]. *)
Lemma accessors_negative_index
    (p : VertexInfo V W) (storeIndex : Z) (length : W) (count : V) :
  wf p -> storeIndex < 0 ->
  setBorderSPLength p storeIndex length = Undefined /\
  getBorderSPLength p storeIndex = Undefined /\
  setBorderSPCount p storeIndex count = Undefined /\
  getBorderSPCount p storeIndex = Undefined.
Proof.
  intros [Hl Hc] H.
  unfold setBorderSPLength, getBorderSPLength, setBorderSPCount,
    getBorderSPCount.
  destruct (Z.ltb_spec storeIndex (_borderCount p)); [|lia].
  rewrite !vec_get_negative, !vec_set_negative by assumption. auto.
Qed.

End Accessors.

(** C2: on a profile of width 2 the index -1 is not answered by the
    out-of-range error: the guard [storeIndex < _borderCount] lets it
    through to the unchecked vector access, for each of the four
    accessors; the indices 2 and 3 are answered by the error. *)
Theorem accessors_negative_index_unchecked :
  setBorderSPLength profile_0_0 (-1) 7 = Undefined /\
  getBorderSPLength profile_0_0 (-1) = Undefined /\
  setBorderSPCount profile_0_0 (-1) 7 = Undefined /\
  getBorderSPCount profile_0_0 (-1) = Undefined /\
  getBorderSPLength profile_0_0 2 = OutOfRange /\
  getBorderSPCount profile_0_0 3 = OutOfRange.
Proof. repeat split; reflexivity. Qed.

(** ** The comparison *)

Section Compare.

Context {V W : Type}.
Variable NV : numeric V.
Variable NW : numeric W.
Variable castVW : V -> W.

Lemma interleave_nil_r (cs : list W) : interleave cs [] = [].
Proof. destruct cs; reflexivity. Qed.

(** The loop of [compare] from index [i] on returns the first difference
    that is not zero among those it has yet to visit. *)
Lemma compare_loop_first_nonzero (n i : nat) (p q : VertexInfo V W) :
  length (_borderSPCount p) = (i + n)%nat ->
  length (_borderSPCount q) = (i + n)%nat ->
  length (_borderSPLength p) = (i + n)%nat ->
  length (_borderSPLength q) = (i + n)%nat ->
  compare_loop NV NW castVW n (Z.of_nat i) p q =
  Ok (first_nonzero NW
        (interleave
           (zip_with (fun a b => castVW (n_sub NV a b))
              (drop i (_borderSPCount p)) (drop i (_borderSPCount q)))
           (zip_with (n_sub NW)
              (drop i (_borderSPLength p)) (drop i (_borderSPLength q))))).
Proof.
  revert i. induction n as [|n IH]; intros i Hcp Hcq Hlp Hlq.
  - rewrite (drop_ge (_borderSPCount p)) by lia. reflexivity.
  - destruct (lookup_lt_is_Some_2 (_borderSPCount p) i) as [a Ha]; [lia|].
    destruct (lookup_lt_is_Some_2 (_borderSPCount q) i) as [b Hb]; [lia|].
    destruct (lookup_lt_is_Some_2 (_borderSPLength p) i) as [x Hx]; [lia|].
    destruct (lookup_lt_is_Some_2 (_borderSPLength q) i) as [y Hy]; [lia|].
    rewrite (drop_S _ _ _ Ha), (drop_S _ _ _ Hb), (drop_S _ _ _ Hx),
      (drop_S _ _ _ Hy).
    cbn [compare_loop zip_with interleave first_nonzero].
    rewrite (vec_get_lookup _ _ _ Ha), (vec_get_lookup _ _ _ Hb). cbn [mbind outcome_bind].
    destruct (negb (n_eqb NW (castVW (n_sub NV a b)) (n_zero NW)));
      [reflexivity|].
    rewrite (vec_get_lookup _ _ _ Hx), (vec_get_lookup _ _ _ Hy). cbn [mbind outcome_bind].
    destruct (negb (n_eqb NW (n_sub NW x y) (n_zero NW))); [reflexivity|].
    replace (Z.of_nat i + 1) with (Z.of_nat (S i)) by lia.
    apply IH; lia.
Qed.

Lemma compare_interleaved (p q : VertexInfo V W) :
  wf p -> wf q -> _borderCount p = _borderCount q ->
  compare NV NW castVW p q =
  Ok (first_nonzero NW
        (interleave (count_diffs NV castVW p q) (length_diffs NW p q))).
Proof.
  intros [Hlp Hcp] [Hlq Hcq] Heq. unfold compare, count_diffs, length_diffs.
  change 0 with (Z.of_nat 0).
  rewrite (compare_loop_first_nonzero _ 0 p q); [reflexivity|lia..].
Qed.

(** C1 (as amended): on two profiles of equal width, [compare] visits the
    differences index by index, at each index the count difference and
    then the length difference, and returns the first one that is not
    zero, or zero when there is none.  A count difference has priority
    over the length difference of the same index and over every difference
    of a later index, not over a length difference of an earlier index. *)
Theorem compare_first_nonzero_interleaved (p q : VertexInfo V W) :
  wf p -> wf q -> _borderCount p = _borderCount q ->
  compare NV NW castVW p q =
  Ok (first_nonzero NW
        (interleave (count_diffs NV castVW p q) (length_diffs NW p q))).
Proof. apply compare_interleaved. Qed.

End Compare.

(** ** Antisymmetry and reflexivity of the comparison *)

Section CompareAlgebra.

Context {V W : Type}.
Variable NV : numeric V.
Variable NW : numeric W.
Variable castVW : V -> W.
Hypothesis laws : difference_laws NV NW castVW.

Lemma first_nonzero_reversed (cp cq : list V) (lp lq : list W) :
  first_nonzero NW
    (interleave (zip_with (fun a b => castVW (n_sub NV a b)) cp cq)
                (zip_with (n_sub NW) lp lq)) =
  n_opp NW
    (first_nonzero NW
       (interleave (zip_with (fun a b => castVW (n_sub NV a b)) cq cp)
                   (zip_with (n_sub NW) lq lp))).
Proof.
  assert (Hz : n_zero NW = n_opp NW (n_zero NW))
    by (symmetry; now apply (opp_zero _ _ _ laws)).
  assert (Hflip : forall d e, d = n_opp NW e ->
            n_eqb NW d (n_zero NW) = n_eqb NW e (n_zero NW)).
  { intros d e ->.
    destruct (n_eqb NW e (n_zero NW)) eqn:He.
    - apply (eqb_zero _ _ _ laws). apply (opp_zero _ _ _ laws).
      now apply (eqb_zero _ _ _ laws).
    - destruct (n_eqb NW (n_opp NW e) (n_zero NW)) eqn:Hd; [|reflexivity].
      apply (proj1 (eqb_zero _ _ _ laws _)) in Hd.
      apply (proj1 (opp_zero _ _ _ laws _)) in Hd.
      assert (Ht : n_eqb NW e (n_zero NW) = true)
        by (apply (eqb_zero _ _ _ laws); exact Hd).
      congruence. }
  revert cq lp lq. induction cp as [|a cp IH]; intros cq lp lq.
  - destruct cq; exact Hz.
  - destruct cq as [|b cq]; [exact Hz|].
    destruct lp as [|x lp].
    { destruct lq; exact Hz. }
    destruct lq as [|y lq]; [exact Hz|].
    cbn [zip_with interleave first_nonzero].
    rewrite (Hflip _ _ (count_sub_opp _ _ _ laws a b)).
    destruct (negb (n_eqb NW (castVW (n_sub NV b a)) (n_zero NW)));
      [apply (count_sub_opp _ _ _ laws)|].
    rewrite (Hflip _ _ (length_sub_opp _ _ _ laws x y)).
    destruct (negb (n_eqb NW (n_sub NW y x) (n_zero NW)));
      [apply (length_sub_opp _ _ _ laws)|].
    apply IH.
Qed.

End CompareAlgebra.

Section CompareMirror.

Context {V W : Type}.
Variable NV : numeric V.
Variable NW : numeric W.
Variable castVW : V -> W.
Variable SV : V -> Prop.
Variable SW : W -> Prop.
Hypothesis laws : difference_laws_on NV NW castVW SV SW.

(** The first difference that is not zero, taken one way, equals the
    opposite of the one taken the other way. *)
Lemma first_nonzero_mirrored (cp cq : list V) (lp lq : list W) :
  Forall SV cp -> Forall SV cq -> Forall SW lp -> Forall SW lq ->
  n_eqb NW
    (first_nonzero NW
       (interleave (zip_with (fun a b => castVW (n_sub NV a b)) cp cq)
                   (zip_with (n_sub NW) lp lq)))
    (n_opp NW
       (first_nonzero NW
          (interleave (zip_with (fun a b => castVW (n_sub NV a b)) cq cp)
                      (zip_with (n_sub NW) lq lp)))) = true.
Proof.
  intros Hcp. revert cq lp lq.
  induction Hcp as [|a cp Ha Hcp IH]; intros cq lp lq Hcq Hlp Hlq.
  - destruct cq; apply (on_zero_opp _ _ _ _ _ laws).
  - destruct Hcq as [|b cq Hb Hcq]; [apply (on_zero_opp _ _ _ _ _ laws)|].
    destruct Hlp as [|x lp Hx Hlp].
    { destruct lq; apply (on_zero_opp _ _ _ _ _ laws). }
    destruct Hlq as [|y lq Hy Hlq]; [apply (on_zero_opp _ _ _ _ _ laws)|].
    cbn [zip_with interleave first_nonzero].
    rewrite (on_count_zero _ _ _ _ _ laws a b Ha Hb).
    destruct (n_eqb NW (castVW (n_sub NV b a)) (n_zero NW)) eqn:Ec;
      cbn [negb]; [|now apply (on_count_opp _ _ _ _ _ laws)].
    rewrite (on_length_zero _ _ _ _ _ laws x y Hx Hy).
    destruct (n_eqb NW (n_sub NW y x) (n_zero NW)) eqn:El;
      cbn [negb]; [|now apply (on_length_opp _ _ _ _ _ laws)].
    now apply IH.
Qed.

Lemma first_nonzero_diagonal (c : list V) (l : list W) :
  Forall SV c -> Forall SW l ->
  first_nonzero NW
    (interleave (zip_with (fun a b => castVW (n_sub NV a b)) c c)
                (zip_with (n_sub NW) l l)) = n_zero NW.
Proof.
  intros Hc. revert l. induction Hc as [|a c Ha Hc IH]; intros l Hl;
    [reflexivity|].
  destruct Hl as [|x l Hx Hl]; [reflexivity|].
  cbn [zip_with interleave first_nonzero].
  rewrite (on_count_diag _ _ _ _ _ laws a Ha),
    (on_length_diag _ _ _ _ _ laws x Hx).
  cbn [negb]. now apply IH.
Qed.

(** C8 (as amended): on two profiles of equal width whose counts lie in
    [SV] and whose lengths lie in [SW], sets of values on which the
    differences behave as [difference_laws_on] says, [p.compare(q)] equals
    the opposite of [q.compare(p)], with the equality [==] of [W]; and a
    profile compares equal to itself: [p.compare(p)] is zero and [p == p]
    holds. *)
Theorem compare_antisymmetric_reflexive (p q : VertexInfo V W) :
  wf p -> wf q -> _borderCount p = _borderCount q ->
  Forall SV (_borderSPCount p) -> Forall SW (_borderSPLength p) ->
  Forall SV (_borderSPCount q) -> Forall SW (_borderSPLength q) ->
  (exists c c',
     compare NV NW castVW q p = Ok c /\
     compare NV NW castVW p q = Ok c' /\
     n_eqb NW c' (n_opp NW c) = true) /\
  compare NV NW castVW p p = Ok (n_zero NW) /\
  op_eq NV NW castVW p p = Ok true.
Proof.
  intros Hp Hq Heq Hcp Hlp Hcq Hlq.
  assert (Hpp : compare NV NW castVW p p = Ok (n_zero NW)).
  { rewrite (compare_interleaved NV NW castVW p p Hp Hp eq_refl).
    unfold count_diffs, length_diffs. now rewrite first_nonzero_diagonal. }
  split; [|split].
  - eexists _, _. split; [|split].
    + apply (compare_interleaved NV NW castVW q p Hq Hp). now symmetry.
    + apply (compare_interleaved NV NW castVW p q Hp Hq Heq).
    + unfold count_diffs, length_diffs. now apply first_nonzero_mirrored.
  - exact Hpp.
  - unfold op_eq. rewrite Hpp. cbn [mbind outcome_bind]. f_equal.
    apply (on_zero_eqb _ _ _ _ _ laws).
Qed.

End CompareMirror.

(** ** Normalisation *)

Section Normalize.

Context {V W : Type}.
Variable NV : numeric V.
Variable NW : numeric W.

Lemma with_length_same (p : VertexInfo V W) :
  with_length p (_borderSPLength p) = p.
Proof. now destruct p. Qed.

(** The loop of [normalize], with [f] the subtraction of the minimum:
    from index [i] on, every length is replaced by its image under [f]. *)
Lemma normalize_loop (f : W -> W) (n i : nat) (p : VertexInfo V W) :
  length (_borderSPLength p) = (i + n)%nat ->
  for_loop n (Z.of_nat i)
    (fun j q =>
       x ← vec_get (_borderSPLength q) j;
       l ← vec_set (_borderSPLength q) j (f x);
       Ok (with_length q l)) p =
  Ok (with_length p
        (take i (_borderSPLength p) ++ (f <$> drop i (_borderSPLength p)))).
Proof.
  revert i p. induction n as [|n IH]; intros i p Hlen.
  - rewrite drop_ge, take_ge by lia. cbn [for_loop fmap list_fmap].
    now rewrite app_nil_r, with_length_same.
  - destruct (lookup_lt_is_Some_2 (_borderSPLength p) i) as [x Hx]; [lia|].
    rewrite for_loop_S, (vec_get_lookup _ _ _ Hx). cbn [mbind outcome_bind].
    rewrite vec_set_lt by lia. cbn [mbind outcome_bind].
    rewrite IH by (cbn; rewrite length_insert; lia).
    unfold with_length. cbn [_borderCount _borderSPLength _borderSPCount].
    f_equal. f_equal.
    rewrite (drop_S _ _ _ Hx), drop_insert_lt by lia.
    rewrite (take_S_r _ _ (f x))
      by (apply list_lookup_insert_eq; lia).
    rewrite take_insert_ge by lia.
    rewrite <- app_assoc. reflexivity.
Qed.

Lemma normalize_range (f : W -> W) (p : VertexInfo V W) :
  wf p ->
  for_range (_borderCount p)
    (fun j q =>
       x ← vec_get (_borderSPLength q) j;
       l ← vec_set (_borderSPLength q) j (f x);
       Ok (with_length q l)) p =
  Ok (with_length p (f <$> _borderSPLength p)).
Proof.
  intros [Hl _]. unfold for_range.
  apply (normalize_loop f (Z.to_nat (_borderCount p)) 0 p). lia.
Qed.

Lemma min_element_elem (x : W) (rest : list W) :
  min_element NW x rest ∈ x :: rest.
Proof.
  revert x. induction rest as [|y rest IH]; intros x.
  - cbn. apply list_elem_of_here.
  - cbn [min_element]. specialize (IH (if n_ltb NW y x then y else x)).
    apply elem_of_cons in IH as [IH|IH].
    + rewrite IH. destruct (n_ltb NW y x).
      * apply list_elem_of_further, list_elem_of_here.
      * apply list_elem_of_here.
    + now do 2 apply list_elem_of_further.
Qed.

Hypothesis laws : order_laws NW.

Lemma not_below_trans (x y z : W) :
  n_ltb NW x y = false -> n_ltb NW z y = true -> n_ltb NW x z = false.
Proof.
  intros Hxy Hzy. destruct (n_ltb NW x z) eqn:Hxz; [|reflexivity].
  rewrite (ltb_trans _ laws x z y Hxz Hzy) in Hxy. discriminate.
Qed.

Lemma min_element_least (x : W) (rest : list W) (y : W) :
  y ∈ x :: rest -> n_ltb NW y (min_element NW x rest) = false.
Proof.
  enough (H : forall acc seen,
             (forall y, y ∈ seen -> n_ltb NW y acc = false) ->
             forall y, y ∈ seen ++ rest ->
                       n_ltb NW y (min_element NW acc rest) = false).
  { intros Hy. apply (H x [x]); [|exact Hy].
    intros z Hz. apply list_elem_of_singleton in Hz as ->.
    apply (ltb_irrefl _ laws). }
  clear x y. induction rest as [|z rest IH]; intros acc seen Hseen y Hy.
  - rewrite app_nil_r in Hy. cbn. now apply Hseen.
  - cbn [min_element].
    apply (IH _ (seen ++ [z])); [|now rewrite <- app_assoc].
    intros w Hw. apply elem_of_app in Hw as [Hw|Hw].
    + destruct (n_ltb NW z acc) eqn:Hz; [|now apply Hseen].
      apply (not_below_trans w acc z); [now apply Hseen|exact Hz].
    + apply list_elem_of_singleton in Hw as ->.
      destruct (n_ltb NW z acc) eqn:Hz; [|exact Hz].
      apply (ltb_irrefl _ laws).
Qed.

Lemma getMinBorderSPLength_wf (p : VertexInfo V W) :
  wf p -> exists m, getMinBorderSPLength NW p = Ok m.
Proof.
  intros [Hl _]. unfold getMinBorderSPLength.
  destruct (Z.eqb_spec (_borderCount p) 0) as [_|Hbc]; [eauto|].
  destruct (_borderSPLength p); [cbn in Hl; lia|eauto].
Qed.

Lemma normalize_subtracts (p : VertexInfo V W) (m : W) :
  wf p -> getMinBorderSPLength NW p = Ok m ->
  normalize NW p =
  Ok (with_length p ((fun y => n_sub NW y m) <$> _borderSPLength p)).
Proof.
  intros Hwf Hm. unfold normalize. rewrite Hm. cbn [mbind outcome_bind].
  apply (normalize_range (fun y => n_sub NW y m) p Hwf).
Qed.

Lemma wf_with_length_fmap (p : VertexInfo V W) (f : W -> W) :
  wf p -> wf (with_length p (f <$> _borderSPLength p)).
Proof.
  intros [Hl Hc]. split; cbn; [rewrite length_fmap|]; assumption.
Qed.

End Normalize.

Section NormalizeOn.

Context {V W : Type}.
Variable NW : numeric W.
Variable S : W -> Prop.
Hypothesis laws : order_laws_on NW S.

Lemma not_below_trans_on (x y z : W) :
  S x -> S y -> S z ->
  n_ltb NW x y = false -> n_ltb NW z y = true -> n_ltb NW x z = false.
Proof.
  intros Sx Sy Sz Hxy Hzy. destruct (n_ltb NW x z) eqn:Hxz; [|reflexivity].
  rewrite (on_ltb_trans _ _ laws x z y Sx Sz Sy Hxz Hzy) in Hxy.
  discriminate.
Qed.

Lemma min_element_in (x : W) (rest : list W) :
  S x -> Forall S rest -> S (min_element NW x rest).
Proof.
  intros Sx Srest. revert x Sx.
  induction Srest as [|y rest Sy Srest IH]; intros x Sx; [exact Sx|].
  cbn [min_element]. apply IH. now destruct (n_ltb NW y x).
Qed.

Lemma min_element_least_on (x : W) (rest : list W) (y : W) :
  Forall S (x :: rest) ->
  y ∈ x :: rest -> n_ltb NW y (min_element NW x rest) = false.
Proof.
  intros Hall.
  enough (H : forall acc seen,
             S acc -> Forall S seen ->
             (forall y, y ∈ seen -> n_ltb NW y acc = false) ->
             forall y, y ∈ seen ++ rest ->
                       n_ltb NW y (min_element NW acc rest) = false).
  { intros Hy. apply Forall_cons in Hall as [Sx Srest].
    apply (H x [x] Sx); [now constructor| |exact Hy].
    intros z Hz. apply list_elem_of_singleton in Hz as ->.
    now apply (on_ltb_irrefl _ _ laws). }
  apply Forall_cons in Hall as [_ Srest]. clear x y.
  induction Srest as [|z rest Sz Srest IH]; intros acc seen Sacc Sseen Hseen y Hy.
  - rewrite app_nil_r in Hy. cbn. now apply Hseen.
  - cbn [min_element].
    apply (IH _ (seen ++ [z])).
    + now destruct (n_ltb NW z acc).
    + apply Forall_app. split; [exact Sseen|now constructor].
    + intros w Hw. apply elem_of_app in Hw as [Hw|Hw].
      * destruct (n_ltb NW z acc) eqn:Hz; [|now apply Hseen].
        apply (not_below_trans_on w acc z);
          [exact (proj1 (Forall_forall _ _) Sseen w Hw)|exact Sacc|exact Sz| |exact Hz].
        now apply Hseen.
      * apply list_elem_of_singleton in Hw as ->.
        destruct (n_ltb NW z acc) eqn:Hz; [|exact Hz].
        now apply (on_ltb_irrefl _ _ laws).
    + now rewrite <- app_assoc.
Qed.

(** After the minimum has been subtracted everywhere, the results are
    values of [S] and their minimum is zero. *)
Lemma min_element_normalized_on (x : W) (rest : list W) :
  Forall S (x :: rest) ->
  let m := min_element NW x rest in
  Forall S ((fun y => n_sub NW y m) <$> (x :: rest)) /\
  min_element NW (n_sub NW x m) ((fun y => n_sub NW y m) <$> rest) =
  n_zero NW.
Proof.
  intros Hall m.
  set (f := fun y => n_sub NW y m).
  assert (Sm : S m).
  { apply Forall_cons in Hall as [Sx Srest]. now apply min_element_in. }
  assert (Hleast : forall y, y ∈ x :: rest -> n_ltb NW y m = false)
    by (intros y Hy; now apply min_element_least_on).
  assert (Himg : Forall S (f <$> (x :: rest))).
  { apply Forall_fmap, Forall_forall. intros y Hy. cbn. unfold f.
    apply (on_sub_closed _ _ laws);
      [exact (proj1 (Forall_forall _ _) Hall y Hy)|exact Sm|now apply Hleast]. }
  split; [exact Himg|].
  assert (Hzero : n_zero NW ∈ f <$> (x :: rest)).
  { apply list_elem_of_fmap. exists m. split.
    - unfold f. symmetry. now apply (on_sub_diag _ _ laws).
    - apply min_element_elem. }
  pose proof (min_element_elem NW (f x) (f <$> rest)) as Hin.
  change (f x :: (f <$> rest)) with (f <$> (x :: rest)) in Hin.
  change (n_sub NW x m) with (f x).
  apply (on_ltb_total _ _ laws).
  - exact (proj1 (Forall_forall _ _) Himg _ Hin).
  - exact (proj1 (Forall_forall _ _) Himg _ Hzero).
  - apply list_elem_of_fmap in Hin as [y [Hy Hyin]].
    rewrite Hy. unfold f.
    apply (on_sub_not_below_zero _ _ laws);
      [exact (proj1 (Forall_forall _ _) Hall y Hyin)|exact Sm|now apply Hleast].
  - now apply (min_element_least_on (f x) (f <$> rest)).
Qed.


End NormalizeOn.

(** ** Loops in general *)

Lemma for_loop_ext {S : Type} (n i : nat)
    (body1 body2 : Z -> S -> outcome S) (s : S) :
  (forall j t, (i <= j < i + n)%nat ->
               body1 (Z.of_nat j) t = body2 (Z.of_nat j) t) ->
  for_loop n (Z.of_nat i) body1 s = for_loop n (Z.of_nat i) body2 s.
Proof.
  revert i s. induction n as [|n IH]; intros i s H; [reflexivity|].
  rewrite !for_loop_S, H by lia.
  destruct (body2 (Z.of_nat i) s); cbn [mbind outcome_bind]; try reflexivity.
  apply IH. intros j t Hj. apply H. lia.
Qed.

Lemma for_loop_invariant {S : Type} (P : S -> Prop) (n : nat) (i : Z)
    (body : Z -> S -> outcome S) (s s' : S) :
  (forall j t t', body j t = Ok t' -> P t -> P t') ->
  P s -> for_loop n i body s = Ok s' -> P s'.
Proof.
  intros Hbody. revert i s. induction n as [|n IH]; intros i s Hs.
  - cbn. now intros [= <-].
  - cbn [for_loop]. destruct (body i s) as [t| | |] eqn:Hb;
      cbn [mbind outcome_bind]; try discriminate.
    apply IH. now apply (Hbody i s t).
Qed.

Lemma vec_get_take {A : Type} (v : list A) (n j : nat) :
  (j < n)%nat -> vec_get (take n v) (Z.of_nat j) = vec_get v (Z.of_nat j).
Proof.
  intros H. unfold vec_get. rewrite Nat2Z.id.
  now rewrite lookup_take_lt by assumption.
Qed.

(** One more index done: the list lemma behind the elementwise loops. *)
Lemma zip_with_splice {A B : Type} (f : A -> B -> A)
    (ls : list A) (lo : list B) (i : nat) (x : A) (y : B) :
  ls !! i = Some x -> lo !! i = Some y ->
  take (S i) (<[i := f x y]> ls) ++
    zip_with f (drop (S i) (<[i := f x y]> ls)) (drop (S i) lo) =
  take i ls ++ zip_with f (drop i ls) (drop i lo).
Proof.
  intros Hx Hy. pose proof (lookup_lt_Some _ _ _ Hx) as Hlt.
  rewrite (drop_S _ _ _ Hx), (drop_S _ _ _ Hy), drop_insert_lt by lia.
  rewrite (take_S_r _ _ (f x y)) by (apply list_lookup_insert_eq; lia).
  rewrite take_insert_ge by lia.
  rewrite <- app_assoc. reflexivity.
Qed.

(** ** Elementwise arithmetic and the squared distance *)

Section Elementwise.

Context {V W : Type}.
Variable NV : numeric V.
Variable NW : numeric W.
Variable castVW : V -> W.

Lemma elementwise_step_total (fW : W -> W -> W) (fV : V -> V -> V)
    (i : nat) (s other : VertexInfo V W) (x y : W) (a b : V) :
  _borderSPLength s !! i = Some x -> _borderSPLength other !! i = Some y ->
  _borderSPCount s !! i = Some a -> _borderSPCount other !! i = Some b ->
  elementwise_step (total fW) (total fV) other (Z.of_nat i) s =
  Ok (mkVertexInfo (_borderCount s)
        (<[i := fW x y]> (_borderSPLength s))
        (<[i := fV a b]> (_borderSPCount s))).
Proof.
  intros Hx Hy Ha Hb. unfold elementwise_step.
  rewrite (vec_get_lookup _ _ _ Hx), (vec_get_lookup _ _ _ Hy).
  cbn [mbind outcome_bind total].
  rewrite vec_set_lt by (eapply lookup_lt_Some; eassumption).
  rewrite (vec_get_lookup _ _ _ Ha), (vec_get_lookup _ _ _ Hb).
  cbn [mbind outcome_bind].
  rewrite vec_set_lt by (eapply lookup_lt_Some; eassumption).
  reflexivity.
Qed.

Lemma elementwise_total_loop (fW : W -> W -> W) (fV : V -> V -> V)
    (n i : nat) (s other : VertexInfo V W) :
  length (_borderSPLength s) = (i + n)%nat ->
  length (_borderSPCount s) = (i + n)%nat ->
  (i + n <= length (_borderSPLength other))%nat ->
  (i + n <= length (_borderSPCount other))%nat ->
  for_loop n (Z.of_nat i)
    (elementwise_step (total fW) (total fV) other) s =
  Ok (mkVertexInfo (_borderCount s)
        (take i (_borderSPLength s) ++
         zip_with fW (drop i (_borderSPLength s))
                     (drop i (_borderSPLength other)))
        (take i (_borderSPCount s) ++
         zip_with fV (drop i (_borderSPCount s))
                     (drop i (_borderSPCount other)))).
Proof.
  revert i s. induction n as [|n IH]; intros i s Hl Hc Hlo Hco.
  - rewrite (drop_ge (_borderSPLength s)), (drop_ge (_borderSPCount s)),
      !take_ge by lia.
    cbn. rewrite !app_nil_r. now destruct s.
  - destruct (lookup_lt_is_Some_2 (_borderSPLength s) i) as [x Hx]; [lia|].
    destruct (lookup_lt_is_Some_2 (_borderSPLength other) i) as [y Hy];
      [lia|].
    destruct (lookup_lt_is_Some_2 (_borderSPCount s) i) as [a Ha]; [lia|].
    destruct (lookup_lt_is_Some_2 (_borderSPCount other) i) as [b Hb];
      [lia|].
    rewrite for_loop_S, (elementwise_step_total fW fV i s other x y a b)
      by assumption.
    cbn [mbind outcome_bind].
    rewrite IH by (cbn; rewrite ?length_insert; lia).
    cbn [_borderCount _borderSPLength _borderSPCount].
    now rewrite (zip_with_splice fW _ _ _ _ _ Hx Hy),
      (zip_with_splice fV _ _ _ _ _ Ha Hb).
Qed.

(** A compound assignment with a total operator succeeds when the other
    profile is at least as wide; its width-many first entries are
    combined with those of [p]. *)
Lemma elementwise_total (fW : W -> W -> W) (fV : V -> V -> V)
    (p q : VertexInfo V W) :
  wf p -> wf q -> _borderCount p <= _borderCount q ->
  elementwise (total fW) (total fV) p q =
  Ok (mkVertexInfo (_borderCount p)
        (zip_with fW (_borderSPLength p) (_borderSPLength q))
        (zip_with fV (_borderSPCount p) (_borderSPCount q))).
Proof.
  intros [Hlp Hcp] [Hlq Hcq] Hle. unfold elementwise, for_range.
  apply (elementwise_total_loop fW fV (Z.to_nat (_borderCount p)) 0 p q);
    lia.
Qed.

(** The entries of the other profile from index [_borderCount] of [this]
    on are never read. *)
Lemma elementwise_truncate
    (opW : W -> W -> option W) (opV : V -> V -> option V)
    (p q : VertexInfo V W) :
  elementwise opW opV p q =
  elementwise opW opV p (truncate (_borderCount p) q).
Proof.
  unfold elementwise, for_range.
  apply (for_loop_ext (Z.to_nat (_borderCount p)) 0).
  intros j t Hj. unfold elementwise_step, truncate.
  cbn [_borderSPLength _borderSPCount].
  now rewrite !vec_get_take by lia.
Qed.

Lemma elementwise_borderCount
    (opW : W -> W -> option W) (opV : V -> V -> option V)
    (p q r : VertexInfo V W) :
  elementwise opW opV p q = Ok r -> _borderCount r = _borderCount p.
Proof.
  unfold elementwise, for_range.
  apply (for_loop_invariant (fun t => _borderCount t = _borderCount p));
    [|reflexivity].
  intros j t t' Hstep Ht. unfold elementwise_step in Hstep.
  destruct (vec_get (_borderSPLength t) j); try discriminate.
  destruct (vec_get (_borderSPLength q) j); try discriminate.
  cbn [mbind outcome_bind] in Hstep.
  destruct (opW _ _); try discriminate.
  destruct (vec_set (_borderSPLength t) j _); try discriminate.
  destruct (vec_get (_borderSPCount t) j); try discriminate.
  destruct (vec_get (_borderSPCount q) j); try discriminate.
  cbn [mbind outcome_bind] in Hstep.
  destruct (opV _ _); try discriminate.
  destruct (vec_set (_borderSPCount t) j _); try discriminate.
  cbn [mbind outcome_bind] in Hstep. now injection Hstep as <-.
Qed.

Lemma elementwise_step_outcome
    (opW : W -> W -> option W) (opV : V -> V -> option V)
    (i : nat) (s other : VertexInfo V W) (x y : W) (a b : V) :
  _borderSPLength s !! i = Some x -> _borderSPLength other !! i = Some y ->
  _borderSPCount s !! i = Some a -> _borderSPCount other !! i = Some b ->
  elementwise_step opW opV other (Z.of_nat i) s =
  match opW x y, opV a b with
  | Some z, Some d =>
      Ok (mkVertexInfo (_borderCount s)
            (<[i := z]> (_borderSPLength s)) (<[i := d]> (_borderSPCount s)))
  | _, _ => NoQuotient
  end.
Proof.
  intros Hx Hy Ha Hb. unfold elementwise_step.
  rewrite (vec_get_lookup _ _ _ Hx), (vec_get_lookup _ _ _ Hy).
  cbn [mbind outcome_bind].
  destruct (opW x y) as [z|]; [|reflexivity].
  rewrite vec_set_lt by (eapply lookup_lt_Some; eassumption).
  rewrite (vec_get_lookup _ _ _ Ha), (vec_get_lookup _ _ _ Hb).
  cbn [mbind outcome_bind].
  destruct (opV a b) as [d|]; [|reflexivity].
  rewrite vec_set_lt by (eapply lookup_lt_Some; eassumption).
  reflexivity.
Qed.

Lemma elementwise_loop_outcome
    (opW : W -> W -> option W) (opV : V -> V -> option V)
    (n i : nat) (s other : VertexInfo V W) :
  length (_borderSPLength s) = (i + n)%nat ->
  length (_borderSPCount s) = (i + n)%nat ->
  (i + n <= length (_borderSPLength other))%nat ->
  (i + n <= length (_borderSPCount other))%nat ->
  (exists r, for_loop n (Z.of_nat i) (elementwise_step opW opV other) s
             = Ok r) \/
  for_loop n (Z.of_nat i) (elementwise_step opW opV other) s = NoQuotient.
Proof.
  revert i s. induction n as [|n IH]; intros i s Hl Hc Hlo Hco.
  - left. now exists s.
  - destruct (lookup_lt_is_Some_2 (_borderSPLength s) i) as [x Hx]; [lia|].
    destruct (lookup_lt_is_Some_2 (_borderSPLength other) i) as [y Hy];
      [lia|].
    destruct (lookup_lt_is_Some_2 (_borderSPCount s) i) as [a Ha]; [lia|].
    destruct (lookup_lt_is_Some_2 (_borderSPCount other) i) as [b Hb];
      [lia|].
    rewrite for_loop_S,
      (elementwise_step_outcome opW opV i s other x y a b) by assumption.
    destruct (opW x y) as [z|]; [|now right].
    destruct (opV a b) as [d|]; [|now right].
    cbn [mbind outcome_bind].
    apply IH; cbn; rewrite ?length_insert; lia.
Qed.

(** A compound assignment on a profile and one at least as wide either
    succeeds or meets a quotient without a value; it does not throw and
    makes no access outside the vectors. *)
Lemma elementwise_outcome
    (opW : W -> W -> option W) (opV : V -> V -> option V)
    (p q : VertexInfo V W) :
  wf p -> wf q -> _borderCount p <= _borderCount q ->
  (exists r, elementwise opW opV p q = Ok r) \/
  elementwise opW opV p q = NoQuotient.
Proof.
  intros [Hlp Hcp] [Hlq Hcq] Hle. unfold elementwise, for_range.
  apply (elementwise_loop_outcome opW opV (Z.to_nat (_borderCount p)) 0 p q);
    lia.
Qed.

Context {N E : Type}.
Variable PD : promotion V W.
Variable castNV : N -> V.
Variable castEW : E -> W.

Lemma squaredDistance_step_Ok (i : nat) (acc : W)
    (p : VertexInfo V W) (other : VertexInfo N E) (x : W) (y : E)
    (a : V) (b : N) :
  _borderSPLength p !! i = Some x -> _borderSPLength other !! i = Some y ->
  _borderSPCount p !! i = Some a -> _borderSPCount other !! i = Some b ->
  squaredDistance_step NV NW PD castNV castEW p other (Z.of_nat i) acc =
  Ok (accumulate PD
        (accumulate PD acc
           (pow2 PD (W_to_double PD (n_sub NW x (castEW y)))))
        (pow2 PD (V_to_double PD (n_sub NV a (castNV b))))).
Proof.
  intros Hx Hy Ha Hb. unfold squaredDistance_step.
  now rewrite (vec_get_lookup _ _ _ Hx), (vec_get_lookup _ _ _ Hy),
    (vec_get_lookup _ _ _ Ha), (vec_get_lookup _ _ _ Hb).
Qed.

Lemma squaredDistance_loop (n i : nat) (acc : W)
    (p : VertexInfo V W) (other : VertexInfo N E) :
  length (_borderSPLength p) = (i + n)%nat ->
  length (_borderSPCount p) = (i + n)%nat ->
  (i + n <= length (_borderSPLength other))%nat ->
  (i + n <= length (_borderSPCount other))%nat ->
  for_loop n (Z.of_nat i)
    (squaredDistance_step NV NW PD castNV castEW p other) acc =
  Ok (fold_left (accumulate PD)
        (interleave
           (zip_with
              (fun x y => pow2 PD (W_to_double PD (n_sub NW x (castEW y))))
              (drop i (_borderSPLength p)) (drop i (_borderSPLength other)))
           (zip_with
              (fun a b => pow2 PD (V_to_double PD (n_sub NV a (castNV b))))
              (drop i (_borderSPCount p)) (drop i (_borderSPCount other))))
        acc).
Proof.
  revert i acc. induction n as [|n IH]; intros i acc Hl Hc Hlo Hco.
  - rewrite (drop_ge (_borderSPLength p)) by lia. reflexivity.
  - destruct (lookup_lt_is_Some_2 (_borderSPLength p) i) as [x Hx]; [lia|].
    destruct (lookup_lt_is_Some_2 (_borderSPLength other) i) as [y Hy];
      [lia|].
    destruct (lookup_lt_is_Some_2 (_borderSPCount p) i) as [a Ha]; [lia|].
    destruct (lookup_lt_is_Some_2 (_borderSPCount other) i) as [b Hb];
      [lia|].
    rewrite for_loop_S, (squaredDistance_step_Ok i acc p other x y a b)
      by assumption.
    cbn [mbind outcome_bind].
    rewrite IH by lia.
    rewrite (drop_S _ _ _ Hx), (drop_S _ _ _ Hy), (drop_S _ _ _ Ha),
      (drop_S _ _ _ Hb).
    reflexivity.
Qed.

Lemma squaredDistance_sum (p : VertexInfo V W) (other : VertexInfo N E) :
  wf p -> wf other -> _borderCount p <= _borderCount other ->
  squaredDistance NV NW PD castNV castEW p other =
  Ok (fold_left (accumulate PD)
        (squaredDistance_terms NV NW PD castNV castEW p other)
        (n_zero NW)).
Proof.
  intros [Hlp Hcp] [Hlq Hcq] Hle. unfold squaredDistance, for_range.
  apply (squaredDistance_loop (Z.to_nat (_borderCount p)) 0); lia.
Qed.

Lemma squaredDistance_truncate
    (p : VertexInfo V W) (other : VertexInfo N E) :
  squaredDistance NV NW PD castNV castEW p other =
  squaredDistance NV NW PD castNV castEW p
    (truncate (_borderCount p) other).
Proof.
  unfold squaredDistance, for_range.
  apply (for_loop_ext (Z.to_nat (_borderCount p)) 0).
  intros j t Hj. unfold squaredDistance_step, truncate.
  cbn [_borderSPLength _borderSPCount].
  now rewrite !vec_get_take by lia.
Qed.


End Elementwise.

Section ShapeUnchecked.

Context {V W : Type}.
Variable NV : numeric V.
Variable NW : numeric W.
Variable PD : promotion V W.
Variable castVV : V -> V.
Variable castWW : W -> W.

(** C9: no elementwise operation checks the shape.  For a profile [p] and
    a profile [q] at least as wide, [p += q], [p -= q] and [p *= q]
    succeed, keep the width of [p] and combine the entries of [p] with the
    entries of [q] at the same indices; [p /= q] either succeeds with the
    width of [p] or meets a quotient the type has no value for, and
    neither throws nor leaves the vectors; [+], [-], [*], [/] are their
    compound assignments on a copy; [squaredDistance] succeeds; and each
    of them gives what it gives on the first [p.borders()] entries of [q]
    alone. *)
Theorem elementwise_operations_unchecked (p q : VertexInfo V W) :
  wf p -> wf q -> borders p <= borders q ->
  (add_assign NV NW p q =
     Ok (mkVertexInfo (borders p)
           (zip_with (n_add NW) (_borderSPLength p) (_borderSPLength q))
           (zip_with (n_add NV) (_borderSPCount p) (_borderSPCount q))) /\
   sub_assign NV NW p q =
     Ok (mkVertexInfo (borders p)
           (zip_with (n_sub NW) (_borderSPLength p) (_borderSPLength q))
           (zip_with (n_sub NV) (_borderSPCount p) (_borderSPCount q))) /\
   mul_assign NV NW p q =
     Ok (mkVertexInfo (borders p)
           (zip_with (n_mul NW) (_borderSPLength p) (_borderSPLength q))
           (zip_with (n_mul NV) (_borderSPCount p) (_borderSPCount q))) /\
   ((exists r, div_assign NV NW p q = Ok r /\ borders r = borders p) \/
    div_assign NV NW p q = NoQuotient) /\
   (exists d, squaredDistance NV NW PD castVV castWW p q = Ok d)) /\
  (plus NV NW p q = add_assign NV NW p q /\
   minus NV NW p q = sub_assign NV NW p q /\
   times NV NW p q = mul_assign NV NW p q /\
   divide NV NW p q = div_assign NV NW p q) /\
  (add_assign NV NW p q = add_assign NV NW p (truncate (borders p) q) /\
   sub_assign NV NW p q = sub_assign NV NW p (truncate (borders p) q) /\
   mul_assign NV NW p q = mul_assign NV NW p (truncate (borders p) q) /\
   div_assign NV NW p q = div_assign NV NW p (truncate (borders p) q) /\
   squaredDistance NV NW PD castVV castWW p q =
   squaredDistance NV NW PD castVV castWW p (truncate (borders p) q)).
Proof.
  intros Hp Hq Hle. unfold borders in *.
  split; [|split].
  - repeat split.
    + apply elementwise_total; assumption.
    + apply elementwise_total; assumption.
    + apply elementwise_total; assumption.
    + destruct (elementwise_outcome (n_div NW) (n_div NV) p q Hp Hq Hle)
        as [[r Hr]|Hnone]; [left|now right].
      exists r. split; [exact Hr|].
      apply (elementwise_borderCount _ _ _ _ _ Hr).
    + eexists. apply squaredDistance_sum; assumption.
  - repeat split.
  - repeat split; try apply elementwise_truncate.
    apply squaredDistance_truncate.
Qed.

End ShapeUnchecked.

(** ** The arithmetic of the integers is lawful *)

Lemma Z_difference_laws : difference_laws Z_numeric Z_numeric id.
Proof.
  constructor; cbn; unfold id; intros; lia.
Qed.

Lemma Z_order_laws : order_laws Z_numeric.
Proof. constructor; cbn; intros; lia. Qed.

(** ** The claims on concrete profiles *)

(** C1, counterexample: on [profile_length_then_count] against
    [profile_0_0], profiles of width 2, [compare] returns the length
    difference 5 of index 0, where a scan of all counts before any length
    returns the count difference 1 of index 1. *)
Lemma compare_length_before_later_count :
  wf profile_length_then_count /\ wf profile_0_0 /\
  _borderCount profile_length_then_count = _borderCount profile_0_0 /\
  compare Z_numeric Z_numeric id profile_length_then_count profile_0_0
    = Ok 5 /\
  compare_two_pass Z_numeric Z_numeric id
    profile_length_then_count profile_0_0 = 1 /\
  compare Z_numeric Z_numeric id profile_length_then_count profile_0_0 <>
  Ok (compare_two_pass Z_numeric Z_numeric id
        profile_length_then_count profile_0_0).
Proof. repeat split; discriminate. Qed.

Lemma compare_first_nonzero_interleaved_witness :
  compare Z_numeric Z_numeric id profile_length_then_count profile_0_0 =
  Ok (first_nonzero Z_numeric
        (interleave
           (count_diffs Z_numeric id profile_length_then_count profile_0_0)
           (length_diffs Z_numeric profile_length_then_count profile_0_0))).
Proof.
  apply (compare_first_nonzero_interleaved Z_numeric Z_numeric id
           profile_length_then_count profile_0_0).
  - split; reflexivity.
  - split; reflexivity.
  - reflexivity.
Defined.



(** ** The laws at the numeric types *)

Lemma int_wrap_small (z : Z) : - 2 ^ 31 <= z < 2 ^ 31 -> int_wrap z = z.
Proof. intros Hz. unfold int_wrap. rewrite Z.mod_small; lia. Qed.

(** For [int], the laws of normalisation hold on the lengths that are not
    negative: no difference of two of them is outside the range. *)
Lemma int_order_laws_on :
  order_laws_on int_numeric (fun x => 0 <= x < 2 ^ 31).
Proof.
  constructor; cbn; intros;
    rewrite ?int_wrap_small by lia; lia.
Qed.

(** For [int] counts and lengths, the laws of the comparison hold on the
    values whose differences are within the range. *)
Lemma int_difference_laws_on :
  difference_laws_on int_numeric int_numeric id
    (fun a => - 2 ^ 30 <= a < 2 ^ 30) (fun x => - 2 ^ 30 <= x < 2 ^ 30).
Proof.
  constructor; cbn; unfold id; intros;
    rewrite ?Z.sub_diag;
    rewrite ?(int_wrap_small (_ - _)) by lia;
    rewrite ?(int_wrap_small (- (_ - _))) by lia;
    first
      [ reflexivity
      | lia
      | match goal with
        | |- (?u =? 0) = (?v =? 0) =>
            destruct (Z.eqb_spec u 0), (Z.eqb_spec v 0); (reflexivity || lia)
        end ].
Qed.

(** Case analysis over finitely many values, each case settled by
    computation. *)
Ltac cases_of_values :=
  repeat match goal with
         | H : _ ∈ _ |- _ => apply list_elem_of_In in H; cbn [In] in H
         | H : _ \/ _ |- _ => destruct H as [H|H]
         | H : False |- _ => destruct H
         | H : _ = ?x |- _ => is_var x; subst x
         end.

Ltac by_computation :=
  first
    [ reflexivity
    | match goal with
      | H : _ = true |- _ => vm_compute in H; discriminate H
      | H : _ = false |- _ => vm_compute in H; discriminate H
      end
    | apply list_elem_of_In; vm_compute;
      repeat first [left; reflexivity | right] ].

(** For [double], the laws of normalisation hold on the lengths 0, 0.5, 1
    and 1.5. *)
Lemma double_order_laws_on :
  order_laws_on double_numeric
    (fun x => x ∈ [0%float; 0.5%float; 1%float; 1.5%float]).
Proof. constructor; intros; cases_of_values; by_computation. Qed.

(** For [int] counts converted to [double] and [double] lengths, the laws
    of the comparison hold on the counts 1, 2, 3 and the lengths 0.5, 1
    and 1.5. *)
Lemma double_difference_laws_on :
  difference_laws_on int_numeric double_numeric int_to_double
    (fun a => a ∈ [1; 2; 3])
    (fun x => x ∈ [0.5%float; 1%float; 1.5%float]).
Proof. constructor; intros; cases_of_values; by_computation. Qed.



(** C8, counterexample.  For two [VertexInfo<unsigned, double>] of width 1
    with the counts 0 and 1, the count difference is taken in [unsigned]:
    one way it is 4294967295, the other way 1, and the first is not the
    opposite of the second.  For a [VertexInfo<int, double>] whose length
    is infinite, the length difference with itself is NaN, which is
    returned as not equal to zero, and [p == p] is false. *)
Lemma compare_not_opposite_nor_reflexive :
  (wf unsigned_count_0 /\ wf unsigned_count_1 /\
   _borderCount unsigned_count_0 = _borderCount unsigned_count_1 /\
   compare unsigned_numeric double_numeric int_to_double
     unsigned_count_0 unsigned_count_1 = Ok 4294967295%float /\
   compare unsigned_numeric double_numeric int_to_double
     unsigned_count_1 unsigned_count_0 = Ok 1%float /\
   n_eqb double_numeric 4294967295%float
     (n_opp double_numeric 1%float) = false) /\
  (wf length_infinite /\
   compare int_numeric double_numeric int_to_double
     length_infinite length_infinite = Ok nan /\
   op_eq int_numeric double_numeric int_to_double
     length_infinite length_infinite = Ok false).
Proof. repeat split; reflexivity. Qed.

Lemma compare_antisymmetric_reflexive_witness :
  (exists c c',
     compare int_numeric double_numeric int_to_double
       profile_halves_swapped profile_halves = Ok c /\
     compare int_numeric double_numeric int_to_double
       profile_halves profile_halves_swapped = Ok c' /\
     n_eqb double_numeric c' (n_opp double_numeric c) = true) /\
  compare int_numeric double_numeric int_to_double
    profile_halves profile_halves = Ok 0%float /\
  op_eq int_numeric double_numeric int_to_double
    profile_halves profile_halves = Ok true.
Proof.
  apply (compare_antisymmetric_reflexive int_numeric double_numeric
           int_to_double _ _ double_difference_laws_on
           profile_halves profile_halves_swapped).
  - split; reflexivity.
  - split; reflexivity.
  - reflexivity.
  - repeat constructor; by_computation.
  - repeat constructor; by_computation.
  - repeat constructor; by_computation.
  - repeat constructor; by_computation.
Defined.

Lemma elementwise_operations_unchecked_witness :
  add_assign Z_numeric Z_numeric profile_length_then_count profile_wide =
  Ok (mkVertexInfo 2 [15; 20] [1; 2]).
Proof.
  apply (elementwise_operations_unchecked Z_numeric Z_numeric int_int id id
           profile_length_then_count profile_wide).
  - split; reflexivity.
  - split; reflexivity.
  - unfold borders. cbn. lia.
Defined.

(** ** Selection of the best attempt *)

Section Selection.

Context `{Env : Collaborators}.

Lemma select_best_step_Ok (modularities : list D) (i b : nat) (m mb : D) :
  modularities !! i = Some m -> modularities !! b = Some mb ->
  select_best_step modularities (Z.of_nat i) (Z.of_nat b) =
  Ok (if gtb m mb then Z.of_nat i else Z.of_nat b).
Proof.
  intros Hm Hb. unfold select_best_step.
  now rewrite (vec_get_lookup _ _ _ Hm), (vec_get_lookup _ _ _ Hb).
Qed.

Hypothesis order : modularity_order.

(** The scan keeps in [best_i] an index below [i] whose modularity no
    earlier or equal index exceeds and which exceeds the modularity of
    every index before it. *)
Lemma select_best_loop (modularities : list D) (n i b : nat) :
  (b < i)%nat -> (i + n)%nat = length modularities ->
  (forall j mj mb, (j < i)%nat -> modularities !! j = Some mj ->
     modularities !! b = Some mb -> gtb mj mb = false) ->
  (forall j mj mb, (j < b)%nat -> modularities !! j = Some mj ->
     modularities !! b = Some mb -> gtb mb mj = true) ->
  exists b',
    for_loop n (Z.of_nat i) (select_best_step modularities) (Z.of_nat b) =
      Ok (Z.of_nat b') /\
    (b' < length modularities)%nat /\
    (forall j mj mb, modularities !! j = Some mj ->
       modularities !! b' = Some mb -> gtb mj mb = false) /\
    (forall j mj mb, (j < b')%nat -> modularities !! j = Some mj ->
       modularities !! b' = Some mb -> gtb mb mj = true).
Proof.
  revert i b. induction n as [|n IH]; intros i b Hbi Hlen Hmax Hfirst.
  - exists b. split; [reflexivity|]. split; [lia|]. split; [|exact Hfirst].
    intros j mj mb Hj Hb. apply (Hmax j); [|assumption..].
    apply lookup_lt_Some in Hj. lia.
  - destruct (lookup_lt_is_Some_2 modularities i) as [m Hm]; [lia|].
    destruct (lookup_lt_is_Some_2 modularities b) as [mb Hb]; [lia|].
    rewrite for_loop_S, (select_best_step_Ok _ _ _ _ _ Hm Hb).
    cbn [mbind outcome_bind].
    destruct (gtb m mb) eqn:Hgt.
    + apply IH; [lia|lia| |].
      * intros j mj mi Hj Hmj Hmi. rewrite Hm in Hmi. injection Hmi as <-.
        destruct (decide (j = i)) as [->|Hne].
        { rewrite Hm in Hmj. injection Hmj as <-. apply (gtb_irrefl order). }
        destruct (gtb mj m) eqn:Hjm; [|reflexivity].
        rewrite <- (Hmax j mj mb); [|lia|assumption..].
        symmetry. now apply (gtb_trans order _ m).
      * intros j mj mi Hj Hmj Hmi. rewrite Hm in Hmi. injection Hmi as <-.
        apply (gtb_above_not_below order _ mb); [exact Hgt|].
        now apply (Hmax j).
    + apply IH; [lia|lia| |exact Hfirst].
      intros j mj mb' Hj Hmj Hmb'. rewrite Hb in Hmb'. injection Hmb' as <-.
      destruct (decide (j = i)) as [->|Hne].
      { rewrite Hm in Hmj. now injection Hmj as <-. }
      apply (Hmax j); [lia|assumption..].
Qed.

Lemma select_best_first_maximum (modularities : list D) :
  length modularities = Z.to_nat parallelism ->
  exists b,
    select_best modularities = Ok (Z.of_nat b) /\
    (b < length modularities)%nat /\
    (forall j mj mb, modularities !! j = Some mj ->
       modularities !! b = Some mb -> gtb mj mb = false) /\
    (forall j mj mb, (j < b)%nat -> modularities !! j = Some mj ->
       modularities !! b = Some mb -> gtb mb mj = true).
Proof.
  intros Hlen. unfold select_best.
  apply (select_best_loop modularities (Z.to_nat (parallelism - 1)) 1 0).
  - lia.
  - rewrite Hlen. reflexivity.
  - intros j mj mb Hj Hmj Hmb. assert (j = 0%nat) as -> by lia.
    rewrite Hmj in Hmb. injection Hmb as <-. apply (gtb_irrefl order).
  - intros j mj mb Hj. lia.
Qed.

End Selection.

(** ** One level *)

Section Level.

Context `{Env : Collaborators}.

Lemma length_4 {A : Type} (l : list A) :
  length l = Z.to_nat parallelism -> exists a b c d, l = [a; b; c; d].
Proof.
  cbn. intros H.
  destruct l as [|a [|b [|c [|d [|e l]]]]]; try discriminate. eauto.
Qed.

Lemma run_attempts_step_Ok (level : Z) (i : nat)
    (p : list Partition) (improvements : list bool) (modularities : list D)
    (pi : Partition) :
  p !! i = Some pi ->
  (i < length improvements)%nat -> (i < length modularities)%nat ->
  run_attempts_step level (Z.of_nat i) (p, improvements, modularities) =
  Ok (<[i := (one_level level (Z.of_nat i) pi).2]> p,
      <[i := (one_level level (Z.of_nat i) pi).1]> improvements,
      <[i := modularity (one_level level (Z.of_nat i) pi).2]> modularities).
Proof.
  intros Hp Hi Hm. unfold run_attempts_step.
  rewrite (vec_get_lookup _ _ _ Hp). cbn [mbind outcome_bind].
  destruct (one_level level (Z.of_nat i) pi) as [improved pi'].
  rewrite !vec_set_lt
    by first [eassumption | eapply lookup_lt_Some; eassumption].
  reflexivity.
Qed.

(** On entry to a level every attempt starts from a fresh partition of the
    current graph; the parallel loop leaves, slot by slot, what the
    attempts report. *)
Lemma run_attempts_fresh (s : eval_state) :
  level_invariant s ->
  run_attempts (st_level s)
    (st_p s, st_improvements s, st_modularities s) =
  Ok ((fun i => (attempt s i).2) <$> seqZ 0 parallelism,
      (fun i => (attempt s i).1) <$> seqZ 0 parallelism,
      (fun i => modularity (attempt s i).2) <$> seqZ 0 parallelism).
Proof.
  intros [Hp Hi Hm _]. rewrite Hp.
  destruct (length_4 _ Hi) as (i0 & i1 & i2 & i3 & ->).
  destruct (length_4 _ Hm) as (m0 & m1 & m2 & m3 & ->).
  unfold run_attempts, for_range, attempt, parallelism.
  change (Z.to_nat 4) with 4%nat. change (seqZ 0 4) with [0; 1; 2; 3].
  change 0 with (Z.of_nat 0) at 1.
  cbn [replicate].
  rewrite for_loop_S, (run_attempts_step_Ok _ 0 _ _ _ (Partition_new (st_g s)))
    by (reflexivity || (cbn; lia)).
  cbn [mbind outcome_bind insert list_insert].
  rewrite for_loop_S, (run_attempts_step_Ok _ 1 _ _ _ (Partition_new (st_g s)))
    by (reflexivity || (cbn; lia)).
  cbn [mbind outcome_bind insert list_insert].
  rewrite for_loop_S, (run_attempts_step_Ok _ 2 _ _ _ (Partition_new (st_g s)))
    by (reflexivity || (cbn; lia)).
  cbn [mbind outcome_bind insert list_insert].
  rewrite for_loop_S, (run_attempts_step_Ok _ 3 _ _ _ (Partition_new (st_g s)))
    by (reflexivity || (cbn; lia)).
  reflexivity.
Qed.

End Level.

(** A loop that replaces the entry at its index by the image under [f],
    for the entries that satisfy [P]. *)
Lemma for_loop_pointwise {A : Type} (P : A -> Prop) (f : A -> A)
    (step : Z -> list A -> outcome (list A)) :
  (forall i l x, l !! i = Some x -> P x ->
                 step (Z.of_nat i) l = Ok (<[i := f x]> l)) ->
  forall n i l,
    length l = (i + n)%nat ->
    (forall x, x ∈ drop i l -> P x) ->
    for_loop n (Z.of_nat i) step l = Ok (take i l ++ (f <$> drop i l)).
Proof.
  intros Hstep. induction n as [|n IH]; intros i l Hlen HP.
  - rewrite drop_ge, take_ge by lia. cbn. now rewrite app_nil_r.
  - destruct (lookup_lt_is_Some_2 l i) as [x Hx]; [lia|].
    rewrite (drop_S _ _ _ Hx) in HP |- *.
    rewrite for_loop_S, (Hstep i l x Hx)
      by (apply HP, list_elem_of_here).
    cbn [mbind outcome_bind].
    rewrite IH.
    + rewrite drop_insert_lt by lia.
      rewrite (take_S_r _ _ (f x)) by (apply list_lookup_insert_eq; lia).
      rewrite take_insert_ge by lia.
      rewrite <- app_assoc. reflexivity.
    + rewrite length_insert. lia.
    + intros y Hy. rewrite drop_insert_lt in Hy by lia.
      now apply HP, list_elem_of_further.
Qed.

(** ** Renumbering *)

Section Renumber.

Variable n2c : list Z.
Hypothesis range : ids_in_range n2c.

Lemma n2c_lookup_range (node : nat) (c : Z) :
  n2c !! node = Some c -> 0 <= c /\ (Z.to_nat c < length n2c)%nat.
Proof.
  intros H. apply list_elem_of_lookup_2 in H. apply range in H. lia.
Qed.

Lemma renumber_mark_step_Ok (k : nat) (renumber : list Z) (c x : Z) :
  n2c !! k = Some c -> renumber !! Z.to_nat c = Some x ->
  renumber_mark_step n2c (Z.of_nat k) renumber =
  Ok (<[Z.to_nat c := x + 1]> renumber).
Proof.
  intros Hc Hx. destruct (n2c_lookup_range _ _ Hc) as [Hc0 _].
  unfold renumber_mark_step.
  rewrite (vec_get_lookup _ _ _ Hc). cbn [mbind outcome_bind].
  rewrite (vec_get_Z _ _ _ Hc0 Hx). cbn [mbind outcome_bind].
  apply vec_set_Z; [assumption|]. now apply lookup_lt_Some in Hx.
Qed.

Lemma renumber_marks_loop (n k : nat) (renumber : list Z) :
  (k + n)%nat = length n2c ->
  marks_invariant n2c k renumber ->
  exists marks,
    for_loop n (Z.of_nat k) (renumber_mark_step n2c) renumber = Ok marks /\
    marks_invariant n2c (length n2c) marks.
Proof.
  revert k renumber. induction n as [|n IH]; intros k renumber Hk Hinv.
  - exists renumber. split; [reflexivity|].
    now replace (length n2c) with k by lia.
  - destruct Hinv as [Hlen Hinv].
    destruct (lookup_lt_is_Some_2 n2c k) as [c Hc]; [lia|].
    destruct (n2c_lookup_range _ _ Hc) as [Hc0 Hclt].
    destruct (Hinv (Z.to_nat c) Hclt) as (x & Hx & Hx1 & _).
    rewrite for_loop_S, (renumber_mark_step_Ok _ _ _ _ Hc Hx).
    cbn [mbind outcome_bind].
    apply IH; [lia|]. split; [now rewrite length_insert|].
    intros d Hd. rewrite (take_S_r _ _ _ Hc).
    destruct (decide (d = Z.to_nat c)) as [->|Hne].
    + exists (x + 1). rewrite list_lookup_insert_eq by lia.
      split; [reflexivity|]. split; [lia|]. split; [lia|].
      intros Hnot. exfalso. apply Hnot. apply elem_of_app. right.
      apply list_elem_of_singleton. lia.
    + destruct (Hinv d Hd) as (y & Hy & Hy1 & Hyiff).
      exists y. rewrite list_lookup_insert_ne by lia.
      split; [exact Hy|]. split; [exact Hy1|].
      rewrite Hyiff, elem_of_app, list_elem_of_singleton.
      split; [intros H [H'|H']; [tauto|lia]|tauto].
Qed.

(** What the first loop leaves: one entry per community, -1 exactly for
    the communities no node is assigned to. *)
Lemma renumber_marks_spec :
  exists marks,
    renumber_marks n2c = Ok marks /\
    length marks = length n2c /\
    forall c, (c < length n2c)%nat ->
      exists x, marks !! c = Some x /\ (x = -1 <-> Z.of_nat c ∉ n2c).
Proof.
  unfold renumber_marks, for_range. rewrite Nat2Z.id.
  destruct (renumber_marks_loop (length n2c) 0 (replicate (length n2c) (-1)))
    as (marks & Hrun & Hlen & Hinv).
  - reflexivity.
  - split; [apply length_replicate|].
    intros c Hc. exists (-1). rewrite lookup_replicate_2 by assumption.
    split; [reflexivity|]. split; [lia|]. cbn.
    split; [intros _; apply not_elem_of_nil|reflexivity].
  - exists marks. split; [exact Hrun|]. split; [exact Hlen|].
    intros c Hc. destruct (Hinv c Hc) as (x & Hx & _ & Hiff).
    exists x. split; [exact Hx|]. now rewrite take_ge in Hiff by lia.
Qed.

Lemma dense_rank_0 (l : list Z) : dense_rank l 0 = 0.
Proof. reflexivity. Qed.

Lemma dense_rank_S (l : list Z) (c : nat) :
  dense_rank l (Z.of_nat (S c)) =
  dense_rank l (Z.of_nat c) + (if decide (Z.of_nat c ∈ l) then 1 else 0).
Proof.
  unfold dense_rank. rewrite seqZ_S, filter_app, length_app, Z.add_0_l.
  destruct (decide (Z.of_nat c ∈ l)) as [Hin|Hnot].
  - rewrite filter_cons_True by assumption. cbn. lia.
  - rewrite filter_cons_False by assumption. cbn. lia.
Qed.

Lemma dense_rank_mono (l : list Z) (a b : nat) :
  (a <= b)%nat -> dense_rank l (Z.of_nat a) <= dense_rank l (Z.of_nat b).
Proof.
  induction 1 as [|b Hle IH]; [lia|].
  rewrite dense_rank_S. destruct (decide (Z.of_nat b ∈ l)); lia.
Qed.

Lemma renumber_dense_step_Ok (i : nat) (renumber : list Z) (final x : Z) :
  renumber !! i = Some x ->
  renumber_dense_step (Z.of_nat i) (renumber, final) =
  Ok (if negb (x =? -1) then (<[i := final]> renumber, final + 1)
      else (renumber, final)).
Proof.
  intros Hx. unfold renumber_dense_step.
  rewrite (vec_get_lookup _ _ _ Hx). cbn [mbind outcome_bind].
  destruct (negb (x =? -1)); [|reflexivity].
  rewrite vec_set_lt by (eapply lookup_lt_Some; eassumption). reflexivity.
Qed.

Lemma renumber_dense_loop (marks : list Z) (n i : nat) (st : list Z * Z) :
  (forall c, (c < length n2c)%nat ->
     exists x, marks !! c = Some x /\ (x = -1 <-> Z.of_nat c ∉ n2c)) ->
  (i + n)%nat = length n2c ->
  dense_invariant n2c marks i st ->
  exists st',
    for_loop n (Z.of_nat i) renumber_dense_step st = Ok st' /\
    dense_invariant n2c marks (length n2c) st'.
Proof.
  intros Hmarks. revert i st.
  induction n as [|n IH]; intros i [renumber final] Hi Hinv.
  - exists (renumber, final). split; [reflexivity|].
    now replace (length n2c) with i by lia.
  - destruct Hinv as (Hlen & Hfinal & Hbelow & Habove).
    cbn [fst snd] in Hlen, Hfinal, Hbelow, Habove.
    destruct (Hmarks i) as (x & Hx & Hiff); [lia|].
    assert (Hr : renumber !! i = Some x) by (rewrite Habove by lia; exact Hx).
    rewrite for_loop_S, (renumber_dense_step_Ok _ _ _ _ Hr).
    cbn [mbind outcome_bind].
    apply IH; [lia|].
    destruct (Z.eqb_spec x (-1)) as [Hm1|Hne]; cbn [negb].
    + assert (Hnot : Z.of_nat i ∉ n2c) by now apply Hiff.
      split; [exact Hlen|]. cbn [fst snd].
      split; [rewrite dense_rank_S, decide_False by assumption; lia|].
      split; [|intros c Hc; apply Habove; lia].
      intros c Hc. destruct (decide (c = i)) as [->|Hci];
        [|apply Hbelow; lia].
      rewrite Hr, Hm1. unfold renumbered.
      now rewrite decide_False by assumption.
    + assert (Hin : Z.of_nat i ∈ n2c).
      { destruct (decide (Z.of_nat i ∈ n2c)) as [?|Hnot]; [assumption|].
        apply Hiff in Hnot. contradiction. }
      split; [cbn [fst]; now rewrite length_insert|]. cbn [fst snd].
      split; [rewrite dense_rank_S, decide_True by assumption; lia|].
      split.
      * intros c Hc. destruct (decide (c = i)) as [->|Hci].
        -- rewrite list_lookup_insert_eq by lia. unfold renumbered.
           now rewrite decide_True, Hfinal by assumption.
        -- rewrite list_lookup_insert_ne by lia. apply Hbelow. lia.
      * intros c Hc. rewrite list_lookup_insert_ne by lia.
        apply Habove. lia.
Qed.

(** What the second loop leaves: the new number of every community, and
    the number of communities that got one. *)
Lemma renumber_dense_spec :
  exists marks renumber,
    renumber_marks n2c = Ok marks /\
    renumber_dense n2c marks =
      Ok (renumber, dense_rank n2c (Z.of_nat (length n2c))) /\
    length renumber = length n2c /\
    forall c, (c < length n2c)%nat ->
      renumber !! c = Some (renumbered n2c (Z.of_nat c)).
Proof.
  destruct renumber_marks_spec as (marks & Hmarks & Hlen & Hspec).
  unfold renumber_dense, for_range. rewrite Nat2Z.id.
  destruct (renumber_dense_loop marks (length n2c) 0 (marks, 0) Hspec)
    as ([renumber final] & Hrun & Hl & Hf & Hbelow & _).
  - reflexivity.
  - split; [exact Hlen|]. split; [reflexivity|].
    split; [intros c Hc; lia|reflexivity].
  - exists marks, renumber. cbn [fst snd] in *. subst final.
    change (Z.of_nat 0) with 0 in Hrun. auto.
Qed.

Lemma dense_rank_nonneg (l : list Z) (c : Z) : 0 <= dense_rank l c.
Proof. unfold dense_rank. lia. Qed.

(** A community some node is assigned to gets a number below the numbers
    of all communities above it. *)
Lemma dense_rank_strict (l : list Z) (a b : nat) :
  (a < b)%nat -> Z.of_nat a ∈ l ->
  dense_rank l (Z.of_nat a) < dense_rank l (Z.of_nat b).
Proof.
  intros Hlt Hin. pose proof (dense_rank_mono l (S a) b Hlt) as Hm.
  rewrite dense_rank_S, decide_True in Hm by assumption. lia.
Qed.

(** Every number below the count is the number of some community. *)
Lemma dense_rank_onto (l : list Z) (n : nat) (y : Z) :
  0 <= y < dense_rank l (Z.of_nat n) ->
  exists c, (c < n)%nat /\ Z.of_nat c ∈ l /\ dense_rank l (Z.of_nat c) = y.
Proof.
  induction n as [|n IH]; intros Hy.
  - rewrite dense_rank_0 in Hy. lia.
  - rewrite dense_rank_S in Hy.
    destruct (decide (y < dense_rank l (Z.of_nat n))) as [Hlt|Hge].
    + destruct IH as (c & Hc & Hin & Hr); [lia|]. exists c. auto with lia.
    + destruct (decide (Z.of_nat n ∈ l)) as [Hin|Hnot]; [|lia].
      exists n. split; [lia|]. split; [assumption|lia].
Qed.

(** The new id of the original vertex whose old id is [old]. *)
Lemma renumber_apply_step_Ok (renumber comms : list Z) (i : nat) (old : Z) :
  (forall c, (c < length n2c)%nat ->
     renumber !! c = Some (renumbered n2c (Z.of_nat c))) ->
  comms !! i = Some old -> 0 <= old < Z.of_nat (length n2c) ->
  renumber_apply_step n2c renumber (Z.of_nat i) comms =
  Ok (<[i := dense_rank n2c (n2c !!! Z.to_nat old)]> comms).
Proof.
  intros Hren Hold Hrange.
  destruct (lookup_lt_is_Some_2 n2c (Z.to_nat old)) as [c Hc]; [lia|].
  destruct (n2c_lookup_range _ _ Hc) as [Hc0 Hclt].
  unfold renumber_apply_step.
  rewrite (vec_get_lookup _ _ _ Hold). cbn [mbind outcome_bind].
  rewrite (vec_get_Z _ _ _ (proj1 Hrange) Hc). cbn [mbind outcome_bind].
  rewrite (vec_get_Z _ _ (renumbered n2c c) Hc0)
    by (rewrite Hren by assumption; f_equal; f_equal; lia).
  cbn [mbind outcome_bind].
  rewrite vec_set_lt by (eapply lookup_lt_Some; eassumption).
  rewrite (list_lookup_total_correct _ _ _ Hc). unfold renumbered.
  rewrite decide_True by (eapply list_elem_of_lookup_2; eassumption).
  reflexivity.
Qed.

(** [renumber_communities] sends every entry of [comms] through [n2c] and
    the dense numbering of the communities in use. *)
Lemma renumber_communities_spec (comms : list Z) :
  (forall x, x ∈ comms -> 0 <= x < Z.of_nat (length n2c)) ->
  renumber_communities comms n2c =
  Ok ((fun old => dense_rank n2c (n2c !!! Z.to_nat old)) <$> comms).
Proof.
  intros Hcomms.
  destruct renumber_dense_spec as (marks & renumber & Hm & Hd & Hlen & Hren).
  unfold renumber_communities. rewrite Hm. cbn [mbind outcome_bind].
  rewrite Hd. cbn [mbind outcome_bind fst].
  unfold for_range. rewrite Nat2Z.id.
  change 0 with (Z.of_nat 0).
  rewrite (for_loop_pointwise
             (fun x => 0 <= x < Z.of_nat (length n2c))
             (fun old => dense_rank n2c (n2c !!! Z.to_nat old))).
  - reflexivity.
  - intros i l x Hx HP. now apply renumber_apply_step_Ok.
  - reflexivity.
  - exact Hcomms.
Qed.

(** When [comms] uses exactly the indices of [n2c], the renumbered
    [comms] uses exactly the numbers below the count of communities in
    use. *)
Lemma renumber_communities_dense (comms : list Z) :
  dense_ids comms (Z.of_nat (length n2c)) ->
  dense_ids ((fun old => dense_rank n2c (n2c !!! Z.to_nat old)) <$> comms)
    (dense_rank n2c (Z.of_nat (length n2c))).
Proof.
  intros Hdense y. split.
  - intros Hy. apply list_elem_of_fmap in Hy as (old & -> & Hold).
    apply Hdense in Hold.
    destruct (lookup_lt_is_Some_2 n2c (Z.to_nat old)) as [c Hc]; [lia|].
    rewrite (list_lookup_total_correct _ _ _ Hc).
    destruct (n2c_lookup_range _ _ Hc) as [Hc0 Hclt].
    split; [apply dense_rank_nonneg|].
    replace c with (Z.of_nat (Z.to_nat c)) by lia.
    apply dense_rank_strict; [assumption|].
    rewrite Z2Nat.id by assumption. eapply list_elem_of_lookup_2; eassumption.
  - intros Hy. destruct (dense_rank_onto n2c _ y Hy) as (c & Hc & Hin & Hr).
    apply list_elem_of_lookup_1 in Hin as [node Hnode].
    apply list_elem_of_fmap. exists (Z.of_nat node). split.
    + rewrite Nat2Z.id, (list_lookup_total_correct _ _ _ Hnode). now symmetry.
    + apply Hdense. apply lookup_lt_Some in Hnode. lia.
Qed.

End Renumber.

(** ** Materialising the communities *)

Section BuildResult.

Variable n2c : list Z.

Lemma fold_max_spec (l : list Z) (acc : Z) :
  let m := fold_left (fun max x => if x >? max then x else max) l acc in
  acc <= m /\ (forall x, x ∈ l -> x <= m) /\ (m = acc \/ m ∈ l).
Proof.
  revert acc. induction l as [|y l IH]; intros acc; cbn.
  - split; [lia|]. split; [|now left].
    intros x Hx. now apply elem_of_nil in Hx.
  - destruct (IH (if y >? acc then y else acc)) as (Hle & Hall & Hin).
    destruct (Z.gtb_spec y acc) as [Hgt|Hngt].
    + split; [lia|]. split.
      * intros x Hx. apply elem_of_cons in Hx as [->|Hx]; [lia|auto].
      * right. destruct Hin as [->|Hin];
          [apply list_elem_of_here|now apply list_elem_of_further].
    + split; [lia|]. split.
      * intros x Hx. apply elem_of_cons in Hx as [->|Hx]; [lia|auto].
      * destruct Hin as [Hin|Hin]; [now left|].
        right. now apply list_elem_of_further.
Qed.

(** [max_id] is at least every id, and is one of the ids when there is an
    id and none is negative. *)
Lemma max_id_spec :
  0 <= max_id n2c /\ (forall x, x ∈ n2c -> x <= max_id n2c) /\
  (max_id n2c = 0 \/ max_id n2c ∈ n2c).
Proof. apply (fold_max_spec n2c 0). Qed.

Lemma members_below_S (k : nat) (c : Z) :
  members_below n2c (Z.of_nat (S k)) c =
  members_below n2c (Z.of_nat k) c ++
  (if decide (n2c !! k = Some c) then [Z.of_nat k] else []).
Proof.
  unfold members_below. rewrite seqZ_S, filter_app, Z.add_0_l.
  f_equal. destruct (decide (n2c !! k = Some c)) as [H|H].
  - now rewrite filter_cons_True by (rewrite Nat2Z.id; exact H).
  - now rewrite filter_cons_False by (rewrite Nat2Z.id; exact H).
Qed.

Hypothesis nonneg : forall x, x ∈ n2c -> 0 <= x.

Lemma build_result_step_Ok (k : nat) (r : list Community)
    (c : Z) (comm : Community) :
  n2c !! k = Some c -> r !! Z.to_nat c = Some comm ->
  build_result_step n2c (Z.of_nat k) r =
  Ok (<[Z.to_nat c := Community_add comm (Z.of_nat k)]> r).
Proof.
  intros Hc Hcomm.
  assert (Hc0 : 0 <= c) by (eapply nonneg, list_elem_of_lookup_2; eassumption).
  unfold build_result_step.
  rewrite (vec_get_lookup _ _ _ Hc). cbn [mbind outcome_bind].
  rewrite (vec_get_Z _ _ _ Hc0 Hcomm). cbn [mbind outcome_bind].
  apply vec_set_Z; [assumption|]. now apply lookup_lt_Some in Hcomm.
Qed.

Lemma build_result_loop (n k : nat) (r : list Community) :
  (k + n)%nat = length n2c ->
  length r = Z.to_nat (max_id n2c + 1) ->
  (forall c, (c < length r)%nat ->
     r !! c = Some (members_below n2c (Z.of_nat k) (Z.of_nat c))) ->
  exists r',
    for_loop n (Z.of_nat k) (build_result_step n2c) r = Ok r' /\
    length r' = Z.to_nat (max_id n2c + 1) /\
    forall c, (c < length r')%nat ->
      r' !! c = Some (members n2c (Z.of_nat c)).
Proof.
  revert k r. induction n as [|n IH]; intros k r Hk Hlen Hinv.
  - exists r. split; [reflexivity|]. split; [exact Hlen|].
    unfold members. now replace (length n2c) with k by lia.
  - destruct (lookup_lt_is_Some_2 n2c k) as [c Hc]; [lia|].
    pose proof (list_elem_of_lookup_2 _ _ _ Hc) as Hin.
    pose proof (nonneg _ Hin) as Hc0.
    destruct max_id_spec as (_ & Hmax & _). specialize (Hmax _ Hin).
    assert (Hclt : (Z.to_nat c < length r)%nat) by lia.
    pose proof (Hinv _ Hclt) as Hcomm.
    rewrite for_loop_S, (build_result_step_Ok _ _ _ _ Hc Hcomm).
    cbn [mbind outcome_bind].
    apply IH; [lia|now rewrite length_insert|].
    intros d Hd. rewrite length_insert in Hd. rewrite members_below_S.
    destruct (decide (d = Z.to_nat c)) as [->|Hne].
    + rewrite list_lookup_insert_eq by assumption.
      rewrite decide_True by (rewrite Hc; f_equal; lia).
      reflexivity.
    + rewrite list_lookup_insert_ne by lia.
      rewrite decide_False by (rewrite Hc; intros [= ->]; lia).
      rewrite app_nil_r. now apply Hinv.
Qed.

Lemma max_id_loop (n k : nat) (acc : Z) :
  (k + n)%nat = length n2c ->
  for_loop n (Z.of_nat k) (max_id_step n2c) acc =
  Ok (fold_left (fun max x => if x >? max then x else max) (drop k n2c) acc).
Proof.
  revert k acc. induction n as [|n IH]; intros k acc Hk.
  - now rewrite drop_ge by lia.
  - destruct (lookup_lt_is_Some_2 n2c k) as [x Hx]; [lia|].
    rewrite for_loop_S. unfold max_id_step at 2.
    rewrite (vec_get_lookup _ _ _ Hx). cbn [mbind outcome_bind].
    rewrite IH by lia. now rewrite (drop_S _ _ _ Hx).
Qed.

(** [build_result] returns one community per id from 0 to the largest id;
    community [c] holds the vertices assigned to [c]. *)
Lemma build_result_spec :
  exists r,
    build_result n2c = Ok r /\
    length r = Z.to_nat (1 + max_id n2c) /\
    forall c, (c < length r)%nat -> r !! c = Some (members n2c (Z.of_nat c)).
Proof.
  unfold build_result, for_range. rewrite Nat2Z.id.
  pose proof (max_id_loop (length n2c) 0 0 eq_refl) as Hmax.
  cbn [drop] in Hmax. change (Z.of_nat 0) with 0 in Hmax.
  rewrite Hmax. clear Hmax. cbn [mbind outcome_bind]. fold (max_id n2c).
  destruct (build_result_loop (length n2c) 0
              (replicate (Z.to_nat (max_id n2c + 1)) [])) as (r & Hr & Hl & Hm).
  - reflexivity.
  - apply length_replicate.
  - intros c Hc. rewrite length_replicate in Hc.
    now rewrite lookup_replicate_2 by assumption.
  - exists r. split; [exact Hr|]. split; [rewrite Hl; f_equal; lia|exact Hm].
Qed.

End BuildResult.

(** A vertex is a member of the community its entry names, of no other,
    and once. *)
Lemma members_spec (n2c : list Z) (c v : Z) :
  v ∈ members n2c c <->
  0 <= v < Z.of_nat (length n2c) /\ n2c !! Z.to_nat v = Some c.
Proof.
  unfold members, members_below.
  rewrite list_elem_of_filter, elem_of_seqZ. intuition lia.
Qed.

Lemma members_NoDup (n2c : list Z) (c : Z) : NoDup (members n2c c).
Proof. apply NoDup_filter, NoDup_seqZ. Qed.

(** On ids that are exactly 0, ..., k - 1, with a vertex at least, the
    result holds [k] communities, community [c] the vertices assigned to
    [c], and none of them is empty. *)
Lemma build_result_dense (n2c : list Z) (k : Z) (r : list Community) :
  dense_ids n2c k -> n2c <> [] -> build_result n2c = Ok r ->
  length r = Z.to_nat k /\
  forall c : nat, (c < Z.to_nat k)%nat ->
    r !! c = Some (members n2c (Z.of_nat c)) /\
    members n2c (Z.of_nat c) <> [].
Proof.
  intros Hdense Hne Hres.
  assert (Hnonneg : forall x, x ∈ n2c -> 0 <= x)
    by (intros x Hx; apply Hdense in Hx; lia).
  destruct (build_result_spec n2c Hnonneg) as (r' & Hr & Hlr & Hmem).
  assert (r' = r) as -> by congruence.
  destruct (max_id_spec n2c) as (Hmax0 & Hmax & Hmaxin).
  assert (Hk1 : 1 <= k).
  { destruct n2c as [|x l]; [congruence|].
    assert (Hx : x ∈ x :: l) by apply list_elem_of_here.
    apply Hdense in Hx. lia. }
  assert (Hmaxk : max_id n2c = k - 1).
  { assert (Hin : max_id n2c ∈ n2c).
    { destruct Hmaxin as [->|Hin]; [apply Hdense; lia|exact Hin]. }
    apply Hdense in Hin.
    assert (Hlast : k - 1 ∈ n2c) by (apply Hdense; lia).
    apply Hmax in Hlast. lia. }
  assert (Hlen : length r = Z.to_nat k) by (rewrite Hlr; f_equal; lia).
  split; [exact Hlen|].
  intros c Hc. split; [apply Hmem; lia|].
  assert (Hin : Z.of_nat c ∈ n2c) by (apply Hdense; lia).
  apply list_elem_of_lookup_1 in Hin as [v Hv].
  assert (Hmember : Z.of_nat v ∈ members n2c (Z.of_nat c)).
  { apply members_spec. rewrite Nat2Z.id. split; [|exact Hv].
    apply lookup_lt_Some in Hv. lia. }
  intros Hnil. rewrite Hnil in Hmember. now apply elem_of_nil in Hmember.
Qed.

(** ** The level loop *)

Lemma dense_rank_remove_dups (l : list Z) :
  ids_in_range l ->
  dense_rank l (Z.of_nat (length l)) = Z.of_nat (length (remove_dups l)).
Proof.
  intros Hrange. unfold dense_rank. f_equal. apply Permutation_length.
  apply NoDup_Permutation.
  - apply NoDup_filter, NoDup_seqZ.
  - apply NoDup_remove_dups.
  - intros x. rewrite list_elem_of_filter, elem_of_seqZ, elem_of_remove_dups.
    split; [tauto|]. intros Hx. specialize (Hrange x Hx). split; [exact Hx|lia].
Qed.

(** Dense ids are as many as there are distinct ids. *)
Lemma dense_ids_count (l : list Z) (k : Z) :
  0 <= k -> dense_ids l k -> Z.of_nat (length (remove_dups l)) = k.
Proof.
  intros Hk Hdense.
  rewrite <- (Z2Nat.id k) at 1 by assumption. f_equal.
  rewrite <- (length_seqZ 0 k). apply Permutation_length.
  apply NoDup_Permutation.
  - apply NoDup_remove_dups.
  - apply NoDup_seqZ.
  - intros x. rewrite elem_of_remove_dups, elem_of_seqZ, (Hdense x). lia.
Qed.

Section Levels.

Context `{Env : Collaborators}.

Lemma select_best_loop_Ok (modularities : list D) (n i b : nat) :
  (b < i)%nat -> (i + n)%nat = length modularities ->
  exists b',
    for_loop n (Z.of_nat i) (select_best_step modularities) (Z.of_nat b) =
      Ok (Z.of_nat b') /\
    (b' < length modularities)%nat.
Proof.
  revert i b. induction n as [|n IH]; intros i b Hbi Hlen.
  - exists b. split; [reflexivity|lia].
  - destruct (lookup_lt_is_Some_2 modularities i) as [m Hm]; [lia|].
    destruct (lookup_lt_is_Some_2 modularities b) as [mb Hb]; [lia|].
    rewrite for_loop_S, (select_best_step_Ok _ _ _ _ _ Hm Hb).
    cbn [mbind outcome_bind].
    destruct (gtb m mb); apply IH; lia.
Qed.

Lemma select_best_Ok (modularities : list D) :
  length modularities = Z.to_nat parallelism ->
  exists b, select_best modularities = Ok (Z.of_nat b) /\
            (b < Z.to_nat parallelism)%nat.
Proof.
  intros Hlen. unfold select_best. rewrite <- Hlen.
  apply (select_best_loop_Ok modularities (Z.to_nat (parallelism - 1)) 1 0).
  - lia.
  - rewrite Hlen. reflexivity.
Qed.

Lemma lookup_attempts {A : Type} (f : Z -> A) (i : nat) :
  (i < Z.to_nat parallelism)%nat ->
  (f <$> seqZ 0 parallelism) !! i = Some (f (Z.of_nat i)).
Proof.
  intros Hi. rewrite list_lookup_fmap, lookup_seqZ_lt by lia.
  cbn. now rewrite Z.add_0_l.
Qed.

Hypothesis contract : partition_contract.

Lemma attempt_n2c_range (s : eval_state) (i : Z) :
  ids_in_range (Partition_n2c (attempt s i).2).
Proof.
  intros c Hc. unfold attempt in *.
  rewrite (n2c_length contract). now apply (n2c_range contract) in Hc.
Qed.

(** One pass of the loop body from a state that satisfies the invariant:
    the winner is the attempt [select_best] names, the flag is the one its
    [one_level] returned, the next graph is its aggregated graph, and
    [n2c] is composed with its assignment and renumbered. *)
Lemma level_body_spec (s : eval_state) :
  level_invariant s ->
  exists best s',
    (best < Z.to_nat parallelism)%nat /\
    select_best ((fun i => modularity (attempt s i).2) <$> seqZ 0 parallelism)
      = Ok (Z.of_nat best) /\
    level_body s = Ok ((attempt s (Z.of_nat best)).1, s') /\
    st_g s' = partition2graph (attempt s (Z.of_nat best)).2 /\
    st_p s' = replicate (Z.to_nat parallelism) (Partition_new (st_g s')) /\
    st_n2c s' =
      (fun old =>
         dense_rank (Partition_n2c (attempt s (Z.of_nat best)).2)
           (Partition_n2c (attempt s (Z.of_nat best)).2 !!! Z.to_nat old))
      <$> st_n2c s /\
    st_improvements s' = (fun i => (attempt s i).1) <$> seqZ 0 parallelism /\
    st_modularities s' =
      (fun i => modularity (attempt s i).2) <$> seqZ 0 parallelism /\
    st_level s' = st_level s + 1.
Proof.
  intros Hinv.
  destruct (select_best_Ok
              ((fun i => modularity (attempt s i).2) <$> seqZ 0 parallelism))
    as (best & Hbest & Hlt); [now rewrite length_fmap, length_seqZ|].
  exists best. eexists. split; [exact Hlt|]. split; [exact Hbest|].
  split.
  - unfold level_body. rewrite (run_attempts_fresh s Hinv).
    cbn [mbind outcome_bind]. rewrite Hbest. cbn [mbind outcome_bind].
    rewrite (vec_get_lookup _ _ _ (lookup_attempts _ best Hlt)).
    cbn [mbind outcome_bind].
    rewrite (vec_get_lookup _ _ _ (lookup_attempts _ best Hlt)).
    cbn [mbind outcome_bind].
    rewrite renumber_communities_spec; [reflexivity|apply attempt_n2c_range|].
    intros x Hx. apply (inv_dense s Hinv) in Hx.
    unfold attempt. now rewrite (n2c_length contract).
  - repeat split; reflexivity.
Qed.

(** The invariant passes from the state before a level to the state
    after it, and [n2c] keeps its length. *)
Lemma level_body_invariant (s s' : eval_state) (improvement : bool) :
  level_invariant s -> level_body s = Ok (improvement, s') ->
  level_invariant s' /\ length (st_n2c s') = length (st_n2c s).
Proof.
  intros Hinv Hbody.
  destruct (level_body_spec s Hinv)
    as (best & t & Hlt & _ & Hspec & Hg & Hp & Hn & Hi & Hm & _).
  assert (t = s') as -> by congruence.
  split; [|rewrite Hn; apply length_fmap].
  split.
  - exact Hp.
  - now rewrite Hi, length_fmap, length_seqZ.
  - now rewrite Hm, length_fmap, length_seqZ.
  - rewrite Hn, Hg. unfold attempt at 3. rewrite (aggregated_nodes contract).
    fold (attempt s (Z.of_nat best)).
    rewrite <- dense_rank_remove_dups by apply attempt_n2c_range.
    apply renumber_communities_dense; [apply attempt_n2c_range|].
    unfold attempt at 1. rewrite (n2c_length contract).
    apply (inv_dense s Hinv).
Qed.

Lemma level_body_Ok (s : eval_state) :
  level_invariant s -> exists improvement s', level_body s = Ok (improvement, s').
Proof.
  intros Hinv.
  destruct (level_body_spec s Hinv) as (best & s' & _ & _ & Hspec & _).
  eauto.
Qed.

Lemma initial_state_invariant (g : Graph) :
  level_invariant (initial_state g) /\
  Z.of_nat (length (st_n2c (initial_state g))) = nb_nodes g.
Proof.
  pose proof (nb_nodes_nonneg contract g) as Hg.
  split; [split|]; cbn; rewrite ?length_replicate, ?length_seqZ;
    try reflexivity; [|lia].
  intros c. rewrite elem_of_seqZ. lia.
Qed.

Lemma reachable_invariant (s s' : eval_state) :
  reachable s s' -> level_invariant s ->
  level_invariant s' /\ length (st_n2c s') = length (st_n2c s).
Proof.
  induction 1 as [s|s s' s'' improvement Hreach IH Hbody]; intros Hinv.
  - auto.
  - destruct (IH Hinv) as [Hinv' Hlen].
    destruct (level_body_invariant _ _ _ Hinv' Hbody) as [Hinv'' Hlen'].
    split; [exact Hinv''|congruence].
Qed.

Lemma reachable_level_first (s s' s'' : eval_state) (improvement : bool) :
  level_body s = Ok (improvement, s') -> reachable s' s'' -> reachable s s''.
Proof.
  intros Hbody. induction 1 as [s'|s' t t' imp Hreach IH Hb].
  - eapply reachable_level; [apply reachable_here|exact Hbody].
  - eapply reachable_level; [apply IH; exact Hbody|exact Hb].
Qed.

(** The loop ends in a state it passes through. *)
Lemma level_loop_reachable (fuel : nat) (s s' : eval_state) :
  level_loop fuel s = Some (Ok s') -> reachable s s'.
Proof.
  revert s. induction fuel as [|fuel IH]; intros s; [discriminate|].
  cbn [level_loop].
  destruct (level_body s) as [[improvement t]| | |] eqn:Hbody;
    try discriminate.
  destruct improvement.
  - intros H. eapply reachable_level_first; [exact Hbody|]. now apply IH.
  - intros [= <-]. eapply reachable_level; [apply reachable_here|exact Hbody].
Qed.

(** From a state that satisfies the invariant the loop does not fail. *)
Lemma level_loop_no_failure (fuel : nat) (s : eval_state) :
  level_invariant s ->
  level_loop fuel s = None \/ exists s', level_loop fuel s = Some (Ok s').
Proof.
  revert s. induction fuel as [|fuel IH]; intros s Hinv; [now left|].
  cbn [level_loop].
  destruct (level_body_Ok s Hinv) as (improvement & s' & Hbody).
  rewrite Hbody. destruct improvement; [|eauto].
  apply IH. eapply level_body_invariant; eassumption.
Qed.

End Levels.

(** ** The evaluator *)

Section Evaluator.

Context `{Env : Collaborators}.

Lemma evaluateGraph_Ok (fuel : nat) (g : Graph) (result : list Community) :
  evaluateGraph fuel g = Some (Ok result) ->
  exists s, evaluate_levels fuel g = Some (Ok s) /\
            build_result (st_n2c s) = Ok result.
Proof.
  unfold evaluateGraph.
  destruct (evaluate_levels fuel g) as [[s| | |]|]; try discriminate.
  cbn [mbind outcome_bind]. intros [= Hres]. eauto.
Qed.

Lemma level_body_level (s s' : eval_state) (improvement : bool) :
  level_body s = Ok (improvement, s') -> st_level s' = st_level s + 1.
Proof.
  unfold level_body.
  destruct (run_attempts _ _) as [[[p improvements] modularities]| | |];
    try discriminate.
  cbn [mbind outcome_bind].
  destruct (select_best modularities) as [best| | |]; try discriminate.
  cbn [mbind outcome_bind].
  destruct (vec_get improvements best); try discriminate.
  cbn [mbind outcome_bind].
  destruct (vec_get p best); try discriminate.
  cbn [mbind outcome_bind].
  destruct (renumber_communities _ _); try discriminate.
  cbn [mbind outcome_bind].
  intros H. assert (Hs : s' = mkEvalState (partition2graph a0)
    (replicate (Z.to_nat parallelism) (Partition_new (partition2graph a0)))
    a1 improvements modularities (st_level s + 1)) by congruence.
  now rewrite Hs.
Qed.

Lemma improving_level (n : nat) (s s' : eval_state) :
  improving n s s' -> st_level s' = st_level s + Z.of_nat n.
Proof.
  induction 1 as [s|n s s' s'' Hbody _ IH]; [lia|].
  rewrite IH, (level_body_level _ _ _ Hbody). lia.
Qed.

(** After [n] improving passes and one that is not, the loop has ended,
    given fuel for [n + 1] passes, and not with less. *)
Lemma level_loop_improving (n : nat) (s sn s' : eval_state) :
  improving n s sn -> level_body sn = Ok (false, s') ->
  (forall fuel, (n < fuel)%nat -> level_loop fuel s = Some (Ok s')) /\
  (forall fuel, (fuel <= n)%nat -> level_loop fuel s = None).
Proof.
  intros Himp Hlast. induction Himp as [s|n s t sn Hbody Himp IH].
  - split; intros [|fuel] Hfuel; try lia; [|reflexivity].
    cbn [level_loop]. now rewrite Hlast.
  - destruct (IH Hlast) as [IHrun IHnone].
    split; intros [|fuel] Hfuel; try lia; try reflexivity;
      cbn [level_loop]; rewrite Hbody.
    + apply IHrun. lia.
    + apply IHnone. lia.
Qed.

(** When the loop has ended, it has made some improving passes and one
    that was not. *)
Lemma level_loop_inv (fuel : nat) (s s' : eval_state) :
  level_loop fuel s = Some (Ok s') ->
  exists n sn, (n < fuel)%nat /\ improving n s sn /\
               level_body sn = Ok (false, s').
Proof.
  revert s. induction fuel as [|fuel IH]; intros s; [discriminate|].
  cbn [level_loop].
  destruct (level_body s) as [[improvement t]| | |] eqn:Hbody;
    try discriminate.
  destruct improvement.
  - intros H. destruct (IH _ H) as (n & sn & Hn & Himp & Hlast).
    exists (S n), sn. split; [lia|]. split; [|exact Hlast].
    eapply improving_S; eassumption.
  - intros [= <-]. exists 0%nat, s. split; [lia|].
    split; [constructor|exact Hbody].
Qed.

Lemma improving_reachable (n : nat) (s s' : eval_state) :
  improving n s s' -> reachable s s'.
Proof.
  induction 1 as [s|n s s' s'' Hbody _ IH]; [constructor|].
  eapply reachable_level_first; eassumption.
Qed.

Hypothesis contract : partition_contract.

Lemma reachable_initial (g : Graph) (s : eval_state) :
  reachable (initial_state g) s ->
  level_invariant s /\ Z.of_nat (length (st_n2c s)) = nb_nodes g.
Proof.
  intros Hreach.
  destruct (initial_state_invariant contract g) as [Hinv Hlen].
  destruct (reachable_invariant contract _ _ Hreach Hinv) as [Hinv' Hlen'].
  split; [exact Hinv'|]. now rewrite Hlen'.
Qed.


(** C6: the loop runs exactly as long as the winner of the level reports
    an improvement.  From the state [evaluateGraph] starts in, [n]
    improving levels followed by one that is not end the loop after
    [n + 1] levels, and a loop that has ended has run that way; the flag
    of a level is what [one_level] returned for the attempt [select_best]
    names; and on a graph on which no attempt improves the loop ends
    after exactly one level. *)
Theorem loop_runs_while_winner_improves (g : Graph) :
  (forall n sn s',
     improving n (initial_state g) sn -> level_body sn = Ok (false, s') ->
     (forall fuel, (n < fuel)%nat -> evaluate_levels fuel g = Some (Ok s')) /\
     (forall fuel, (fuel <= n)%nat -> evaluate_levels fuel g = None) /\
     st_level s' = Z.of_nat n + 1) /\
  (forall fuel s',
     evaluate_levels fuel g = Some (Ok s') ->
     exists n sn, (n < fuel)%nat /\ improving n (initial_state g) sn /\
                  level_body sn = Ok (false, s')) /\
  (forall s improvement s',
     reachable (initial_state g) s ->
     level_body s = Ok (improvement, s') ->
     exists best,
       select_best
         ((fun i => modularity (attempt s i).2) <$> seqZ 0 parallelism)
         = Ok best /\
       improvement = (attempt s best).1) /\
  ((forall level i, (one_level level i (Partition_new g)).1 = false) ->
   forall fuel, (0 < fuel)%nat ->
     exists s', evaluate_levels fuel g = Some (Ok s') /\ st_level s' = 1).
Proof.
  split; [|split; [|split]].
  - intros n sn s' Himp Hlast.
    destruct (level_loop_improving n _ sn s' Himp Hlast) as [Hrun Hnone].
    split; [exact Hrun|]. split; [exact Hnone|].
    rewrite (level_body_level _ _ _ Hlast), (improving_level _ _ _ Himp).
    cbn. lia.
  - intros fuel s'. apply level_loop_inv.
  - intros s improvement s' Hreach Hbody.
    destruct (reachable_initial g s Hreach) as [Hinv _].
    destruct (level_body_spec contract s Hinv)
      as (best & t & _ & Hbest & Hspec & _).
    exists (Z.of_nat best). split; [exact Hbest|]. congruence.
  - intros Hnone fuel Hfuel.
    destruct (initial_state_invariant contract g) as [Hinv _].
    destruct (level_body_spec contract _ Hinv)
      as (best & t & _ & _ & Hspec & _ & _ & _ & _ & _ & Hlevel).
    unfold attempt in Hspec. cbn [st_level st_g initial_state] in Hspec.
    rewrite Hnone in Hspec.
    exists t. split; [|exact Hlevel].
    destruct (level_loop_improving 0 _ _ t (improving_O _) Hspec)
      as [Hrun _].
    apply Hrun. exact Hfuel.
Qed.

(** C10: when [evaluateGraph] returns, it returns one community object per
    id from 0 to the largest id of the final node-to-community vector,
    which has one entry per original vertex; community [c] holds the
    vertices whose entry is [c], each once, so that every vertex is in the
    community its entry names and in no other; and [evaluateGraph] does
    not fail. *)
Theorem result_groups_vertices_by_id (fuel : nat) (g : Graph) :
  (evaluateGraph fuel g = None \/
   exists result, evaluateGraph fuel g = Some (Ok result)) /\
  forall result,
    evaluateGraph fuel g = Some (Ok result) ->
    exists s,
      evaluate_levels fuel g = Some (Ok s) /\
      Z.of_nat (length (st_n2c s)) = nb_nodes g /\
      length result = Z.to_nat (1 + max_id (st_n2c s)) /\
      (forall x, x ∈ st_n2c s -> x <= max_id (st_n2c s)) /\
      (st_n2c s <> [] -> max_id (st_n2c s) ∈ st_n2c s) /\
      (forall c comm, result !! c = Some comm ->
                      comm = members (st_n2c s) (Z.of_nat c) /\ NoDup comm) /\
      (forall v, 0 <= v < nb_nodes g ->
         exists c comm,
           st_n2c s !! Z.to_nat v = Some (Z.of_nat c) /\
           result !! c = Some comm /\ v ∈ comm /\
           forall c' comm', result !! c' = Some comm' -> v ∈ comm' -> c' = c).
Proof.
  assert (Hbuild : forall s, evaluate_levels fuel g = Some (Ok s) ->
            level_invariant s /\
            Z.of_nat (length (st_n2c s)) = nb_nodes g /\
            exists r, build_result (st_n2c s) = Ok r /\
              length r = Z.to_nat (1 + max_id (st_n2c s)) /\
              forall c, (c < length r)%nat ->
                r !! c = Some (members (st_n2c s) (Z.of_nat c))).
  { intros s Hrun. apply level_loop_reachable in Hrun.
    destruct (reachable_initial g s Hrun) as [Hinv Hlen].
    split; [exact Hinv|]. split; [exact Hlen|].
    apply build_result_spec. intros x Hx.
    now apply (inv_dense s Hinv) in Hx. }
  unfold evaluateGraph. split.
  - destruct (level_loop_no_failure contract fuel (initial_state g))
      as [Hnone|[s Hs]]; [apply (initial_state_invariant contract)| |].
    + left. unfold evaluate_levels. now rewrite Hnone.
    + right. unfold evaluate_levels in *. rewrite Hs.
      destruct (Hbuild s Hs) as (_ & _ & r & Hr & _).
      exists r. cbn [mbind outcome_bind]. now rewrite Hr.
  - intros result Hresult.
    destruct (evaluate_levels fuel g) as [[s| | |]|] eqn:Hrun; try discriminate.
    cbn [mbind outcome_bind] in Hresult.
    destruct (Hbuild s eq_refl) as (Hinv & Hlen & r & Hr & Hrlen & Hmem).
    assert (r = result) as -> by congruence.
    exists s. split; [reflexivity|]. split; [exact Hlen|].
    split; [exact Hrlen|].
    destruct (max_id_spec (st_n2c s)) as (Hmax0 & Hmax & Hmaxin).
    split; [exact Hmax|].
    split.
    { intros Hne. destruct Hmaxin as [H0|Hin]; [|exact Hin].
      rewrite H0. destruct (st_n2c s) as [|x l] eqn:El; [contradiction|].
      assert (Hx : x ∈ x :: l) by apply list_elem_of_here.
      rewrite <- El in *. apply (inv_dense s Hinv) in Hx.
      apply (inv_dense s Hinv). lia. }
    split.
    { intros c comm Hc. pose proof (lookup_lt_Some _ _ _ Hc) as Hclt.
      pose proof (Hmem c Hclt) as Hm.
      assert (comm = members (st_n2c s) (Z.of_nat c)) as ->
        by exact (lookup_unique _ _ _ _ Hc Hm).
      split; [reflexivity|apply members_NoDup]. }
    intros v Hv.
    destruct (lookup_lt_is_Some_2 (st_n2c s) (Z.to_nat v)) as [c Hc]; [lia|].
    pose proof (list_elem_of_lookup_2 _ _ _ Hc) as Hin.
    pose proof (Hmax _ Hin) as Hcmax.
    apply (inv_dense s Hinv) in Hin.
    assert (Hclt : (Z.to_nat c < length result)%nat) by lia.
    exists (Z.to_nat c), (members (st_n2c s) c).
    rewrite Z2Nat.id by lia.
    split; [exact Hc|].
    split.
    { pose proof (Hmem _ Hclt) as Hm. rewrite Z2Nat.id in Hm by lia.
      exact Hm. }
    split; [apply members_spec; split; [lia|exact Hc]|].
    intros c' comm' Hc' Hvin.
    pose proof (lookup_lt_Some _ _ _ Hc') as Hc'lt.
    pose proof (Hmem c' Hc'lt) as Hm.
    assert (comm' = members (st_n2c s) (Z.of_nat c')) as ->
      by exact (lookup_unique _ _ _ _ Hc' Hm).
    apply members_spec in Hvin as [_ Hvc]. rewrite Hc in Hvc.
    injection Hvc as ->. lia.
Qed.

Hypothesis order : modularity_order.

(** C5: at every level the winner is the attempt [select_best] names: no
    attempt of the level has a modularity above the winner's, and the
    winner's modularity is above that of every attempt with a lower
    index, so that among attempts that tie on the highest modularity the
    one with the lowest index wins; the winner's aggregated graph and its
    improvement flag are what the level hands on. *)
Theorem winner_has_highest_modularity (g : Graph)
    (s s' : eval_state) (improvement : bool) :
  reachable (initial_state g) s ->
  level_body s = Ok (improvement, s') ->
  exists best,
    0 <= best < parallelism /\
    select_best ((fun i => modularity (attempt s i).2) <$> seqZ 0 parallelism)
      = Ok best /\
    st_g s' = partition2graph (attempt s best).2 /\
    improvement = (attempt s best).1 /\
    (forall j, 0 <= j < parallelism ->
       gtb (modularity (attempt s j).2) (modularity (attempt s best).2)
         = false) /\
    (forall j, 0 <= j < best ->
       gtb (modularity (attempt s best).2) (modularity (attempt s j).2)
         = true).
Proof.
  intros Hreach Hbody.
  destruct (reachable_initial g s Hreach) as [Hinv _].
  destruct (level_body_spec contract s Hinv)
    as (best' & t & _ & Hbest' & Hspec & Hg & _).
  assert (t = s') as -> by congruence.
  destruct (select_best_first_maximum order
              ((fun i => modularity (attempt s i).2) <$> seqZ 0 parallelism))
    as (best & Hbest & Hlt & Hmax & Hfirst);
    [now rewrite length_fmap, length_seqZ|].
  rewrite length_fmap, length_seqZ in Hlt.
  assert (best' = best) as -> by (rewrite Hbest in Hbest'; injection Hbest'; lia).
  exists (Z.of_nat best). split; [unfold parallelism in *; lia|].
  split; [exact Hbest|]. split; [exact Hg|]. split; [congruence|].
  split.
  - intros j Hj.
    apply (Hmax (Z.to_nat j)).
    + rewrite lookup_attempts by lia. now rewrite Z2Nat.id by lia.
    + now rewrite lookup_attempts by lia.
  - intros j Hj.
    apply (Hfirst (Z.to_nat j)); [lia| |].
    + rewrite lookup_attempts by lia. now rewrite Z2Nat.id by lia.
    + now rewrite lookup_attempts by lia.
Qed.

End Evaluator.

(** ** The evaluator on complete graphs *)

Lemma complete_graphs_contract : @partition_contract complete_graphs.
Proof.
  constructor; cbn -[replicate seqZ length remove_dups Nat.ltb].
  - intros g. lia.
  - intros g _ _. destruct (1 <? g)%nat;
      [now rewrite length_replicate|rewrite length_seqZ; lia].
  - intros g _ _ c. destruct (Nat.ltb_spec 1 g) as [Hg|Hg].
    + intros Hc. apply elem_of_replicate in Hc. lia.
    + rewrite elem_of_seqZ. lia.
  - intros g _ _. destruct (Nat.ltb_spec 1 g) as [Hg|Hg].
    + symmetry. apply (dense_ids_count _ 1); [lia|].
      intros c. rewrite elem_of_replicate. lia.
    + symmetry. apply dense_ids_count; [lia|].
      intros c. rewrite elem_of_seqZ. lia.
Qed.

Lemma complete_graphs_order : @modularity_order complete_graphs.
Proof. constructor; cbn; intros; lia. Qed.


Lemma loop_runs_while_winner_improves_witness :
  exists s',
    evaluate_levels 1 single_node = Some (Ok s') /\ st_level s' = 1.
Proof.
  destruct (loop_runs_while_winner_improves complete_graphs_contract
              single_node) as (_ & _ & _ & Hnone).
  apply Hnone.
  - intros level i. reflexivity.
  - lia.
Defined.

Lemma result_groups_vertices_by_id_witness :
  exists s,
    evaluate_levels 5 triangle = Some (Ok s) /\
    length [[0; 1; 2]] = Z.to_nat (1 + max_id (st_n2c s)).
Proof.
  destruct (result_groups_vertices_by_id complete_graphs_contract 5 triangle)
    as [_ Hresult].
  destruct (Hresult [[0; 1; 2]]) as (s & Hs & _ & Hlen & _).
  - vm_compute. reflexivity.
  - exists s. split; [exact Hs|exact Hlen].
Defined.

Lemma winner_has_highest_modularity_witness :
  exists s' best,
    level_body (initial_state triangle) = Ok (true, s') /\
    0 <= best < parallelism /\
    st_g s' = partition2graph (attempt (initial_state triangle) best).2 /\
    forall j, 0 <= j < best ->
      gtb (modularity (attempt (initial_state triangle) best).2)
          (modularity (attempt (initial_state triangle) j).2) = true.
Proof.
  eexists.
  assert (Hbody : level_body (initial_state triangle) = Ok (true, _))
    by (vm_compute; reflexivity).
  destruct (winner_has_highest_modularity complete_graphs_contract
              complete_graphs_order triangle _ _ true
              (reachable_here _) Hbody)
    as (best & Hrange & _ & Hg & _ & _ & Hfirst).
  exists best. split; [exact Hbody|]. split; [exact Hrange|].
  split; [exact Hg|exact Hfirst].
Defined.

(** ** Runs on concrete inputs *)

(** Five vertices, each its own community, through an assignment that uses
    the communities 0, 3 and 4: they become 0, 1 and 2. *)
Example renumber_communities_run :
  renumber_communities [0; 1; 2; 3; 4] [3; 3; 0; 4; 0] = Ok [1; 1; 0; 2; 0].
Proof. reflexivity. Qed.

Example build_result_run :
  build_result [1; 1; 0; 2; 0] = Ok [[2; 4]; [0; 1]; [3]].
Proof. reflexivity. Qed.

(** On the complete graph of three nodes the first level gathers the
    nodes, the second finds nothing to improve: two levels, one community
    with the three vertices. *)
Example evaluateGraph_triangle :
  evaluateGraph 5 triangle = Some (Ok [[0; 1; 2]]) /\
  evaluateGraph 1 triangle = None /\
  (exists s, evaluate_levels 2 triangle = Some (Ok s) /\ st_level s = 2).
Proof.
  split; [reflexivity|]. split; [reflexivity|].
  eexists. split; [vm_compute; reflexivity|reflexivity].
Qed.

Example normalize_run :
  normalize Z_numeric profile_7_4_9 = Ok (mkVertexInfo 3 [3; 0; 5] [1; 2; 3]).
Proof. reflexivity. Qed.

(** Lengths of type [int] whose difference is outside the range: the
    largest [int] and -1.  The minimum is -1, the first length becomes the
    least [int], and that is the minimum after [normalize]. *)
Example normalize_int_extremes_run :
  normalize int_numeric profile_int_extremes =
    Ok (mkVertexInfo 2 [-2147483648; 0] [0; 0]) /\
  getMinBorderSPLength int_numeric
    (mkVertexInfo 2 [-2147483648; 0] [0; 0] : VertexInfo Z Z) =
    Ok (-2147483648).
Proof. split; reflexivity. Qed.

Example compare_run :
  compare Z_numeric Z_numeric id profile_0_0 profile_length_then_count
    = Ok (-5) /\
  op_lt Z_numeric Z_numeric id profile_0_0 profile_length_then_count
    = Ok true.
Proof. split; reflexivity. Qed.

(** A quotient by a zero entry has no value. *)
Example div_assign_run :
  div_assign Z_numeric Z_numeric profile_7_4_9 profile_wide =
    Ok (mkVertexInfo 3 [0; 0; 0] [1; 2; 3]) /\
  div_assign Z_numeric Z_numeric profile_7_4_9 (reset Z_numeric Z_numeric profile_wide)
    = NoQuotient.
Proof. split; reflexivity. Qed.

(* ===================================================================== *)
(** * Part III: further properties of the code *)
(* ===================================================================== *)

(** ** The class invariant and the accessors *)

Lemma vec_set_Ok {A : Type} (v v' : list A) (i : Z) (x : A) :
  vec_set v i x = Ok v' ->
  0 <= i /\ (Z.to_nat i < length v)%nat /\ v' = <[Z.to_nat i := x]> v.
Proof.
  unfold vec_set. destruct (Z.ltb_spec i 0); [discriminate|].
  destruct (Nat.ltb_spec (Z.to_nat i) (length v)); [|discriminate].
  intros [= <-]. auto.
Qed.

Lemma vec_set_Ok_length {A : Type} (v v' : list A) (i : Z) (x : A) :
  vec_set v i x = Ok v' -> length v' = length v.
Proof.
  intros H. apply vec_set_Ok in H as (_ & _ & ->). apply length_insert.
Qed.

Lemma vec_get_in_range {A : Type} (v : list A) (i : Z) :
  0 <= i < Z.of_nat (length v) ->
  exists x, v !! Z.to_nat i = Some x /\ vec_get v i = Ok x.
Proof.
  intros Hi. destruct (lookup_lt_is_Some_2 v (Z.to_nat i)) as [x Hx]; [lia|].
  exists x. split; [exact Hx|]. apply vec_get_Z; [lia|exact Hx].
Qed.

Lemma min_element_replicate {W : Type} (NW : numeric W) (n : nat) (z : W) :
  min_element NW z (replicate n z) = z.
Proof.
  induction n as [|n IH]; [reflexivity|].
  cbn [replicate min_element]. now destruct (n_ltb NW z z).
Qed.

Section Invariant.

Context {V W : Type}.
Variable NV : numeric V.
Variable NW : numeric W.

Lemma elementwise_step_wf
    (opW : W -> W -> option W) (opV : V -> V -> option V)
    (other t t' : VertexInfo V W) (j : Z) (n : Z) :
  elementwise_step opW opV other j t = Ok t' ->
  wf t /\ _borderCount t = n -> wf t' /\ _borderCount t' = n.
Proof.
  intros Hstep [[Hl Hc] Hn]. unfold elementwise_step in Hstep.
  destruct (vec_get (_borderSPLength t) j); try discriminate.
  destruct (vec_get (_borderSPLength other) j); try discriminate.
  cbn [mbind outcome_bind] in Hstep.
  destruct (opW _ _) as [z|]; try discriminate.
  destruct (vec_set (_borderSPLength t) j z) as [l| | |] eqn:El;
    try discriminate.
  destruct (vec_get (_borderSPCount t) j); try discriminate.
  destruct (vec_get (_borderSPCount other) j); try discriminate.
  cbn [mbind outcome_bind] in Hstep.
  destruct (opV _ _) as [d|]; try discriminate.
  destruct (vec_set (_borderSPCount t) j d) as [c| | |] eqn:Ec;
    try discriminate.
  cbn [mbind outcome_bind] in Hstep. injection Hstep as <-.
  apply vec_set_Ok_length in El, Ec.
  repeat split; cbn; congruence.
Qed.

(** X1: the class invariant.  A constructed profile has its two vectors
    of the width asked for, and a negative width is refused; the setters,
    [normalize], [reset] and the compound assignments with a profile,
    when they complete, leave both vectors at the width of the profile,
    which they do not change. *)
Theorem invariant_kept (p q : VertexInfo V W) :
  wf p ->
  (forall n, construct NV NW n = None <-> n < 0) /\
  (forall n p0, construct NV NW n = Some p0 -> wf p0 /\ borders p0 = n) /\
  (forall i x p',
     setBorderSPLength p i x = Ok p' -> wf p' /\ borders p' = borders p) /\
  (forall i a p',
     setBorderSPCount p i a = Ok p' -> wf p' /\ borders p' = borders p) /\
  (forall p', normalize NW p = Ok p' -> wf p' /\ borders p' = borders p) /\
  (wf (reset NV NW p) /\ borders (reset NV NW p) = borders p) /\
  (forall opW opV r,
     elementwise opW opV p q = Ok r -> wf r /\ borders r = borders p).
Proof.
  intros Hwf. pose proof Hwf as [Hl Hc]. unfold borders.
  split; [|split; [|split; [|split; [|split; [|split]]]]].
  - intros n. unfold construct. destruct (Z.ltb_spec n 0); split;
      (discriminate || lia || reflexivity).
  - intros n p0. unfold construct. destruct (Z.ltb_spec n 0);
      [discriminate|]. intros [= <-].
    split; [split|]; cbn; rewrite ?length_replicate; lia.
  - intros i x p'. unfold setBorderSPLength.
    destruct (i <? _borderCount p); [|discriminate].
    destruct (vec_set _ i x) as [l| | |] eqn:El; try discriminate.
    cbn [mbind outcome_bind]. intros [= <-].
    apply vec_set_Ok_length in El. repeat split; cbn; congruence.
  - intros i a p'. unfold setBorderSPCount.
    destruct (i <? _borderCount p); [|discriminate].
    destruct (vec_set _ i a) as [c| | |] eqn:Ec; try discriminate.
    cbn [mbind outcome_bind]. intros [= <-].
    apply vec_set_Ok_length in Ec. repeat split; cbn; congruence.
  - intros p'. unfold normalize, for_range.
    destruct (getMinBorderSPLength NW p) as [m| | |]; try discriminate.
    cbn [mbind outcome_bind].
    apply (for_loop_invariant
             (fun t => wf t /\ _borderCount t = _borderCount p));
      [|split; [exact Hwf|reflexivity]].
    intros j t t' Hstep [[Htl Htc] Hn].
    destruct (vec_get (_borderSPLength t) j) as [x| | |];
      try discriminate.
    cbn [mbind outcome_bind] in Hstep.
    destruct (vec_set (_borderSPLength t) j _) as [l| | |] eqn:El;
      try discriminate.
    cbn [mbind outcome_bind] in Hstep. injection Hstep as <-.
    apply vec_set_Ok_length in El. repeat split; cbn; congruence.
  - split; [split|]; cbn; rewrite ?length_replicate; lia.
  - intros opW opV r. unfold elementwise, for_range.
    apply (for_loop_invariant
             (fun t => wf t /\ _borderCount t = _borderCount p));
      [|split; [exact Hwf|reflexivity]].
    intros j t t'. apply elementwise_step_wf.
Qed.

(** X2: the accessors within the range.  On a profile of width [n] and
    for an index from 0 to [n - 1], [setBorderSPLength] succeeds and a
    following [getBorderSPLength] at that index returns the value set,
    while every other length and every count reads as before; likewise
    for the counts. *)
Theorem set_then_get (p : VertexInfo V W) (i : Z) (x : W) (a : V) :
  wf p -> 0 <= i < borders p ->
  (exists p',
     setBorderSPLength p i x = Ok p' /\
     getBorderSPLength p' i = Ok x /\
     (forall j, j <> i -> getBorderSPLength p' j = getBorderSPLength p j) /\
     (forall j, getBorderSPCount p' j = getBorderSPCount p j)) /\
  (exists p',
     setBorderSPCount p i a = Ok p' /\
     getBorderSPCount p' i = Ok a /\
     (forall j, j <> i -> getBorderSPCount p' j = getBorderSPCount p j) /\
     (forall j, getBorderSPLength p' j = getBorderSPLength p j)).
Proof.
  intros [Hl Hc] Hi. unfold borders in Hi.
  assert (Hget : forall (A : Type) (v : list A) (y : A) (j : Z),
            (Z.to_nat i < length v)%nat -> j <> i ->
            vec_get (<[Z.to_nat i := y]> v) j = vec_get v j).
  { intros A v y j Hlt Hne. unfold vec_get.
    destruct (Z.ltb_spec j 0); [reflexivity|].
    now rewrite list_lookup_insert_ne by lia. }
  assert (Hsame : forall (A : Type) (v : list A) (y : A),
            (Z.to_nat i < length v)%nat ->
            vec_get (<[Z.to_nat i := y]> v) i = Ok y).
  { intros A v y Hlt. apply vec_get_Z; [lia|].
    now apply list_lookup_insert_eq. }
  split.
  - exists (with_length p (<[Z.to_nat i := x]> (_borderSPLength p))).
    unfold setBorderSPLength, getBorderSPLength, getBorderSPCount.
    cbn [with_length _borderCount _borderSPLength _borderSPCount].
    destruct (Z.ltb_spec i (_borderCount p)); [|lia].
    rewrite vec_set_Z by lia. split; [reflexivity|].
    split; [apply Hsame; lia|]. split; [|reflexivity].
    intros j Hne. destruct (j <? _borderCount p); [|reflexivity].
    apply Hget; [lia|exact Hne].
  - exists (with_count p (<[Z.to_nat i := a]> (_borderSPCount p))).
    unfold setBorderSPCount, getBorderSPLength, getBorderSPCount.
    cbn [with_count _borderCount _borderSPLength _borderSPCount].
    destruct (Z.ltb_spec i (_borderCount p)); [|lia].
    rewrite vec_set_Z by lia. split; [reflexivity|].
    split; [apply Hsame; lia|]. split; [|reflexivity].
    intros j Hne. destruct (j <? _borderCount p); [|reflexivity].
    apply Hget; [lia|exact Hne].
Qed.

(** X3: a profile fresh from the constructor, and any profile after
    [reset], reads zero at every index within its width, for the lengths
    and for the counts, and has the minimum length zero; [reset] keeps the
    width and gives the profile the constructor gives for that width. *)
Theorem fresh_profile_is_zero (p : VertexInfo V W) (i : Z) :
  wf p -> 0 <= i < borders p ->
  construct NV NW (borders p) = Some (reset NV NW p) /\
  getBorderSPLength (reset NV NW p) i = Ok (n_zero NW) /\
  getBorderSPCount (reset NV NW p) i = Ok (n_zero NV) /\
  getMinBorderSPLength NW (reset NV NW p) = Ok (n_zero NW).
Proof.
  intros [Hl Hc] Hi. unfold borders in *.
  split.
  { unfold construct. destruct (Z.ltb_spec (_borderCount p) 0); [lia|].
    reflexivity. }
  unfold getBorderSPLength, getBorderSPCount, getMinBorderSPLength, reset.
  cbn [_borderCount _borderSPLength _borderSPCount].
  destruct (Z.ltb_spec i (_borderCount p)); [|lia].
  split; [|split].
  - apply vec_get_Z; [lia|]. apply lookup_replicate_2. lia.
  - apply vec_get_Z; [lia|]. apply lookup_replicate_2. lia.
  - destruct (Z.eqb_spec (_borderCount p) 0) as [_|Hne]; [reflexivity|].
    destruct (Z.to_nat (_borderCount p)) as [|k] eqn:Ek; [lia|].
    cbn [replicate]. now rewrite min_element_replicate.
Qed.

End Invariant.

(** ** The minimum, the empty profile and the narrower operand *)

Lemma vec_get_None {A : Type} (v : list A) (i : nat) :
  v !! i = None -> vec_get v (Z.of_nat i) = Undefined.
Proof.
  intros H. unfold vec_get.
  destruct (Z.ltb_spec (Z.of_nat i) 0); [reflexivity|].
  now rewrite Nat2Z.id, H.
Qed.

Section Edges.

Context {V W : Type}.
Variable NV : numeric V.
Variable NW : numeric W.
Variable castVW : V -> W.
Variable PD : promotion V W.


(** X5: nothing is read or written for a profile of width 0.  Its minimum
    is zero, [normalize] returns it unchanged, [compare] returns zero, the
    squared distance is zero and every compound assignment returns it
    unchanged, whatever the other operand is; every index from 0 on is
    answered by the out-of-range error. *)
Theorem zero_width_operations
    (p q : VertexInfo V W) (i : Z)
    (opW : W -> W -> option W) (opV : V -> V -> option V) :
  _borderCount p = 0 ->
  getMinBorderSPLength NW p = Ok (n_zero NW) /\
  normalize NW p = Ok p /\
  compare NV NW castVW p q = Ok (n_zero NW) /\
  squaredDistance NV NW PD id id p q = Ok (n_zero NW) /\
  elementwise opW opV p q = Ok p /\
  (0 <= i -> getBorderSPLength p i = OutOfRange /\
             getBorderSPCount p i = OutOfRange).
Proof.
  intros H0.
  unfold normalize, getMinBorderSPLength, compare, squaredDistance,
    elementwise, getBorderSPLength, getBorderSPCount, for_range.
  rewrite H0.
  split; [reflexivity|]. split; [reflexivity|]. split; [reflexivity|].
  split; [reflexivity|]. split; [reflexivity|].
  intros Hi. destruct (Z.ltb_spec i 0); [lia|]. split; reflexivity.
Qed.

Lemma elementwise_overrun
    (opW : W -> W -> option W) (opV : V -> V -> option V)
    (other : VertexInfo V W) (k n i : nat) (s : VertexInfo V W) :
  length (_borderSPLength other) = (i + k)%nat ->
  length (_borderSPCount other) = (i + k)%nat ->
  length (_borderSPLength s) = (i + n)%nat ->
  length (_borderSPCount s) = (i + n)%nat ->
  (k < n)%nat ->
  for_loop n (Z.of_nat i) (elementwise_step opW opV other) s = Undefined \/
  for_loop n (Z.of_nat i) (elementwise_step opW opV other) s = NoQuotient.
Proof.
  revert n i s. induction k as [|k IH]; intros n i s Hlo Hco Hl Hc Hk;
    destruct n as [|n]; try lia.
  - left. destruct (lookup_lt_is_Some_2 (_borderSPLength s) i) as [x Hx];
      [lia|].
    rewrite for_loop_S. unfold elementwise_step at 2.
    rewrite (vec_get_lookup _ _ _ Hx). cbn [mbind outcome_bind].
    rewrite (vec_get_None (_borderSPLength other))
      by (apply lookup_ge_None; lia).
    reflexivity.
  - destruct (lookup_lt_is_Some_2 (_borderSPLength s) i) as [x Hx]; [lia|].
    destruct (lookup_lt_is_Some_2 (_borderSPLength other) i) as [y Hy];
      [lia|].
    destruct (lookup_lt_is_Some_2 (_borderSPCount s) i) as [a Ha]; [lia|].
    destruct (lookup_lt_is_Some_2 (_borderSPCount other) i) as [b Hb];
      [lia|].
    rewrite for_loop_S,
      (elementwise_step_outcome opW opV i s other x y a b) by assumption.
    destruct (opW x y) as [z|]; [|now right].
    destruct (opV a b) as [d|]; [|now right].
    cbn [mbind outcome_bind].
    apply IH; cbn; rewrite ?length_insert; lia.
Qed.

Lemma vec_get_cases {A : Type} (v : list A) (i : Z) :
  vec_get v i = Undefined \/ exists x, vec_get v i = Ok x.
Proof.
  unfold vec_get. destruct (i <? 0); [now left|].
  destruct (v !! Z.to_nat i); eauto.
Qed.

Lemma vec_set_cases {A : Type} (v : list A) (i : Z) (x : A) :
  vec_set v i x = Undefined \/ exists v', vec_set v i x = Ok v'.
Proof.
  unfold vec_set. destruct (i <? 0); [now left|].
  destruct (Z.to_nat i <? length v)%nat; eauto.
Qed.

Lemma elementwise_total_loop_has_quotients
    (fW : W -> W -> W) (fV : V -> V -> V) (q : VertexInfo V W)
    (n : nat) (i : Z) (s : VertexInfo V W) :
  for_loop n i (elementwise_step (total fW) (total fV) q) s <> NoQuotient.
Proof.
  revert i s. induction n as [|n IH]; intros i s.
  - intros H. discriminate H.
  - cbn [for_loop]. unfold elementwise_step at 2.
    destruct (vec_get_cases (_borderSPLength s) i) as [->|[x ->]];
      cbn [mbind outcome_bind]; [intros H; discriminate H|].
    destruct (vec_get_cases (_borderSPLength q) i) as [->|[y ->]];
      cbn [mbind outcome_bind total]; [intros H; discriminate H|].
    destruct (vec_set_cases (_borderSPLength s) i (fW x y)) as [->|[l ->]];
      cbn [mbind outcome_bind]; [intros H; discriminate H|].
    destruct (vec_get_cases (_borderSPCount s) i) as [->|[a ->]];
      cbn [mbind outcome_bind]; [intros H; discriminate H|].
    destruct (vec_get_cases (_borderSPCount q) i) as [->|[b ->]];
      cbn [mbind outcome_bind total]; [intros H; discriminate H|].
    destruct (vec_set_cases (_borderSPCount s) i (fV a b)) as [->|[c ->]];
      cbn [mbind outcome_bind]; [intros H; discriminate H|].
    apply IH.
Qed.

Lemma squaredDistance_overrun
    (p other : VertexInfo V W) (k n i : nat) (acc : W) :
  length (_borderSPLength other) = (i + k)%nat ->
  length (_borderSPCount other) = (i + k)%nat ->
  length (_borderSPLength p) = (i + n)%nat ->
  length (_borderSPCount p) = (i + n)%nat ->
  (k < n)%nat ->
  for_loop n (Z.of_nat i)
    (squaredDistance_step NV NW PD id id p other) acc = Undefined.
Proof.
  revert n i acc. induction k as [|k IH]; intros n i acc Hlo Hco Hl Hc Hk;
    destruct n as [|n]; try lia.
  - destruct (lookup_lt_is_Some_2 (_borderSPLength p) i) as [x Hx]; [lia|].
    rewrite for_loop_S. unfold squaredDistance_step at 2.
    rewrite (vec_get_lookup _ _ _ Hx). cbn [mbind outcome_bind].
    rewrite (vec_get_None (_borderSPLength other))
      by (apply lookup_ge_None; lia).
    reflexivity.
  - destruct (lookup_lt_is_Some_2 (_borderSPLength p) i) as [x Hx]; [lia|].
    destruct (lookup_lt_is_Some_2 (_borderSPLength other) i) as [y Hy];
      [lia|].
    destruct (lookup_lt_is_Some_2 (_borderSPCount p) i) as [a Ha]; [lia|].
    destruct (lookup_lt_is_Some_2 (_borderSPCount other) i) as [b Hb];
      [lia|].
    rewrite for_loop_S,
      (squaredDistance_step_Ok NV NW PD id id i acc p other x y a b)
      by assumption.
    cbn [mbind outcome_bind]. apply IH; lia.
Qed.

(** X6: the shape mismatch the other way.  When the other profile is
    narrower than [this], [+=], [-=] and [*=] and [squaredDistance] run
    past the end of the other profile's vectors, which is undefined
    behaviour; [/=] does so too unless it first meets a quotient without a
    value.  None of them completes, and none throws. *)
Theorem narrower_operand_is_overrun (p q : VertexInfo V W) :
  wf p -> wf q -> borders q < borders p ->
  add_assign NV NW p q = Undefined /\
  sub_assign NV NW p q = Undefined /\
  mul_assign NV NW p q = Undefined /\
  (div_assign NV NW p q = Undefined \/ div_assign NV NW p q = NoQuotient) /\
  squaredDistance NV NW PD id id p q = Undefined.
Proof.
  intros [Hlp Hcp] [Hlq Hcq] Hlt. unfold borders in Hlt.
  assert (Hrun : forall opW opV,
            elementwise opW opV p q = Undefined \/
            elementwise opW opV p q = NoQuotient).
  { intros opW opV. unfold elementwise, for_range.
    apply (elementwise_overrun opW opV q (Z.to_nat (_borderCount q))
             (Z.to_nat (_borderCount p)) 0 p); lia. }
  assert (Htotal : forall fW fV,
            elementwise (total fW) (total fV) p q = Undefined).
  { intros fW fV. destruct (Hrun (total fW) (total fV)) as [H|H];
      [exact H|].
    exfalso. revert H. apply elementwise_total_loop_has_quotients. }
  split; [apply Htotal|]. split; [apply Htotal|]. split; [apply Htotal|].
  split; [apply Hrun|].
  unfold squaredDistance, for_range.
  apply (squaredDistance_overrun p q (Z.to_nat (_borderCount q))
           (Z.to_nat (_borderCount p)) 0); lia.
Qed.

End Edges.

(** ** Equality, mirrored comparisons, cancellation and the distance *)

Section Algebra.

Context {V W : Type}.
Variable NV : numeric V.
Variable NW : numeric W.
Variable castVW : V -> W.

Lemma first_nonzero_zero_iff (cp cq : list V) (lp lq : list W) :
  equality_laws NV NW castVW ->
  length cp = length cq -> length lp = length cp -> length lq = length cp ->
  first_nonzero NW
    (interleave (zip_with (fun a b => castVW (n_sub NV a b)) cp cq)
                (zip_with (n_sub NW) lp lq)) = n_zero NW <->
  cp = cq /\ lp = lq.
Proof.
  intros laws. revert cq lp lq.
  induction cp as [|a cp IH]; intros [|b cq] [|x lp] [|y lq] Hc Hl Hl';
    try discriminate.
  - cbn. tauto.
  - cbn [zip_with interleave first_nonzero].
    destruct (n_eqb NW (castVW (n_sub NV a b)) (n_zero NW)) eqn:Ec;
      cbn [negb].
    + apply (eq_eqb_zero _ _ _ laws), (eq_count _ _ _ laws) in Ec as ->.
      destruct (n_eqb NW (n_sub NW x y) (n_zero NW)) eqn:El; cbn [negb].
      * apply (eq_eqb_zero _ _ _ laws), (eq_length _ _ _ laws) in El as ->.
        rewrite (IH cq lp lq) by (cbn in *; lia).
        split; [intros [-> ->]; auto|intros [[= ->] [= ->]]; auto].
      * split.
        -- intros Hz. apply (eq_eqb_zero _ _ _ laws) in Hz. congruence.
        -- intros [_ [= -> _]].
           assert (Ht : n_eqb NW (n_sub NW y y) (n_zero NW) = true)
             by (apply (eq_eqb_zero _ _ _ laws), (eq_length _ _ _ laws);
                 reflexivity).
           congruence.
    + split.
      * intros Hz. apply (eq_eqb_zero _ _ _ laws) in Hz. congruence.
      * intros [[= -> _] _].
        assert (Ht : n_eqb NW (castVW (n_sub NV b b)) (n_zero NW) = true)
          by (apply (eq_eqb_zero _ _ _ laws), (eq_count _ _ _ laws);
              reflexivity).
        congruence.
Qed.

(** X7: [operator==] decides equality.  On two profiles of equal width it
    returns true exactly when their lengths and their counts are the same
    at every index, that is, when the profiles are equal; and
    [operator!=] returns the opposite. *)
Theorem op_eq_decides_equality (p q : VertexInfo V W) :
  equality_laws NV NW castVW ->
  wf p -> wf q -> _borderCount p = _borderCount q ->
  exists b,
    op_eq NV NW castVW p q = Ok b /\
    op_ne NV NW castVW p q = Ok (negb b) /\
    (b = true <-> p = q).
Proof.
  intros laws Hp Hq Heq. pose proof Hp as [Hlp Hcp]. pose proof Hq as [Hlq Hcq].
  unfold op_eq, op_ne.
  rewrite (compare_interleaved NV NW castVW p q Hp Hq Heq).
  cbn [mbind outcome_bind]. eexists. split; [reflexivity|].
  split; [reflexivity|].
  rewrite (eq_eqb_zero _ _ _ laws). unfold count_diffs, length_diffs.
  rewrite first_nonzero_zero_iff by (assumption || lia).
  destruct p as [n lp cp], q as [m lq cq]. cbn in *.
  split; [intros [-> ->]; congruence|intros [= _ -> ->]; auto].
Qed.


Lemma zip_with_cancel {A : Type} (f g : A -> A -> A) (l k : list A) :
  (forall x y, g (f x y) y = x) -> length l = length k ->
  zip_with g (zip_with f l k) k = l.
Proof.
  intros Hfg. revert k. induction l as [|x l IH]; intros [|y k] Hlen;
    try discriminate; [reflexivity|].
  cbn. rewrite Hfg, IH by (cbn in Hlen; lia). reflexivity.
Qed.

(** X9: subtraction undoes addition: for two profiles of equal width,
    [(p + q) - q] is [p], entry for entry. *)
Theorem plus_then_minus (p q : VertexInfo V W) :
  cancel_laws NV -> cancel_laws NW ->
  wf p -> wf q -> _borderCount p = _borderCount q ->
  exists r, plus NV NW p q = Ok r /\ minus NV NW r q = Ok p.
Proof.
  intros lawsV lawsW Hp Hq Heq.
  pose proof Hp as [Hlp Hcp]. pose proof Hq as [Hlq Hcq].
  unfold plus, minus, add_assign, sub_assign.
  rewrite (elementwise_total (n_add NW) (n_add NV) p q Hp Hq) by lia.
  eexists. split; [reflexivity|].
  rewrite elementwise_total.
  - cbn [_borderCount _borderSPLength _borderSPCount].
    rewrite !zip_with_cancel by (try apply add_sub; assumption || lia).
    now destruct p.
  - split; cbn; rewrite length_zip_with; lia.
  - exact Hq.
  - cbn. lia.
Qed.

End Algebra.

(** ** The squared distance of a profile from itself and its symmetry *)

Lemma zip_with_symmetric_on {A B : Type} (S : A -> Prop) (f : A -> A -> B)
    (l k : list A) :
  (forall x y, S x -> S y -> f x y = f y x) ->
  Forall S l -> Forall S k -> zip_with f l k = zip_with f k l.
Proof.
  intros Hf Hl. revert k. induction Hl as [|x l Sx Hl IH]; intros k Hk.
  - now destruct k.
  - destruct Hk as [|y k Sy Hk]; [reflexivity|].
    cbn. rewrite (Hf x y Sx Sy), (IH k Hk). reflexivity.
Qed.

Section Distance.

Context {V W : Type}.
Variable NV : numeric V.
Variable NW : numeric W.
Variable PD : promotion V W.
Variable SV : V -> Prop.
Variable SW : W -> Prop.
Hypothesis laws : distance_laws_on NV NW PD SV SW.

Lemma squaredDistance_terms_diagonal (l : list W) (c : list V) :
  Forall SW l -> Forall SV c ->
  fold_left (accumulate PD)
    (interleave
       (zip_with (fun x y => pow2 PD (W_to_double PD (n_sub NW x (id y))))
          l l)
       (zip_with (fun a b => pow2 PD (V_to_double PD (n_sub NV a (id b))))
          c c))
    (n_zero NW) = n_zero NW.
Proof.
  intros Hl. revert c. induction Hl as [|x l Sx Hl IH]; intros c Hc;
    [reflexivity|].
  destruct Hc as [|a c Sa Hc]; [reflexivity|].
  cbn [zip_with interleave fold_left]. unfold id.
  rewrite (d_length_diag _ _ _ _ _ laws x Sx),
    (d_count_diag _ _ _ _ _ laws a Sa).
  rewrite (d_length_zero _ _ _ _ _ laws), (d_count_zero _ _ _ _ _ laws).
  now apply IH.
Qed.

(** X10: on profiles whose counts lie in [SV] and whose lengths lie in
    [SW], sets of values on which the differences behave as
    [distance_laws_on] says, the squared distance of a profile from
    itself is zero, and the squared distance between two profiles of
    equal width does not depend on which of the two is [this]. *)
Theorem squaredDistance_zero_symmetric (p q : VertexInfo V W) :
  wf p -> wf q -> _borderCount p = _borderCount q ->
  Forall SV (_borderSPCount p) -> Forall SW (_borderSPLength p) ->
  Forall SV (_borderSPCount q) -> Forall SW (_borderSPLength q) ->
  squaredDistance NV NW PD id id p p = Ok (n_zero NW) /\
  squaredDistance NV NW PD id id p q = squaredDistance NV NW PD id id q p.
Proof.
  intros Hp Hq Heq Hcp Hlp Hcq Hlq. split.
  - rewrite (squaredDistance_sum NV NW PD id id p p Hp Hp) by lia.
    f_equal. unfold squaredDistance_terms.
    now apply squaredDistance_terms_diagonal.
  - rewrite (squaredDistance_sum NV NW PD id id p q Hp Hq) by lia.
    rewrite (squaredDistance_sum NV NW PD id id q p Hq Hp) by lia.
    f_equal. f_equal. unfold squaredDistance_terms. f_equal.
    + apply (zip_with_symmetric_on SW); [|assumption..].
      intros x y Sx Sy. unfold id.
      now apply (d_length_square _ _ _ _ _ laws).
    + apply (zip_with_symmetric_on SV); [|assumption..].
      intros a b Sa Sb. unfold id.
      now apply (d_count_square _ _ _ _ _ laws).
Qed.

End Distance.

(** ** Operators with a scalar *)

Lemma take_S_insert {A : Type} (l : list A) (i : nat) (z : A) :
  (i < length l)%nat -> take (S i) (<[i := z]> l) = take i l ++ [z].
Proof.
  intros Hlt.
  rewrite (take_S_r _ _ z) by (apply list_lookup_insert_eq; lia).
  now rewrite take_insert_ge by lia.
Qed.

Lemma mapM_always {A B : Type} (f : A -> B) (l : list A) :
  mapM (fun x => Some (f x)) l = Some (f <$> l).
Proof.
  induction l as [|x l IH]; [reflexivity|].
  cbn. rewrite IH. reflexivity.
Qed.

Section ScalarOps.

Context {V W T : Type}.
Variable MW : mixed W T.
Variable MV : mixed V T.

Lemma scalar_step_Ok (opW : W -> T -> option W) (opV : V -> T -> option V)
    (num : T) (i : nat) (s : VertexInfo V W) (x z : W) (a d : V) :
  _borderSPLength s !! i = Some x -> _borderSPCount s !! i = Some a ->
  opW x num = Some z -> opV a num = Some d ->
  scalar_step opW opV num (Z.of_nat i) s =
  Ok (mkVertexInfo (_borderCount s)
        (<[i := z]> (_borderSPLength s)) (<[i := d]> (_borderSPCount s))).
Proof.
  intros Hx Ha Hz Hd. unfold scalar_step.
  rewrite (vec_get_lookup _ _ _ Hx). cbn [mbind outcome_bind]. rewrite Hz.
  rewrite vec_set_lt by (eapply lookup_lt_Some; eassumption).
  rewrite (vec_get_lookup _ _ _ Ha). cbn [mbind outcome_bind]. rewrite Hd.
  rewrite vec_set_lt by (eapply lookup_lt_Some; eassumption).
  reflexivity.
Qed.

Lemma scalar_step_NoQuotient
    (opW : W -> T -> option W) (opV : V -> T -> option V)
    (num : T) (i : nat) (s : VertexInfo V W) (x : W) (a : V) :
  _borderSPLength s !! i = Some x -> _borderSPCount s !! i = Some a ->
  opW x num = None \/ opV a num = None ->
  scalar_step opW opV num (Z.of_nat i) s = NoQuotient.
Proof.
  intros Hx Ha Hnone. unfold scalar_step.
  rewrite (vec_get_lookup _ _ _ Hx). cbn [mbind outcome_bind].
  destruct (opW x num) as [z|]; [|reflexivity].
  rewrite vec_set_lt by (eapply lookup_lt_Some; eassumption).
  rewrite (vec_get_lookup _ _ _ Ha). cbn [mbind outcome_bind].
  destruct Hnone as [Hn|Hn]; [discriminate|]. rewrite Hn. reflexivity.
Qed.

Lemma scalar_loop (opW : W -> T -> option W) (opV : V -> T -> option V)
    (num : T) (n i : nat) (s : VertexInfo V W) :
  length (_borderSPLength s) = (i + n)%nat ->
  length (_borderSPCount s) = (i + n)%nat ->
  for_loop n (Z.of_nat i) (scalar_step opW opV num) s =
  match mapM (fun x => opW x num) (drop i (_borderSPLength s)),
        mapM (fun a => opV a num) (drop i (_borderSPCount s)) with
  | Some l, Some c =>
      Ok (mkVertexInfo (_borderCount s)
            (take i (_borderSPLength s) ++ l) (take i (_borderSPCount s) ++ c))
  | _, _ => NoQuotient
  end.
Proof.
  revert i s. induction n as [|n IH]; intros i s Hl Hc.
  - rewrite (drop_ge (_borderSPLength s)), (drop_ge (_borderSPCount s)),
      !take_ge by lia.
    cbn. rewrite !app_nil_r. now destruct s.
  - destruct (lookup_lt_is_Some_2 (_borderSPLength s) i) as [x Hx]; [lia|].
    destruct (lookup_lt_is_Some_2 (_borderSPCount s) i) as [a Ha]; [lia|].
    rewrite for_loop_S, (drop_S _ _ _ Hx), (drop_S _ _ _ Ha).
    cbn [mapM].
    destruct (opW x num) as [z|] eqn:Hz.
    + destruct (opV a num) as [d|] eqn:Hd.
      * rewrite (scalar_step_Ok opW opV num i s x z a d) by assumption.
        cbn [mbind outcome_bind].
        rewrite IH by (cbn; rewrite ?length_insert; lia).
        cbn [_borderCount _borderSPLength _borderSPCount].
        rewrite !drop_insert_lt, !take_S_insert by lia.
        cbn [mbind option_bind mret option_ret].
        destruct (mapM _ (drop (S i) (_borderSPLength s))) as [l|];
          destruct (mapM _ (drop (S i) (_borderSPCount s))) as [c|];
          cbn; rewrite <- ?app_assoc; reflexivity.
      * rewrite (scalar_step_NoQuotient opW opV num i s x a) by auto.
        cbn. now destruct (mapM _ _).
    + rewrite (scalar_step_NoQuotient opW opV num i s x a) by auto.
      reflexivity.
Qed.

Lemma scalar_elementwise_mapM
    (opW : W -> T -> option W) (opV : V -> T -> option V)
    (p : VertexInfo V W) (num : T) :
  wf p ->
  scalar_elementwise opW opV p num =
  match mapM (fun x => opW x num) (_borderSPLength p),
        mapM (fun a => opV a num) (_borderSPCount p) with
  | Some l, Some c => Ok (mkVertexInfo (_borderCount p) l c)
  | _, _ => NoQuotient
  end.
Proof.
  intros [Hl Hc]. unfold scalar_elementwise, for_range.
  apply (scalar_loop opW opV num (Z.to_nat (_borderCount p)) 0 p); lia.
Qed.

(** X11: the compound assignments with a scalar.  [p += num] and
    [p -= num] always succeed on a well-formed profile and apply the
    operation with [num] to every length and to every count, the counts
    as well as the lengths; [p /= num] does the same when every quotient
    exists and fails on a missing quotient otherwise, never by reading or
    writing outside the vectors; the width is kept. *)
Theorem scalar_assignments_map (p : VertexInfo V W) (num : T) :
  wf p ->
  add_assign_scalar MW MV p num =
    Ok (mkVertexInfo (_borderCount p)
          ((fun x => x_add MW x num) <$> _borderSPLength p)
          ((fun a => x_add MV a num) <$> _borderSPCount p)) /\
  sub_assign_scalar MW MV p num =
    Ok (mkVertexInfo (_borderCount p)
          ((fun x => x_sub MW x num) <$> _borderSPLength p)
          ((fun a => x_sub MV a num) <$> _borderSPCount p)) /\
  div_assign_scalar MW MV p num =
    match mapM (fun x => x_div MW x num) (_borderSPLength p),
          mapM (fun a => x_div MV a num) (_borderSPCount p) with
    | Some l, Some c => Ok (mkVertexInfo (_borderCount p) l c)
    | _, _ => NoQuotient
    end.
Proof.
  intros Hp. unfold add_assign_scalar, sub_assign_scalar, div_assign_scalar.
  rewrite !scalar_elementwise_mapM by exact Hp.
  unfold always. rewrite !mapM_always. auto.
Qed.

Variable IV : index_type V.

Lemma mul_assign_scalar_loop_counts (num : T) (n i : nat) (fuel : nat)
    (s : VertexInfo V W) :
  index_laws IV (_borderCount s) ->
  Z.of_nat (i + n) = _borderCount s ->
  length (_borderSPLength s) = (i + n)%nat ->
  length (_borderSPCount s) = (i + n)%nat ->
  (n < fuel)%nat ->
  mul_assign_scalar_loop MW MV IV fuel
    (Nat.iter i (i_succ IV) (i_zero IV)) num s =
  Some (Ok (mkVertexInfo (_borderCount s)
              (take i (_borderSPLength s) ++
               ((fun x => x_mul MW x num) <$> drop i (_borderSPLength s)))
              (take i (_borderSPCount s) ++
               ((fun a => x_mul MV a num) <$> drop i (_borderSPCount s))))).
Proof.
  revert i fuel s.
  induction n as [|n IH]; intros i fuel s laws Hn Hl Hc Hfuel;
    (destruct fuel as [|fuel]; [lia|]); cbn [mul_assign_scalar_loop];
    rewrite (idx_ltb _ _ laws) by lia.
  - destruct (Z.ltb_spec (Z.of_nat i) (_borderCount s)); [lia|].
    rewrite (drop_ge (_borderSPLength s)), (drop_ge (_borderSPCount s)),
      !take_ge by lia.
    cbn. rewrite !app_nil_r. now destruct s.
  - destruct (Z.ltb_spec (Z.of_nat i) (_borderCount s)); [|lia].
    rewrite (idx_index _ _ laws) by lia.
    destruct (lookup_lt_is_Some_2 (_borderSPLength s) i) as [x Hx]; [lia|].
    destruct (lookup_lt_is_Some_2 (_borderSPCount s) i) as [a Ha]; [lia|].
    rewrite (scalar_step_Ok _ _ num i s x (x_mul MW x num) a (x_mul MV a num))
      by (assumption || reflexivity).
    change (i_succ IV (Nat.iter i (i_succ IV) (i_zero IV)))
      with (Nat.iter (S i) (i_succ IV) (i_zero IV)).
    rewrite IH by (cbn; rewrite ?length_insert; (exact laws || lia)).
    cbn [_borderCount _borderSPLength _borderSPCount].
    rewrite !drop_insert_lt, !take_S_insert by lia.
    rewrite (drop_S _ _ _ Hx), (drop_S _ _ _ Ha).
    cbn [fmap list_fmap]. rewrite <- !app_assoc. reflexivity.
Qed.

(** X12: the scalar [operator*=], whose loop index has the count type
    [V].  When that index counts faithfully up to the width, the loop
    ends after width-many iterations and has multiplied every length and
    every count by [num]; [operator*] on a copy gives the same. *)
Theorem scalar_multiplication_maps (p : VertexInfo V W) (num : T)
    (fuel : nat) :
  wf p -> index_laws IV (_borderCount p) ->
  (Z.to_nat (_borderCount p) < fuel)%nat ->
  mul_assign_scalar MW MV IV fuel p num =
    Some (Ok (mkVertexInfo (_borderCount p)
                ((fun x => x_mul MW x num) <$> _borderSPLength p)
                ((fun a => x_mul MV a num) <$> _borderSPCount p))) /\
  times_scalar MW MV IV fuel p num = mul_assign_scalar MW MV IV fuel p num.
Proof.
  intros [Hl Hc] laws Hfuel. split; [|reflexivity].
  unfold mul_assign_scalar.
  apply (mul_assign_scalar_loop_counts num (Z.to_nat (_borderCount p)) 0);
    (exact laws || lia).
Qed.

End ScalarOps.

(** ** Conversion between instantiations *)

Section Conversions.

Context {V W N E : Type}.
Variable NV : numeric V.
Variable NW : numeric W.
Variable castNV : N -> V.
Variable castEW : E -> W.

Lemma convert_step_Ok (other : VertexInfo N E) (i : nat)
    (s : VertexInfo V W) (y : E) (b : N) :
  _borderSPLength other !! i = Some y -> _borderSPCount other !! i = Some b ->
  (i < length (_borderSPLength s))%nat -> (i < length (_borderSPCount s))%nat ->
  convert_step castNV castEW other (Z.of_nat i) s =
  Ok (mkVertexInfo (_borderCount s)
        (<[i := castEW y]> (_borderSPLength s))
        (<[i := castNV b]> (_borderSPCount s))).
Proof.
  intros Hy Hb Hl Hc. unfold convert_step.
  rewrite (vec_get_lookup _ _ _ Hy). cbn [mbind outcome_bind].
  rewrite vec_set_lt by exact Hl.
  rewrite (vec_get_lookup _ _ _ Hb). cbn [mbind outcome_bind].
  rewrite vec_set_lt by exact Hc.
  reflexivity.
Qed.

Lemma convert_loop (other : VertexInfo N E) (n i : nat)
    (s : VertexInfo V W) :
  length (_borderSPLength s) = (i + n)%nat ->
  length (_borderSPCount s) = (i + n)%nat ->
  length (_borderSPLength other) = (i + n)%nat ->
  length (_borderSPCount other) = (i + n)%nat ->
  for_loop n (Z.of_nat i) (convert_step castNV castEW other) s =
  Ok (mkVertexInfo (_borderCount s)
        (take i (_borderSPLength s) ++
         (castEW <$> drop i (_borderSPLength other)))
        (take i (_borderSPCount s) ++
         (castNV <$> drop i (_borderSPCount other)))).
Proof.
  revert i s. induction n as [|n IH]; intros i s Hl Hc Hlo Hco.
  - rewrite (drop_ge (_borderSPLength other)),
      (drop_ge (_borderSPCount other)), !take_ge by lia.
    cbn. rewrite !app_nil_r. now destruct s.
  - destruct (lookup_lt_is_Some_2 (_borderSPLength other) i) as [y Hy];
      [lia|].
    destruct (lookup_lt_is_Some_2 (_borderSPCount other) i) as [b Hb];
      [lia|].
    rewrite for_loop_S, (convert_step_Ok other i s y b) by (assumption || lia).
    cbn [mbind outcome_bind].
    rewrite IH by (cbn; rewrite ?length_insert; lia).
    cbn [_borderCount _borderSPLength _borderSPCount].
    rewrite !take_S_insert by lia.
    rewrite (drop_S _ _ _ Hy), (drop_S _ _ _ Hb).
    cbn [fmap list_fmap]. rewrite <- !app_assoc. reflexivity.
Qed.

Lemma length_vec_resize {A : Type} (zero : A) (v : list A) (n : Z) :
  length (vec_resize zero v n) = Z.to_nat n.
Proof.
  unfold vec_resize. rewrite length_app, length_take, length_replicate. lia.
Qed.

(** X14: the converting constructor and the converting assignment.  From
    a well-formed source of any instantiation both give the profile of
    the source's width whose entries are the source's entries converted,
    lengths to [W] and counts to [V]; the assignment does so whatever
    the width and the entries of the target were. *)
Theorem conversion_copies_entries
    (p : VertexInfo V W) (other : VertexInfo N E) :
  wf p -> wf other ->
  VertexInfo_copy NV NW castNV castEW other =
    Some (Ok (converted castNV castEW other)) /\
  assign NV NW castNV castEW p other =
    Some (Ok (converted castNV castEW other)) /\
  wf (converted castNV castEW other).
Proof.
  intros [Hlp Hcp] [Hlo Hco]. repeat split.
  - unfold VertexInfo_copy, construct.
    destruct (Z.ltb_spec (_borderCount other) 0); [lia|].
    unfold for_range, VertexInfo_new.
    cbn [_borderCount _borderSPLength _borderSPCount].
    rewrite (convert_loop other (Z.to_nat (_borderCount other)) 0)
      by (cbn; rewrite ?length_replicate; lia).
    reflexivity.
  - unfold assign.
    destruct (Z.eqb_spec (_borderCount p) (_borderCount other)) as [Heq|Hne];
      cbn [negb].
    + unfold for_range.
      rewrite (convert_loop other (Z.to_nat (_borderCount p)) 0) by lia.
      unfold converted. now rewrite Heq.
    + destruct (Z.ltb_spec (_borderCount other) 0); [lia|].
      unfold for_range. cbn [_borderCount].
      rewrite (convert_loop other (Z.to_nat (_borderCount other)) 0)
        by (cbn; rewrite ?length_vec_resize; lia).
      reflexivity.
  - cbn. rewrite length_fmap. exact Hlo.
  - cbn. rewrite length_fmap. exact Hco.
Qed.

End Conversions.

(** ** The renumbering and the grouping on their own *)

Lemma vec_get_outside {A : Type} (v : list A) (i : Z) :
  ~ 0 <= i < Z.of_nat (length v) -> vec_get v i = Undefined.
Proof.
  intros Hbad. unfold vec_get. destruct (Z.ltb_spec i 0); [reflexivity|].
  rewrite lookup_ge_None_2 by lia. reflexivity.
Qed.

Lemma length_remove_dups_le (l : list Z) :
  (length (remove_dups l) <= length l)%nat.
Proof.
  induction l as [|x l IH]; cbn; [lia|].
  destruct (decide_rel elem_of x l); cbn; lia.
Qed.

Lemma filter_all {A : Type} (P : A -> Prop) `{!forall x, Decision (P x)}
    (l : list A) :
  (forall x, x ∈ l -> P x) -> filter P l = l.
Proof.
  induction l as [|x l IH]; intros Hall; [reflexivity|].
  rewrite filter_cons_True by (apply Hall, list_elem_of_here).
  rewrite IH; [reflexivity|].
  intros y Hy. apply Hall, list_elem_of_further, Hy.
Qed.

Lemma dense_rank_seqZ (n c : Z) :
  0 <= c <= n -> dense_rank (seqZ 0 n) c = c.
Proof.
  intros Hc. unfold dense_rank. rewrite filter_all.
  - rewrite length_seqZ. lia.
  - intros x Hx. apply elem_of_seqZ in Hx. apply elem_of_seqZ. lia.
Qed.

Lemma ids_in_range_seqZ (n : Z) : ids_in_range (seqZ 0 n).
Proof.
  intros c Hc. apply elem_of_seqZ in Hc. rewrite length_seqZ. lia.
Qed.

(** X15: what the renumbering does to the vertices.  With every id in
    range, [renumber_communities] succeeds and keeps the number of
    entries; two vertices get the same new id exactly when [n2c] sends
    their old communities to the same community, and the new ids are
    ordered as those communities are. *)
Theorem renumber_merges_as_assigned (comms n2c : list Z) :
  ids_in_range n2c ->
  (forall x, x ∈ comms -> 0 <= x < Z.of_nat (length n2c)) ->
  exists r,
    renumber_communities comms n2c = Ok r /\
    length r = length comms /\
    forall (i j : nat) (x y a b : Z),
      comms !! i = Some x -> comms !! j = Some y ->
      r !! i = Some a -> r !! j = Some b ->
      (a = b <-> n2c !!! Z.to_nat x = n2c !!! Z.to_nat y) /\
      (a < b <-> n2c !!! Z.to_nat x < n2c !!! Z.to_nat y).
Proof.
  intros Hrange Hcomms.
  rewrite (renumber_communities_spec n2c Hrange comms Hcomms).
  eexists. split; [reflexivity|]. split; [apply length_fmap|].
  intros i j x y a b Hx Hy Ha Hb.
  rewrite list_lookup_fmap, Hx in Ha. rewrite list_lookup_fmap, Hy in Hb.
  cbn in Ha, Hb. injection Ha as <-. injection Hb as <-.
  assert (Hin : forall z, z ∈ comms ->
            n2c !!! Z.to_nat z ∈ n2c /\
            0 <= n2c !!! Z.to_nat z < Z.of_nat (length n2c)).
  { intros z Hz. apply Hcomms in Hz.
    destruct (lookup_lt_is_Some_2 n2c (Z.to_nat z)) as [c Hc]; [lia|].
    rewrite (list_lookup_total_correct _ _ _ Hc).
    apply list_elem_of_lookup_2 in Hc. split; [exact Hc|apply Hrange, Hc]. }
  destruct (Hin x (list_elem_of_lookup_2 _ _ _ Hx)) as [Hc Hcr].
  destruct (Hin y (list_elem_of_lookup_2 _ _ _ Hy)) as [Hd Hdr].
  set (c := n2c !!! Z.to_nat x) in *. set (d := n2c !!! Z.to_nat y) in *.
  assert (Hlt : forall u v, u ∈ n2c -> 0 <= u -> u < v ->
            dense_rank n2c u < dense_rank n2c v).
  { intros u v Hu Hu0 Huv.
    replace u with (Z.of_nat (Z.to_nat u)) by lia.
    replace v with (Z.of_nat (Z.to_nat v)) by lia.
    apply dense_rank_strict; [lia|].
    replace (Z.of_nat (Z.to_nat u)) with u by lia. exact Hu. }
  destruct (Z.lt_total c d) as [Hcd|[Hcd|Hcd]].
  - pose proof (Hlt c d Hc (proj1 Hcr) Hcd). lia.
  - rewrite Hcd. lia.
  - pose proof (Hlt d c Hd (proj1 Hdr) Hcd). lia.
Qed.

Lemma renumber_identity_fmap (comms : list Z) (n : Z) :
  (forall x, x ∈ comms -> 0 <= x < n) ->
  (fun old => dense_rank (seqZ 0 n) (seqZ 0 n !!! Z.to_nat old)) <$> comms =
  comms.
Proof.
  intros Hcomms. induction comms as [|x comms IH]; [reflexivity|].
  cbn [fmap list_fmap]. fold (@fmap list _ Z Z).
  pose proof (Hcomms x (list_elem_of_here _ _)) as Hx.
  rewrite lookup_total_seqZ_lt by lia.
  rewrite dense_rank_seqZ by lia.
  f_equal; [lia|].
  apply IH. intros y Hy. apply Hcomms, list_elem_of_further, Hy.
Qed.

(** X16: an assignment that leaves every node in a community of its own,
    node [i] in community [i], changes nothing: [renumber_communities]
    returns [comms] as it was. *)
Theorem renumber_identity_assignment (comms : list Z) (n : Z) :
  (forall x, x ∈ comms -> 0 <= x < n) ->
  renumber_communities comms (seqZ 0 n) = Ok comms.
Proof.
  intros Hcomms.
  rewrite (renumber_communities_spec _ (ids_in_range_seqZ n))
    by (intros x Hx; rewrite length_seqZ; specialize (Hcomms x Hx); lia).
  f_equal. apply renumber_identity_fmap, Hcomms.
Qed.

Lemma members_seqZ (n c : Z) :
  0 <= c < n -> members (seqZ 0 n) c = [c].
Proof.
  intros Hc. apply Permutation_singleton_r. apply NoDup_Permutation.
  - apply members_NoDup.
  - apply NoDup_singleton.
  - intros v. rewrite members_spec, list_elem_of_singleton, length_seqZ.
    split.
    + intros [Hv Hlook]. apply lookup_seqZ in Hlook. lia.
    + intros ->. split; [lia|]. apply lookup_seqZ. lia.
Qed.

Lemma max_id_seqZ (n : Z) : 0 < n -> max_id (seqZ 0 n) = n - 1.
Proof.
  intros Hn. destruct (max_id_spec (seqZ 0 n)) as (Hmax0 & Hmax & Hmaxin).
  assert (Hlast : n - 1 ∈ seqZ 0 n) by (apply elem_of_seqZ; lia).
  apply Hmax in Hlast.
  destruct Hmaxin as [Hzero|Hin]; [lia|].
  apply elem_of_seqZ in Hin. lia.
Qed.

(** Every vertex in a community of its own: the result has one singleton
    per vertex. *)
Lemma build_result_seqZ (n : Z) :
  0 < n -> build_result (seqZ 0 n) = Ok ((fun v => [v]) <$> seqZ 0 n).
Proof.
  intros Hn.
  destruct (build_result_spec (seqZ 0 n)) as (r & -> & Hlen & Hmem).
  { intros x Hx. apply elem_of_seqZ in Hx. lia. }
  f_equal. rewrite max_id_seqZ in Hlen by exact Hn.
  apply list_eq. intros c.
  destruct (decide (c < length r)%nat) as [Hlt|Hge].
  - etrans; [exact (Hmem c Hlt)|].
    rewrite members_seqZ by (unfold Community in *; lia).
    rewrite list_lookup_fmap, lookup_seqZ_lt
      by (unfold Community in *; lia).
    reflexivity.
  - etrans; [apply lookup_ge_None_2; lia|].
    rewrite list_lookup_fmap, lookup_seqZ_ge
      by (unfold Community in *; lia).
    reflexivity.
Qed.

Lemma renumber_mark_step_outside (n2c : list Z) (i : nat)
    (renumber : list Z) (c : Z) :
  n2c !! i = Some c -> ~ 0 <= c < Z.of_nat (length renumber) ->
  renumber_mark_step n2c (Z.of_nat i) renumber = Undefined.
Proof.
  intros Hc Hbad. unfold renumber_mark_step.
  rewrite (vec_get_lookup _ _ _ Hc). cbn [mbind outcome_bind].
  rewrite vec_get_outside by exact Hbad. reflexivity.
Qed.

Lemma renumber_mark_step_inside (n2c : list Z) (i : nat)
    (renumber : list Z) (c : Z) :
  n2c !! i = Some c -> 0 <= c < Z.of_nat (length renumber) ->
  exists r', renumber_mark_step n2c (Z.of_nat i) renumber = Ok r' /\
             length r' = length renumber.
Proof.
  intros Hc Hin. unfold renumber_mark_step.
  rewrite (vec_get_lookup _ _ _ Hc). cbn [mbind outcome_bind].
  destruct (vec_get_in_range renumber c Hin) as (x & _ & ->).
  cbn [mbind outcome_bind]. rewrite vec_set_Z by lia.
  eexists. split; [reflexivity|apply length_insert].
Qed.

Lemma renumber_marks_overrun (n2c : list Z) (n i : nat) (r : list Z) :
  length r = length n2c -> (i + n)%nat = length n2c ->
  (exists k c, (i <= k)%nat /\ n2c !! k = Some c /\
               ~ 0 <= c < Z.of_nat (length n2c)) ->
  for_loop n (Z.of_nat i) (renumber_mark_step n2c) r = Undefined.
Proof.
  revert i r. induction n as [|n IH]; intros i r Hr Hn (k & c & Hk & Hc & Hbad).
  - apply lookup_lt_Some in Hc. lia.
  - destruct (lookup_lt_is_Some_2 n2c i) as [ci Hci]; [lia|].
    rewrite for_loop_S.
    destruct (decide (0 <= ci < Z.of_nat (length n2c))) as [Hin|Hout].
    + destruct (renumber_mark_step_inside n2c i r ci Hci) as (r' & -> & Hr');
        [lia|].
      cbn [mbind outcome_bind]. apply IH; [lia|lia|].
      exists k, c. split; [|auto].
      destruct (decide (k = i)) as [->|]; [|lia]. congruence.
    + rewrite (renumber_mark_step_outside n2c i r ci Hci) by (rewrite Hr; exact Hout).
      reflexivity.
Qed.

Lemma renumber_apply_step_outside (n2c renumber comms : list Z) (i : nat)
    (x : Z) :
  comms !! i = Some x -> ~ 0 <= x < Z.of_nat (length n2c) ->
  renumber_apply_step n2c renumber (Z.of_nat i) comms = Undefined.
Proof.
  intros Hx Hbad. unfold renumber_apply_step.
  rewrite (vec_get_lookup _ _ _ Hx). cbn [mbind outcome_bind].
  rewrite vec_get_outside by exact Hbad. reflexivity.
Qed.

Lemma renumber_apply_step_inside (n2c renumber comms : list Z) (i : nat)
    (x : Z) :
  ids_in_range n2c -> length renumber = length n2c ->
  comms !! i = Some x -> 0 <= x < Z.of_nat (length n2c) ->
  exists z, renumber_apply_step n2c renumber (Z.of_nat i) comms =
            Ok (<[i := z]> comms).
Proof.
  intros Hrange Hlen Hx Hin. unfold renumber_apply_step.
  rewrite (vec_get_lookup _ _ _ Hx). cbn [mbind outcome_bind].
  destruct (vec_get_in_range n2c x Hin) as (c & Hc & ->).
  cbn [mbind outcome_bind].
  apply list_elem_of_lookup_2, Hrange in Hc.
  destruct (vec_get_in_range renumber c) as (z & _ & ->); [lia|].
  cbn [mbind outcome_bind].
  rewrite vec_set_lt by (eapply lookup_lt_Some; eassumption).
  eauto.
Qed.

Lemma renumber_apply_overrun (n2c renumber : list Z) (n i : nat)
    (comms : list Z) :
  ids_in_range n2c -> length renumber = length n2c ->
  (i + n)%nat = length comms ->
  (exists k x, (i <= k)%nat /\ comms !! k = Some x /\
               ~ 0 <= x < Z.of_nat (length n2c)) ->
  for_loop n (Z.of_nat i) (renumber_apply_step n2c renumber) comms =
  Undefined.
Proof.
  intros Hrange Hlen. revert i comms.
  induction n as [|n IH]; intros i comms Hn (k & x & Hk & Hx & Hbad).
  - apply lookup_lt_Some in Hx. lia.
  - destruct (lookup_lt_is_Some_2 comms i) as [xi Hxi]; [lia|].
    rewrite for_loop_S.
    destruct (decide (0 <= xi < Z.of_nat (length n2c))) as [Hin|Hout].
    + destruct (renumber_apply_step_inside n2c renumber comms i xi
                  Hrange Hlen Hxi Hin) as (z & ->).
      cbn [mbind outcome_bind]. apply IH; [rewrite length_insert; lia|].
      exists k, x. destruct (decide (k = i)) as [->|Hne]; [congruence|].
      split; [lia|]. split; [|exact Hbad].
      rewrite list_lookup_insert_ne by lia. exact Hx.
    + rewrite (renumber_apply_step_outside n2c renumber comms i xi Hxi Hout).
      reflexivity.
Qed.

(** X17: ids that are no indices.  When an entry of [n2c] is negative or
    not below the size of [n2c], or an entry of [comms] is, the unchecked
    [operator[]] of [renumber_communities] is used outside its vector: the
    behaviour is undefined, and no exception is thrown. *)
Theorem renumber_id_outside_overruns (comms n2c : list Z) :
  (exists c, (c ∈ n2c \/ c ∈ comms) /\
             ~ 0 <= c < Z.of_nat (length n2c)) ->
  renumber_communities comms n2c = Undefined.
Proof.
  intros (c & Hc & Hbad). unfold renumber_communities.
  destruct (decide (Forall (fun c => 0 <= c < Z.of_nat (length n2c)) n2c))
    as [Hall|Hnot].
  - assert (Hrange : ids_in_range n2c)
      by (intros z Hz; exact (proj1 (Forall_forall _ _) Hall z Hz)).
    destruct Hc as [Hc|Hc]; [now apply Hrange in Hc|].
    destruct (renumber_dense_spec n2c Hrange)
      as (marks & renumber & -> & Hdense & Hlen & _).
    cbn [mbind outcome_bind]. rewrite Hdense. cbn [mbind outcome_bind fst].
    unfold for_range. rewrite Nat2Z.id.
    apply list_elem_of_lookup_1 in Hc as [k Hk].
    apply (renumber_apply_overrun n2c renumber (length comms) 0 comms
             Hrange Hlen eq_refl).
    exists k, c. split; [lia|auto].
  - apply not_Forall_Exists in Hnot; [|intros z; apply _].
    apply Exists_exists in Hnot as (z & Hz & Hzbad).
    apply list_elem_of_lookup_1 in Hz as [k Hk].
    unfold renumber_marks, for_range. rewrite !Nat2Z.id.
    assert (Hrun : for_loop (length n2c) 0 (renumber_mark_step n2c)
                     (replicate (length n2c) (-1)) = Undefined).
    { apply (renumber_marks_overrun n2c (length n2c) 0).
      - apply length_replicate.
      - reflexivity.
      - exists k, z. split; [lia|]. split; [exact Hk|exact Hzbad]. }
    rewrite Hrun. reflexivity.
Qed.

Lemma build_result_step_inside (n2c : list Z) (i : nat)
    (r : list Community) (c : Z) :
  n2c !! i = Some c -> 0 <= c < Z.of_nat (length r) ->
  exists r', build_result_step n2c (Z.of_nat i) r = Ok r' /\
             length r' = length r.
Proof.
  intros Hc Hin. unfold build_result_step.
  rewrite (vec_get_lookup _ _ _ Hc). cbn [mbind outcome_bind].
  destruct (vec_get_in_range r c Hin) as (comm & _ & ->).
  cbn [mbind outcome_bind]. rewrite vec_set_Z by lia.
  eexists. split; [reflexivity|apply length_insert].
Qed.

Lemma build_result_overrun (n2c : list Z) (n i : nat) (r : list Community) :
  length r = Z.to_nat (max_id n2c + 1) -> (i + n)%nat = length n2c ->
  (exists k c, (i <= k)%nat /\ n2c !! k = Some c /\ c < 0) ->
  for_loop n (Z.of_nat i) (build_result_step n2c) r = Undefined.
Proof.
  revert i r. induction n as [|n IH]; intros i r Hr Hn (k & c & Hk & Hc & Hbad).
  - apply lookup_lt_Some in Hc. lia.
  - destruct (lookup_lt_is_Some_2 n2c i) as [ci Hci]; [lia|].
    rewrite for_loop_S.
    destruct (max_id_spec n2c) as (Hmax0 & Hmax & _).
    pose proof (Hmax ci (list_elem_of_lookup_2 _ _ _ Hci)) as Hle.
    destruct (Z.ltb_spec ci 0) as [Hneg|Hpos].
    + unfold build_result_step.
      rewrite (vec_get_lookup _ _ _ Hci). cbn [mbind outcome_bind].
      rewrite vec_get_negative by exact Hneg. reflexivity.
    + destruct (build_result_step_inside n2c i r ci Hci) as (r' & -> & Hr');
        [lia|].
      cbn [mbind outcome_bind]. apply IH; [lia|lia|].
      exists k, c. destruct (decide (k = i)) as [->|Hne]; [|split; [lia|auto]].
      assert (ci = c) by congruence. lia.
Qed.

(** X18: [build_result] on a negative id.  The largest id is searched for
    from 0 on, so a negative id is never the size of the result; the
    community [r[n2c[i]]] of a negative id is an access before the
    vector: the behaviour is undefined. *)
Theorem build_result_negative_id_overruns (n2c : list Z) :
  (exists c, c ∈ n2c /\ c < 0) -> build_result n2c = Undefined.
Proof.
  intros (c & Hc & Hneg). unfold build_result, for_range.
  rewrite Nat2Z.id.
  pose proof (max_id_loop n2c (length n2c) 0 0 eq_refl) as Hmax.
  cbn [drop] in Hmax. change (Z.of_nat 0) with 0 in Hmax.
  rewrite Hmax. clear Hmax. cbn [mbind outcome_bind]. fold (max_id n2c).
  apply list_elem_of_lookup_1 in Hc as [k Hk].
  apply (build_result_overrun n2c (length n2c) 0).
  - apply length_replicate.
  - reflexivity.
  - exists k, c. split; [lia|auto].
Qed.

(** ** The evaluator on its graphs *)

Section EvaluatorMore.

Context `{Env : Collaborators}.

(** X19: the graph without nodes.  When [evaluateGraph] returns for a
    graph of no nodes, it returns one community, which is empty: the
    largest id is searched for from 0 on, so the result is never of size
    0. *)
Theorem empty_graph_one_empty_community
    (fuel : nat) (g : Graph) (result : list Community) :
  partition_contract -> nb_nodes g = 0 ->
  evaluateGraph fuel g = Some (Ok result) -> result = [[]].
Proof.
  intros contract Hzero Hrun.
  apply evaluateGraph_Ok in Hrun as (s & Hrun & Hres).
  apply level_loop_reachable in Hrun.
  destruct (reachable_initial contract g s Hrun) as [_ Hlen].
  destruct (st_n2c s) as [|x l]; [|cbn in Hlen; lia].
  change (Ok ([[]] : list Community) = Ok result) in Hres.
  now injection Hres as <-.
Qed.

(** X20: on a graph with a node, [evaluateGraph] returns no empty
    community: there are as many communities as distinct ids in the final
    node-to-community vector, at least one and at most one per vertex,
    and each of them holds a vertex. *)
Theorem communities_nonempty
    (fuel : nat) (g : Graph) (result : list Community) :
  partition_contract -> 0 < nb_nodes g ->
  evaluateGraph fuel g = Some (Ok result) ->
  exists s,
    evaluate_levels fuel g = Some (Ok s) /\
    length result = length (remove_dups (st_n2c s)) /\
    0 < Z.of_nat (length result) <= nb_nodes g /\
    forall comm, comm ∈ result -> comm <> [].
Proof.
  intros contract Hpos Hrun.
  apply evaluateGraph_Ok in Hrun as (s & Hrun & Hres).
  exists s. split; [exact Hrun|].
  apply level_loop_reachable in Hrun.
  destruct (reachable_initial contract g s Hrun) as [Hinv Hlen].
  pose proof (inv_dense s Hinv) as Hdense.
  pose proof (nb_nodes_nonneg contract (st_g s)) as Hk0.
  pose proof (dense_ids_count _ _ Hk0 Hdense) as Hcount.
  pose proof (length_remove_dups_le (st_n2c s)) as Hdups.
  set (n2c := st_n2c s) in *. set (k := nb_nodes (st_g s)) in *.
  assert (Hnonneg : forall x, x ∈ n2c -> 0 <= x)
    by (intros x Hx; apply Hdense in Hx; lia).
  destruct (build_result_spec n2c Hnonneg) as (r & Hr & Hlr & Hmem).
  assert (r = result) as -> by congruence.
  destruct (max_id_spec n2c) as (Hmax0 & Hmax & Hmaxin).
  assert (Hk1 : 1 <= k).
  { destruct n2c as [|x l] eqn:E; [cbn in Hlen; lia|].
    assert (Hx : x ∈ x :: l) by apply list_elem_of_here.
    apply Hdense in Hx. lia. }
  assert (Hmaxk : max_id n2c = k - 1).
  { assert (Hin : max_id n2c ∈ n2c).
    { destruct Hmaxin as [->|Hin]; [apply Hdense; lia|exact Hin]. }
    apply Hdense in Hin.
    assert (Hlast : k - 1 ∈ n2c) by (apply Hdense; lia).
    apply Hmax in Hlast. lia. }
  split; [lia|]. split; [lia|].
  intros comm Hcomm. apply list_elem_of_lookup_1 in Hcomm as [c Hc].
  pose proof (lookup_lt_Some _ _ _ Hc) as Hclt.
  assert (comm = members n2c (Z.of_nat c)) as ->
    by exact (lookup_unique _ _ _ _ Hc (Hmem c Hclt)).
  assert (Hin : Z.of_nat c ∈ n2c)
    by (apply Hdense; unfold Community in *; lia).
  apply list_elem_of_lookup_1 in Hin as [v Hv].
  assert (Hmember : Z.of_nat v ∈ members n2c (Z.of_nat c)).
  { apply members_spec. rewrite Nat2Z.id. split; [|exact Hv].
    apply lookup_lt_Some in Hv. lia. }
  intros Hnil. rewrite Hnil in Hmember. now apply elem_of_nil in Hmember.
Qed.

(** X21: a level only merges.  Two vertices that have the same id before
    a level have the same id after it; the graph of the next level has
    one node per id in use, and no more nodes than the graph before. *)
Theorem levels_only_merge
    (g : Graph) (s s' : eval_state) (improvement : bool) :
  partition_contract ->
  reachable (initial_state g) s -> level_body s = Ok (improvement, s') ->
  (forall i j : nat,
     st_n2c s !! i = st_n2c s !! j -> st_n2c s' !! i = st_n2c s' !! j) /\
  nb_nodes (st_g s') = Z.of_nat (length (remove_dups (st_n2c s'))) /\
  nb_nodes (st_g s') <= nb_nodes (st_g s).
Proof.
  intros contract Hreach Hbody.
  destruct (reachable_initial contract g s Hreach) as [Hinv _].
  destruct (level_body_spec contract s Hinv)
    as (best & t & _ & _ & Hspec & Hg & _ & Hn & _).
  assert (t = s') as -> by congruence.
  destruct (level_body_invariant contract s s' improvement Hinv Hbody)
    as [Hinv' _].
  split; [|split].
  - intros i j Hij. rewrite Hn, !list_lookup_fmap, Hij. reflexivity.
  - symmetry. apply dense_ids_count;
      [apply (nb_nodes_nonneg contract)|apply (inv_dense s' Hinv')].
  - rewrite Hg. unfold attempt.
    rewrite (aggregated_nodes contract).
    rewrite <- (n2c_length contract (st_g s) (st_level s) (Z.of_nat best)).
    pose proof (length_remove_dups_le
      (Partition_n2c
         (one_level (st_level s) (Z.of_nat best) (Partition_new (st_g s))).2)).
    lia.
Qed.

(** X22: nothing to merge.  On a graph with a node on which every
    attempt of the first level reports no improvement and leaves node [i]
    in community [i], [evaluateGraph] ends after that level and returns
    one community per vertex, community [v] holding the vertex [v]
    alone. *)
Theorem no_merge_gives_singletons (fuel : nat) (g : Graph) :
  partition_contract -> 0 < nb_nodes g ->
  (forall level i,
     (one_level level i (Partition_new g)).1 = false /\
     Partition_n2c (one_level level i (Partition_new g)).2 =
       seqZ 0 (nb_nodes g)) ->
  (0 < fuel)%nat ->
  evaluateGraph fuel g =
  Some (Ok ((fun v => [v]) <$> seqZ 0 (nb_nodes g))).
Proof.
  intros contract Hpos Hsame Hfuel.
  destruct (initial_state_invariant contract g) as [Hinv _].
  destruct (level_body_spec contract _ Hinv)
    as (best & t & _ & _ & Hbody & _ & _ & Hn & _).
  unfold attempt in Hbody, Hn. cbn [st_level st_g st_n2c initial_state] in *.
  rewrite (proj1 (Hsame _ _)) in Hbody. rewrite (proj2 (Hsame _ _)) in Hn.
  rewrite renumber_identity_fmap in Hn
    by (intros x Hx; apply elem_of_seqZ in Hx; lia).
  destruct (level_loop_improving 0 _ _ t (improving_O _) Hbody) as [Hrun _].
  unfold evaluateGraph, evaluate_levels. rewrite (Hrun fuel Hfuel).
  cbn [mbind outcome_bind]. rewrite Hn, build_result_seqZ by exact Hpos.
  reflexivity.
Qed.

End EvaluatorMore.

(** ** The further properties on concrete inputs *)

Lemma Z_equality_laws : equality_laws Z_numeric Z_numeric id.
Proof. constructor; cbn; unfold id; intros; lia. Qed.

Lemma Z_sign_laws : sign_laws Z_numeric.
Proof. constructor; cbn; intros; lia. Qed.

Lemma Z_cancel_laws : cancel_laws Z_numeric.
Proof. constructor; cbn; intros; lia. Qed.

(** For [int] counts and [double] lengths, the laws of the squared
    distance hold on the counts 1, 2, 3 and the lengths 0.5, 1 and 1.5. *)
Lemma double_distance_laws_on :
  distance_laws_on int_numeric double_numeric int_double
    (fun a => a ∈ [1; 2; 3])
    (fun x => x ∈ [0.5%float; 1%float; 1.5%float]).
Proof. constructor; intros; cases_of_values; by_computation. Qed.

Lemma Z_index_iter (k : nat) : Nat.iter k Z.succ 0 = Z.of_nat k.
Proof.
  induction k as [|k IH]; [reflexivity|].
  rewrite Nat.iter_succ, IH. lia.
Qed.

Lemma Z_index_laws (n : Z) : index_laws Z_index n.
Proof.
  constructor; intros k _; unfold Z_index; simpl; unfold id;
    rewrite Z_index_iter; reflexivity.
Qed.

Lemma invariant_kept_witness :
  wf (reset Z_numeric Z_numeric profile_7_4_9) /\
  borders (reset Z_numeric Z_numeric profile_7_4_9) = borders profile_7_4_9.
Proof.
  apply (invariant_kept Z_numeric Z_numeric profile_7_4_9 profile_wide).
  split; reflexivity.
Defined.

Lemma set_then_get_witness :
  exists p',
    setBorderSPLength profile_7_4_9 1 8 = Ok p' /\
    getBorderSPLength p' 1 = Ok 8.
Proof.
  destruct (set_then_get profile_7_4_9 1 8 5) as [(p' & Hset & Hget & _) _].
  - split; reflexivity.
  - unfold borders. cbn. lia.
  - exists p'. split; [exact Hset|exact Hget].
Defined.

Lemma fresh_profile_is_zero_witness :
  getBorderSPLength (reset Z_numeric Z_numeric profile_7_4_9) 1 = Ok 0 /\
  getMinBorderSPLength Z_numeric (reset Z_numeric Z_numeric profile_7_4_9) =
    Ok 0.
Proof.
  destruct (fresh_profile_is_zero Z_numeric Z_numeric profile_7_4_9 1)
    as (_ & Hlength & _ & Hmin).
  - split; reflexivity.
  - unfold borders. cbn. lia.
  - split; [exact Hlength|exact Hmin].
Defined.


Lemma zero_width_operations_witness :
  normalize Z_numeric profile_empty = Ok profile_empty /\
  compare Z_numeric Z_numeric id profile_empty profile_7_4_9 = Ok 0.
Proof.
  destruct (zero_width_operations Z_numeric Z_numeric id int_int
              profile_empty profile_7_4_9 0
              (fun _ _ => None) (fun _ _ => None))
    as (_ & Hnormalize & Hcompare & _).
  - reflexivity.
  - split; [exact Hnormalize|exact Hcompare].
Defined.

Lemma narrower_operand_is_overrun_witness :
  add_assign Z_numeric Z_numeric profile_7_4_9 profile_0_0 = Undefined.
Proof.
  apply (narrower_operand_is_overrun Z_numeric Z_numeric int_int
           profile_7_4_9 profile_0_0).
  - split; reflexivity.
  - split; reflexivity.
  - unfold borders. cbn. lia.
Defined.

Lemma op_eq_decides_equality_witness :
  exists b,
    op_eq Z_numeric Z_numeric id profile_7_4_9 profile_wide = Ok b /\
    op_ne Z_numeric Z_numeric id profile_7_4_9 profile_wide = Ok (negb b) /\
    (b = true <-> profile_7_4_9 = profile_wide).
Proof.
  apply (op_eq_decides_equality Z_numeric Z_numeric id
           profile_7_4_9 profile_wide Z_equality_laws).
  - split; reflexivity.
  - split; reflexivity.
  - reflexivity.
Defined.


Lemma plus_then_minus_witness :
  exists r,
    plus Z_numeric Z_numeric profile_7_4_9 profile_wide = Ok r /\
    minus Z_numeric Z_numeric r profile_wide = Ok profile_7_4_9.
Proof.
  apply (plus_then_minus Z_numeric Z_numeric profile_7_4_9 profile_wide
           Z_cancel_laws Z_cancel_laws).
  - split; reflexivity.
  - split; reflexivity.
  - reflexivity.
Defined.

Lemma squaredDistance_zero_symmetric_witness :
  squaredDistance int_numeric double_numeric int_double id id
    profile_halves profile_halves = Ok 0%float /\
  squaredDistance int_numeric double_numeric int_double id id
    profile_halves profile_halves_swapped =
  squaredDistance int_numeric double_numeric int_double id id
    profile_halves_swapped profile_halves.
Proof.
  apply (squaredDistance_zero_symmetric int_numeric double_numeric
           int_double _ _ double_distance_laws_on
           profile_halves profile_halves_swapped).
  - split; reflexivity.
  - split; reflexivity.
  - reflexivity.
  - repeat constructor; by_computation.
  - repeat constructor; by_computation.
  - repeat constructor; by_computation.
  - repeat constructor; by_computation.
Defined.

Lemma scalar_assignments_map_witness :
  add_assign_scalar (self_mixed Z_numeric) (self_mixed Z_numeric)
    profile_7_4_9 2 =
  Ok (mkVertexInfo 3 [9; 6; 11] [3; 4; 5]).
Proof.
  apply (scalar_assignments_map (self_mixed Z_numeric) (self_mixed Z_numeric)
           profile_7_4_9 2).
  split; reflexivity.
Defined.

Lemma scalar_multiplication_maps_witness :
  mul_assign_scalar (self_mixed Z_numeric) (self_mixed Z_numeric) Z_index
    4 profile_7_4_9 2 =
  Some (Ok (mkVertexInfo 3 [14; 8; 18] [2; 4; 6])).
Proof.
  apply (scalar_multiplication_maps
           (self_mixed Z_numeric) (self_mixed Z_numeric) Z_index
           profile_7_4_9 2 4).
  - split; reflexivity.
  - apply Z_index_laws.
  - cbn. lia.
Defined.

Lemma conversion_copies_entries_witness :
  assign double_numeric double_numeric int_to_double int_to_double
    double_count_half profile_7_4_9 =
  Some (Ok (converted int_to_double int_to_double profile_7_4_9)).
Proof.
  apply (conversion_copies_entries double_numeric double_numeric
           int_to_double int_to_double double_count_half profile_7_4_9).
  - split; reflexivity.
  - split; reflexivity.
Defined.

Lemma renumber_merges_as_assigned_witness :
  exists r,
    renumber_communities [0; 1; 2; 3; 4] [3; 3; 0; 4; 0] = Ok r /\
    length r = 5%nat.
Proof.
  destruct (renumber_merges_as_assigned [0; 1; 2; 3; 4] [3; 3; 0; 4; 0])
    as (r & Hr & Hlen & _).
  - intros c Hc. apply list_elem_of_In in Hc. cbn in Hc |- *. lia.
  - intros x Hx. apply list_elem_of_In in Hx. cbn in Hx |- *. lia.
  - exists r. split; [exact Hr|exact Hlen].
Defined.

Lemma renumber_identity_assignment_witness :
  renumber_communities [0; 1; 1] (seqZ 0 2) = Ok [0; 1; 1].
Proof.
  apply (renumber_identity_assignment [0; 1; 1] 2).
  intros x Hx. apply list_elem_of_In in Hx. cbn in Hx. lia.
Defined.

Lemma renumber_id_outside_overruns_witness :
  renumber_communities [0; 1] [0; 5] = Undefined.
Proof.
  apply (renumber_id_outside_overruns [0; 1] [0; 5]).
  exists 5. split.
  - left. apply list_elem_of_In. cbn. lia.
  - cbn. lia.
Defined.

Lemma build_result_negative_id_overruns_witness :
  build_result [0; -1] = Undefined.
Proof.
  apply (build_result_negative_id_overruns [0; -1]).
  exists (-1). split.
  - apply list_elem_of_In. cbn. lia.
  - lia.
Defined.

Lemma empty_graph_one_empty_community_witness :
  exists result,
    evaluateGraph 1 empty_graph = Some (Ok result) /\ result = [[]].
Proof.
  eexists.
  assert (Hrun : evaluateGraph 1 empty_graph = Some (Ok _))
    by (vm_compute; reflexivity).
  split; [exact Hrun|].
  exact (empty_graph_one_empty_community 1 empty_graph _
           complete_graphs_contract eq_refl Hrun).
Defined.

Lemma communities_nonempty_witness :
  exists s,
    evaluate_levels 5 triangle = Some (Ok s) /\
    length [[0; 1; 2]] = length (remove_dups (st_n2c s)).
Proof.
  destruct (communities_nonempty 5 triangle [[0; 1; 2]]
              complete_graphs_contract) as (s & Hs & Hlen & _).
  - vm_compute. reflexivity.
  - vm_compute. reflexivity.
  - exists s. split; [exact Hs|exact Hlen].
Defined.

Lemma levels_only_merge_witness :
  exists s',
    level_body (initial_state triangle) = Ok (true, s') /\
    nb_nodes (st_g s') <= nb_nodes (st_g (initial_state triangle)).
Proof.
  eexists.
  assert (Hbody : level_body (initial_state triangle) = Ok (true, _))
    by (vm_compute; reflexivity).
  split; [exact Hbody|].
  apply (levels_only_merge triangle _ _ true complete_graphs_contract
           (reachable_here _) Hbody).
Defined.

Lemma no_merge_gives_singletons_witness :
  evaluateGraph 3 single_node = Some (Ok [[0]]).
Proof.
  apply (no_merge_gives_singletons 3 single_node complete_graphs_contract).
  - vm_compute. reflexivity.
  - intros level i. split; reflexivity.
  - lia.
Defined.
